(** * MyCraft: chunk store, change log, targeting and movement

    A shallow embedding of the world core of the MyCraft voxel game
    (src/utils/types.ts, src/utils/noise.ts, src/components/game/World.tsx,
    src/components/game/BlockInteraction.tsx, src/components/game/Player.tsx,
    the raycaster utility and the capped variant of the world component),
    followed by the properties proved about it.

    Conventions of the embedding.
    - Block and chunk coordinates are JavaScript numbers that only ever hold
      integers: they are [Z].  Continuous quantities (camera position,
      velocities, ray distances, frame deltas) are [Q]; the arithmetic of the
      source is read as exact arithmetic.
    - A comparison [a.distanceTo(b) <= d] is modelled on squares,
      [distanceSq a b <= d * d], which is the same predicate over the reals.
    - The template-string keys [`${x},${y},${z}`] are modelled by the triple
      [(x, y, z)] they print; the printing is injective on integers.
    - A JavaScript [Map] whose iteration order is observable (the block map
      built in [applyChangesToChunk]) is an association list in insertion
      order; the chunk store, which is only looked up by key, is a [gmap]. *)

From Stdlib Require Import ZArith QArith Qround Lqa.
From stdpp Require Import base decidable option list sorting gmap.

#[local] Open Scope Z_scope.

(** ** utils/types.ts *)

Inductive BlockType :=
  | dirt | grass | stone | wood | leaves | brick | sand | glass | water.

#[global] Instance BlockType_eq_dec : EqDecision BlockType.
Proof. solve_decision. Defined.

(** [BlockPosition]: the [x], [y], [z] of a block, as a triple. *)
Definition BlockPosition : Type := Z * Z * Z.

Record Block := mkBlock {
  b_x : Z;
  b_y : Z;
  b_z : Z;
  b_type : BlockType
}.

#[global] Instance Block_eq_dec : EqDecision Block.
Proof. solve_decision. Defined.

Inductive Action := place | remove.

#[global] Instance Action_eq_dec : EqDecision Action.
Proof. solve_decision. Defined.

(** [BlockChange extends Block] with an [action]. *)
Record BlockChange := mkChange {
  c_x : Z;
  c_y : Z;
  c_z : Z;
  c_type : BlockType;
  c_action : Action
}.

#[global] Instance BlockChange_eq_dec : EqDecision BlockChange.
Proof. solve_decision. Defined.

(** [ChunkData].  The optional [chunk.x], [chunk.y], [chunk.z] that World.tsx
    reads through [chunk.x ?? chunk.position.x] are never set on a chunk of
    the store (the generator only fills [position]), so the chunk coordinate
    is always [position]. *)
Record ChunkData := mkChunk {
  position : Z * Z * Z;
  blocks : list Block
}.

Definition block_pos (b : Block) : BlockPosition := (b_x b, b_y b, b_z b).
Definition change_pos (c : BlockChange) : BlockPosition := (c_x c, c_y c, c_z c).

(** ** JavaScript [Map] with observable insertion order *)

Section JsMap.
Context {K V : Type} `{EqDecision K}.

(** [m.set(k, v)]: an existing key keeps its place, a new key goes last. *)
Fixpoint jsmap_set (k : K) (v : V) (m : list (K * V)) : list (K * V) :=
  match m with
  | [] => [(k, v)]
  | (k', v') :: m' =>
      if decide (k' = k) then (k, v) :: m' else (k', v') :: jsmap_set k v m'
  end.

(** [m.delete(k)]. *)
Definition jsmap_delete (k : K) (m : list (K * V)) : list (K * V) :=
  filter (λ e, e.1 ≠ k) m.

(** [m.get(k)]. *)
Fixpoint jsmap_get (k : K) (m : list (K * V)) : option V :=
  match m with
  | [] => None
  | (k', v') :: m' => if decide (k' = k) then Some v' else jsmap_get k m'
  end.

(** [Array.from(m.values())]. *)
Definition jsmap_values (m : list (K * V)) : list V := m.*2.
End JsMap.

(** The integer ranges of the [for] loops are [seqZ lo n]: the [n] integers
    from [lo] on. *)

(** ** utils/noise.ts *)

Module Noise.

(** The two simplex-noise samplers the constructor creates from the hashed
    seed.  They belong to the simplex-noise package; the generator is
    parameterised by them. *)
Record TerrainGenerator := mkGenerator {
  noise2D : Q -> Q -> Q;
  noise3D : Q -> Q -> Q -> Q
}.

Section Generator.
Variable this : TerrainGenerator.

Definition scale1 : Q := 1 # 100.
Definition scale2 : Q := 5 # 100.
Definition scale3 : Q := 2 # 10.

(** [getHeight].  The guards against non-finite coordinates and a
    non-finite elevation cannot fire on integer coordinates and rational
    noise values; the remaining path is the floor of the elevation plus
    the base height. *)
Definition getHeight (x z : Z) : Z :=
  let elevation : Q :=
    ((noise2D this (inject_Z x * scale1) (inject_Z z * scale1) * (7 # 10) + (7 # 10)) * 10
     + (noise2D this (inject_Z x * scale2) (inject_Z z * scale2) * (3 # 10)) * 5
     + (noise2D this (inject_Z x * scale3) (inject_Z z * scale3) * (1 # 10)) * 2)%Q in
  Qfloor elevation + 10.

(** [a > b] on numbers. *)
Definition Qgtb (a b : Q) : bool := negb (Qle_bool a b).

Definition getBlockType (x y z : Z) : option BlockType :=
  let terrainHeight := getHeight x z in
  if bool_decide (y > terrainHeight) then
    if bool_decide (y <= 12) && bool_decide (terrainHeight < 12) then Some water
    else None
  else if bool_decide (y = terrainHeight) then
    let surfaceNoise :=
      noise3D this (inject_Z x * (1 # 10)) (inject_Z y * (1 # 10)) (inject_Z z * (1 # 10)) in
    if bool_decide (terrainHeight > 15) then
      Some (if Qgtb surfaceNoise (2 # 10) then stone else grass)
    else if bool_decide (terrainHeight > 12) then
      Some (if Qgtb surfaceNoise (3 # 10) then dirt else grass)
    else Some sand
  else if bool_decide (y < terrainHeight - 3) then Some stone
  else Some dirt.

(** The innermost loop of [generateChunk]: the blocks of one column. *)
Definition generateColumn (startY : Z) (chunkSize : Z) (worldX worldZ : Z) : list Block :=
  let maxHeight := Z.min (getHeight worldX worldZ) (startY + chunkSize) in
  y ← seqZ 0 chunkSize;
  let worldY := startY + y in
  if bool_decide (worldY <= maxHeight) then
    match getBlockType worldX worldY worldZ with
    | Some blockType => [mkBlock worldX worldY worldZ blockType]
    | None => []
    end
  else [].

Definition generateChunk (chunkX chunkY chunkZ : Z) (chunkSize : Z) : ChunkData :=
  let startX := chunkX * chunkSize in
  let startY := chunkY * chunkSize in
  let startZ := chunkZ * chunkSize in
  mkChunk (chunkX, chunkY, chunkZ)
    (x ← seqZ 0 chunkSize;
     z ← seqZ 0 chunkSize;
     generateColumn startY chunkSize (startX + x) (startZ + z)).
End Generator.

End Noise.

(** ** Vectors of the scene (three.js [Vector3]) *)

Record Vector3 := mkVector3 { v_x : Q; v_y : Q; v_z : Q }.

(** The square of [a.distanceTo(b)]. *)
Definition distanceSq (a b : Vector3) : Q :=
  ((v_x a - v_x b) * (v_x a - v_x b)
   + (v_y a - v_y b) * (v_y a - v_y b)
   + (v_z a - v_z b) * (v_z a - v_z b))%Q.

(** [new Vector3(block.x + 0.5, block.y + 0.5, block.z + 0.5)]. *)
Definition blockCenter (b : Block) : Vector3 :=
  mkVector3 (inject_Z (b_x b) + (1 # 2)) (inject_Z (b_y b) + (1 # 2)) (inject_Z (b_z b) + (1 # 2)).

(** [a.distanceTo(b) > d], for a non-negative [d]. *)
Definition distance_gt (a b : Vector3) (d : Q) : bool := negb (Qle_bool (distanceSq a b) (d * d)).

(** [a.distanceTo(b) <= d], for a non-negative [d]. *)
Definition distance_le (a b : Vector3) (d : Q) : bool := Qle_bool (distanceSq a b) (d * d).

(** The six face normals, shared by World.tsx, BlockInteraction.tsx and the
    raycaster utility (each file declares the same table). *)
Definition faceDirections : list (Z * Z * Z) :=
  [ (1, 0, 0); (-1, 0, 0); (0, 1, 0); (0, -1, 0); (0, 0, 1); (0, 0, -1) ].

(** [Math.min(Math.max(0, face), 5)]. *)
Definition clampFace (face : Z) : Z := Z.min (Z.max 0 face) 5.

(** [faceDirections[i]]: [undefined] outside the table. *)
Definition faceDirection (i : Z) : option (Z * Z * Z) :=
  if bool_decide (0 <= i) then faceDirections !! Z.to_nat i else None.

(** ** components/game/World.tsx *)

Module World.
Import Noise.

Definition CHUNK_SIZE : Z := 16.
Definition RENDER_DISTANCE : Z := 3.
Definition MAX_BREAK_DISTANCE : Q := 5.

Definition makeBlockKey (x y z : Z) : Z * Z * Z := (x, y, z).
Definition getChunkKey (x y z : Z) : Z * Z * Z := (x, y, z).

(** The filter predicate of [applyChangesToChunk]: the change lies inside
    the bounds of the chunk at [pos]. *)
Definition inChunkBounds (pos : Z * Z * Z) (change : BlockChange) : Prop :=
  let '(chunkX, chunkY, chunkZ) := pos in
  let minX := chunkX * CHUNK_SIZE in
  let minY := chunkY * CHUNK_SIZE in
  let minZ := chunkZ * CHUNK_SIZE in
  let maxX := minX + CHUNK_SIZE - 1 in
  let maxY := minY + CHUNK_SIZE - 1 in
  let maxZ := minZ + CHUNK_SIZE - 1 in
  (c_x change >= minX ∧ c_x change <= maxX) ∧
  (c_y change >= minY ∧ c_y change <= maxY) ∧
  (c_z change >= minZ ∧ c_z change <= maxZ).

#[global] Instance inChunkBounds_dec pos change : Decision (inChunkBounds pos change).
Proof. destruct pos as [[? ?] ?]; unfold inChunkBounds; apply _. Defined.

(** One step of [relevantChanges.forEach]. *)
Definition applyChange (blocksMap : list ((Z * Z * Z) * Block)) (change : BlockChange)
  : list ((Z * Z * Z) * Block) :=
  let blockKey := makeBlockKey (c_x change) (c_y change) (c_z change) in
  match c_action change with
  | remove => jsmap_delete blockKey blocksMap
  | place =>
      jsmap_set blockKey (mkBlock (c_x change) (c_y change) (c_z change) (c_type change)) blocksMap
  end.

(** [updatedChunk.blocks.forEach(block => blocksMap.set(key, block))]. *)
Definition blocksMapOf (bs : list Block) : list ((Z * Z * Z) * Block) :=
  foldl (λ m block, jsmap_set (makeBlockKey (b_x block) (b_y block) (b_z block)) block m) [] bs.

Definition applyChangesToChunk (chunk : ChunkData) (changesList : list BlockChange) : ChunkData :=
  let relevantChanges := filter (inChunkBounds (position chunk)) changesList in
  if bool_decide (length relevantChanges = 0%nat) then chunk
  else
    let blocksMap := blocksMapOf (blocks chunk) in
    let blocksMap := foldl applyChange blocksMap relevantChanges in
    mkChunk (position chunk) (jsmap_values blocksMap).

(** [getChunkCoords]: [Math.floor] of the coordinate over the chunk size. *)
Definition getChunkCoords (x y z : Q) : Z * Z * Z :=
  (Qfloor (x / inject_Z CHUNK_SIZE), Qfloor (y / inject_Z CHUNK_SIZE),
   Qfloor (z / inject_Z CHUNK_SIZE)).

Definition chunkKeyOf (c : ChunkData) : Z * Z * Z :=
  let '(x, y, z) := position c in getChunkKey x y z.

(** The component state: the React state cells and the refs that the chunk
    logic reads or writes.  [isChunkGenerationInProgress] is set and cleared
    inside one synchronous frame callback, so it is [false] whenever a
    callback starts and is not part of the state; the metrics counters are
    write-only. *)
Record State := mkState {
  chunks : list ChunkData;
  changes : list BlockChange;
  pendingChanges : list BlockChange;
  terrainGenerator : option TerrainGenerator;
  isInitialChunksLoaded : bool;
  loadedChunks : gmap (Z * Z * Z) ChunkData;
  visibleChunks : gset (Z * Z * Z);
  lastFrameTime : Q;
  playerChunkRef : Z * Z * Z
}.

(** *** generateInitialChunks *)

(** The 3x3x3 cube of chunk coordinates around the start chunk, in loop order. *)
Definition initialCoords : list (Z * Z * Z) :=
  let startX := Qfloor (0 / inject_Z CHUNK_SIZE) in
  let startY := Qfloor (20 / inject_Z CHUNK_SIZE) in
  let startZ := Qfloor (0 / inject_Z CHUNK_SIZE) in
  x ← seqZ (startX - 1) 3; y ← seqZ (startY - 1) 3; z ← seqZ (startZ - 1) 3; [(x, y, z)].

(** The body of the triple loop.  The result of [applyChangesToChunk] is
    dropped by the source (the call is an expression statement), so the
    chunk stored is the generated one. *)
Definition generateInitialStep (generator : TerrainGenerator) (changes : list BlockChange)
    (acc : list ChunkData * gmap (Z * Z * Z) ChunkData * gset (Z * Z * Z)) (k : Z * Z * Z)
  : list ChunkData * gmap (Z * Z * Z) ChunkData * gset (Z * Z * Z) :=
  let '(initialChunks, loaded, visible) := acc in
  let '(x, y, z) := k in
  let chunkKey := getChunkKey x y z in
  match loaded !! chunkKey with
  | Some _ => acc
  | None =>
      let chunk := generateChunk generator x y z CHUNK_SIZE in
      let _ := applyChangesToChunk chunk changes in
      (initialChunks ++ [chunk], <[chunkKey := chunk]> loaded, {[chunkKey]} ∪ visible)
  end.

Definition generateInitialChunks (generator : TerrainGenerator) (w : State) : State :=
  if isInitialChunksLoaded w then w
  else
    let startX := Qfloor (0 / inject_Z CHUNK_SIZE) in
    let startY := Qfloor (20 / inject_Z CHUNK_SIZE) in
    let startZ := Qfloor (0 / inject_Z CHUNK_SIZE) in
    let '(initialChunks, loaded, visible) :=
      foldl (generateInitialStep generator (changes w))
            (([] : list ChunkData), loadedChunks w, visibleChunks w) initialCoords in
    let w := mkState (chunks w) (changes w) (pendingChanges w) (terrainGenerator w)
               (isInitialChunksLoaded w) loaded visible (lastFrameTime w)
               (startX, startY, startZ) in
    if bool_decide (0 < length initialChunks)%nat then
      mkState initialChunks (changes w) (pendingChanges w) (terrainGenerator w)
        true (loadedChunks w) (visibleChunks w) (lastFrameTime w) (playerChunkRef w)
    else w.

(** *** The effect that applies the change log (runs when [changes],
    [terrainGenerator] or [isInitialChunksLoaded] change) *)

(** [changes.forEach]: group the changes by chunk key, in insertion order. *)
Definition groupStep (chunkChanges : list ((Z * Z * Z) * list BlockChange)) (change : BlockChange)
  : list ((Z * Z * Z) * list BlockChange) :=
  let '(cx, cy, cz) :=
    getChunkCoords (inject_Z (c_x change)) (inject_Z (c_y change)) (inject_Z (c_z change)) in
  let chunkKey := getChunkKey cx cy cz in
  let group := default [] (jsmap_get chunkKey chunkChanges) in
  jsmap_set chunkKey (group ++ [change]) chunkChanges.

Definition groupByChunk (changes : list BlockChange) : list ((Z * Z * Z) * list BlockChange) :=
  foldl groupStep [] changes.

(** [chunkChanges.forEach]: patch the loaded chunk of each group, or
    generate it when it is visible but not loaded. *)
Definition effectStep (gen : option TerrainGenerator)
    (acc : gmap (Z * Z * Z) ChunkData * gset (Z * Z * Z) * list ChunkData)
    (entry : (Z * Z * Z) * list BlockChange)
  : gmap (Z * Z * Z) ChunkData * gset (Z * Z * Z) * list ChunkData :=
  let '(loaded, visible, chunksNeedingUpdate) := acc in
  let '(chunkKey, changesForChunk) := entry in
  match loaded !! chunkKey with
  | Some chunk =>
      let updatedChunk := applyChangesToChunk chunk changesForChunk in
      (<[chunkKey := updatedChunk]> loaded, visible,
       if bool_decide (chunkKey ∈ visible) then chunksNeedingUpdate ++ [updatedChunk]
       else chunksNeedingUpdate)
  | None =>
      if bool_decide (chunkKey ∈ visible) then
        match gen with
        | Some generator =>
            let '(x, y, z) := chunkKey in
            let newChunk := generateChunk generator x y z CHUNK_SIZE in
            let updatedChunk := applyChangesToChunk newChunk changesForChunk in
            (<[chunkKey := updatedChunk]> loaded, {[chunkKey]} ∪ visible,
             chunksNeedingUpdate ++ [updatedChunk])
        | None => acc
        end
      else acc
  end.

Definition changesEffect (w : State) : State :=
  if bool_decide (length (changes w) = 0%nat) || negb (isInitialChunksLoaded w) then w
  else
    let chunkChanges := groupByChunk (changes w) in
    let '(loaded, visible, chunksNeedingUpdate) :=
      foldl (effectStep (terrainGenerator w))
            (loadedChunks w, visibleChunks w, ([] : list ChunkData)) chunkChanges in
    let chunks' :=
      if bool_decide (0 < length chunksNeedingUpdate)%nat then
        let chunksToUpdate := chunkKeyOf <$> chunksNeedingUpdate in
        filter (λ c, chunkKeyOf c ∉ chunksToUpdate) (chunks w) ++ chunksNeedingUpdate
      else chunks w in
    mkState chunks' (changes w) (pendingChanges w) (terrainGenerator w)
      (isInitialChunksLoaded w) loaded visible (lastFrameTime w) (playerChunkRef w).

(** *** The frame callback that streams chunks around the player *)

(** The offsets visited by the triple loop, in loop order. *)
Definition renderOffsets : list (Z * Z * Z) :=
  let n := 2 * RENDER_DISTANCE + 1 in
  x ← seqZ (- RENDER_DISTANCE) n;
  y ← seqZ (- RENDER_DISTANCE) n;
  z ← seqZ (- RENDER_DISTANCE) n;
  [(x, y, z)].

(** [distance > RENDER_DISTANCE * 1.5]: the offset is skipped. *)
Definition outOfRange (o : Z * Z * Z) : bool :=
  let '(x, y, z) := o in
  let distance := Z.abs x + Z.abs y + Z.abs z in
  Qgtb (inject_Z distance) (inject_Z RENDER_DISTANCE * (15 # 10)).

(** The body of the triple loop. *)
Definition streamStep (generator : TerrainGenerator) (changes : list BlockChange)
    (currentChunk : Z * Z * Z)
    (acc : gset (Z * Z * Z) * gmap (Z * Z * Z) ChunkData * list ChunkData) (o : Z * Z * Z)
  : gset (Z * Z * Z) * gmap (Z * Z * Z) ChunkData * list ChunkData :=
  let '(newVisibleChunks, loaded, chunksToLoad) := acc in
  if outOfRange o then acc
  else
    let '(x, y, z) := o in
    let '(cx, cy, cz) := currentChunk in
    let chunkX := cx + x in
    let chunkY := cy + y in
    let chunkZ := cz + z in
    let chunkKey := getChunkKey chunkX chunkY chunkZ in
    let newVisibleChunks := {[chunkKey]} ∪ newVisibleChunks in
    match loaded !! chunkKey with
    | Some _ => (newVisibleChunks, loaded, chunksToLoad)
    | None =>
        let newChunk := generateChunk generator chunkX chunkY chunkZ CHUNK_SIZE in
        let updatedChunk := applyChangesToChunk newChunk changes in
        (newVisibleChunks, <[chunkKey := updatedChunk]> loaded, chunksToLoad ++ [updatedChunk])
    end.

(** The whole triple loop of one pass: the new visible set, the store and
    the chunks generated by the pass. *)
Definition streamingPass (generator : TerrainGenerator) (changes : list BlockChange)
    (currentChunk : Z * Z * Z) (loaded : gmap (Z * Z * Z) ChunkData)
  : gset (Z * Z * Z) * gmap (Z * Z * Z) ChunkData * list ChunkData :=
  foldl (streamStep generator changes currentChunk) (∅, loaded, []) renderOffsets.

(** The frame callback, at time [now] (performance.now()) with the camera
    at [camera]. *)
Definition streamingFrame (now : Q) (camera : Vector3) (w : State) : State :=
  match terrainGenerator w with
  | None => w
  | Some generator =>
      if negb (isInitialChunksLoaded w) then w
      else if negb (Qle_bool 250 (now - lastFrameTime w)) then w
      else
        let w := mkState (chunks w) (changes w) (pendingChanges w) (terrainGenerator w)
                   (isInitialChunksLoaded w) (loadedChunks w) (visibleChunks w) now
                   (playerChunkRef w) in
        let currentChunk := getChunkCoords (v_x camera) (v_y camera) (v_z camera) in
        if bool_decide (currentChunk = playerChunkRef w) then w
        else
          let '(newVisibleChunks, loaded, chunksToLoad) :=
            streamingPass generator (changes w) currentChunk (loadedChunks w) in
          let chunksToUnload := visibleChunks w ∖ newVisibleChunks in
          let chunks' :=
            if bool_decide (0 < length chunksToLoad)%nat || bool_decide (0 < size chunksToUnload)%nat
            then filter (λ c, chunkKeyOf c ∉ chunksToUnload) (chunks w) ++ chunksToLoad
            else chunks w in
          mkState chunks' (changes w) (pendingChanges w) (terrainGenerator w)
            (isInitialChunksLoaded w) loaded newVisibleChunks now currentChunk
  end.

(** *** Click handlers *)

Definition appendChange (change : BlockChange) (w : State) : State :=
  mkState (chunks w) (changes w ++ [change]) (pendingChanges w ++ [change])
    (terrainGenerator w) (isInitialChunksLoaded w) (loadedChunks w) (visibleChunks w)
    (lastFrameTime w) (playerChunkRef w).

(** [handleBlockClick]: break the block, unless it is out of reach. *)
Definition handleBlockClick (camera : Vector3) (block : Block) (face : Z) (w : State) : State :=
  if distance_gt camera (blockCenter block) MAX_BREAK_DISTANCE then w
  else appendChange (mkChange (b_x block) (b_y block) (b_z block) (b_type block) remove) w.

(** [chunk.blocks.some(...)] over the values of the chunk store. *)
Definition blockExistsAt (loaded : gmap (Z * Z * Z) ChunkData) (p : Z * Z * Z) : bool :=
  bool_decide (Exists (λ kc : (Z * Z * Z) * ChunkData,
                         Exists (λ b, block_pos b = p) (blocks kc.2))
                      (map_to_list loaded)).

(** The entries of the change log with their index.  Every entry is an
    object of its own (a fresh object literal, or parsed from the server
    reply), so [changes.indexOf(entry)] is the index of that entry. *)
Definition indexed (changes : list BlockChange) : list (nat * BlockChange) :=
  imap (λ i c, (i, c)) changes.

(** The [changes.some(...)] test named [pendingBlockExists]. *)
Definition pendingBlockExistsAt (changes : list BlockChange) (p : Z * Z * Z) : bool :=
  bool_decide
    (Exists (λ ic : nat * BlockChange,
               c_action ic.2 = place ∧ change_pos ic.2 = p ∧
               ¬ Exists (λ jr : nat * BlockChange,
                           c_action jr.2 = remove ∧ change_pos jr.2 = p ∧ (ic.1 < jr.1)%nat)
                        (indexed changes))
            (indexed changes)).

Definition wouldBlockPlayerAt (camera : Vector3) (p : Z * Z * Z) : bool :=
  let playerPosition := (Qfloor (v_x camera), Qfloor (v_y camera), Qfloor (v_z camera)) in
  let '(px, py, pz) := playerPosition in
  let '(nx, ny, nz) := p in
  (bool_decide (nx = px) && bool_decide (ny = py) && bool_decide (nz = pz))
  || (bool_decide (nx = px) && bool_decide (ny = py + 1) && bool_decide (nz = pz)).

(** [handleBlockRightClick]: place [selectedBlock] against the face. *)
Definition handleBlockRightClick (selectedBlock : BlockType) (camera : Vector3)
    (block : Block) (face : Z) (w : State) : State :=
  let validFace := clampFace face in
  match faceDirection validFace with
  | None => w
  | Some (dx, dy, dz) =>
      let newPosition := (b_x block + dx, b_y block + dy, b_z block + dz) in
      let blockExists := blockExistsAt (loadedChunks w) newPosition in
      let pendingBlockExists := pendingBlockExistsAt (changes w) newPosition in
      let wouldBlockPlayer := wouldBlockPlayerAt camera newPosition in
      if negb blockExists && negb pendingBlockExists && negb wouldBlockPlayer then
        appendChange (mkChange (b_x block + dx) (b_y block + dy) (b_z block + dz)
                        selectedBlock place) w
      else w
  end.

(** *** Mounting the component *)

Definition initialState (initialChanges : list BlockChange) : State :=
  mkState [] initialChanges [] None false ∅ ∅ 0 (0, 0, 0).

(** The seed effect creates the generator and loads the initial chunks; the
    state updates re-run the change effect. *)
Definition mount (generator : TerrainGenerator) (initialChanges : list BlockChange) : State :=
  let w := initialState initialChanges in
  let w := mkState (chunks w) (changes w) (pendingChanges w) (Some generator)
             (isInitialChunksLoaded w) (loadedChunks w) (visibleChunks w)
             (lastFrameTime w) (playerChunkRef w) in
  changesEffect (generateInitialChunks generator w).
End World.

(** ** Ray intersections (three.js [Intersection], [Object3D]) *)

(** The part of [userData] the block code reads. *)
Record UserData := mkUserData {
  ud_block : option Block;
  ud_blocks : option (list Block)
}.

(** An intersected object: its own [userData] and the [userData] of its
    parent ([None] when there is no parent, or the parent has none). *)
Record Object3D := mkObject3D {
  userData : option UserData;
  parentUserData : option UserData
}.

Record Intersection := mkIntersection {
  i_distance : Q;
  i_faceIndex : option Z;
  (** [face], when it holds a number *)
  i_face : option Z;
  i_object : Object3D;
  i_instanceId : option Z
}.

(** [blocks[instanceId]] under the guard
    [instanceId !== undefined && instanceId >= 0 && instanceId < blocks.length]. *)
Definition instanceBlock (blocks : list Block) (instanceId : option Z) : option Block :=
  match instanceId with
  | Some i => if bool_decide (0 <= i) then blocks !! Z.to_nat i else None
  | None => None
  end.

(** Block data of one [userData]: the single block, or else the instanced one. *)
Definition userDataBlock (ud : option UserData) (instanceId : option Z) : option Block :=
  match ud with
  | Some d =>
      match ud_block d with
      | Some b => Some b
      | None =>
          match ud_blocks d with
          | Some bs => instanceBlock bs instanceId
          | None => None
          end
      end
  | None => None
  end.

(** [array.sort((a, b) => a.distance - b.distance)]: a stable sort by
    distance, written as an insertion sort. *)
Fixpoint insertByDistance (i : Intersection) (l : list Intersection) : list Intersection :=
  match l with
  | [] => [i]
  | j :: l' =>
      if Qle_bool (i_distance j) (i_distance i) then j :: insertByDistance i l'
      else i :: j :: l'
  end.

Definition sortByDistance (l : list Intersection) : list Intersection :=
  foldl (λ acc i, insertByDistance i acc) [] l.

(** [Math.floor(n / 2)]. *)
Definition halfFloor (n : Z) : Z := n / 2.

(** ** The raycaster utility (targeting with module-level state) *)

Module Raycaster.

Definition MAX_DISTANCE : Q := 5.
Definition INTERACTION_COOLDOWN : Z := 250.

(** [targetedBlock]; its [distance] field is kept as the squared distance. *)
Record Targeted := mkTargeted {
  t_block : Block;
  t_face : Z;
  t_distanceSq : Q
}.

Record State := mkState {
  targetedBlock : option Targeted;
  lastInteractionTime : Z
}.

Definition isObjectWithBlockData (object : Object3D) : bool :=
  match userData object with
  | Some d => bool_decide (is_Some (ud_block d) ∨ is_Some (ud_blocks d))
  | None => false
  end
  || match parentUserData object with
     | Some d => bool_decide (is_Some (ud_block d) ∨ is_Some (ud_blocks d))
     | None => false
     end.

Definition getBlockFromIntersection (object : Object3D) (instanceId : option Z) : option Block :=
  match userDataBlock (userData object) instanceId with
  | Some b => Some b
  | None => userDataBlock (parentUserData object) instanceId
  end.

Definition findValidIntersection (intersects : list Intersection) : option Intersection :=
  let validIntersections :=
    filter (λ i, is_Some (i_faceIndex i) ∧ isObjectWithBlockData (i_object i) = true) intersects in
  head (sortByDistance validIntersections).

Inductive RaycastResult :=
  | NoTarget
  | HasTarget (position : Z * Z * Z) (face : Z) (placePosition : Z * Z * Z) (distanceSq : Q)
  (** [faceDirections[validFaceIndex]] is [undefined] and is indexed *)
  | Throws.

(** [updateRaycast], on the intersections the three.js raycaster returns
    for the centre ray. *)
Definition updateRaycast (camera : Vector3) (intersects : list Intersection) (s : State)
  : RaycastResult * State :=
  let noTarget := (NoTarget, mkState None (lastInteractionTime s)) in
  match findValidIntersection intersects with
  | None => noTarget
  | Some intersection =>
      let validFaceIndex :=
        match i_faceIndex intersection with
        | Some faceIndex => halfFloor faceIndex
        | None => 0
        end in
      match getBlockFromIntersection (i_object intersection) (i_instanceId intersection) with
      | None => noTarget
      | Some block =>
          if distance_le camera (blockCenter block) MAX_DISTANCE then
            let actualDistanceSq := distanceSq camera (blockCenter block) in
            let s' := mkState (Some (mkTargeted block validFaceIndex actualDistanceSq))
                        (lastInteractionTime s) in
            match faceDirection validFaceIndex with
            | Some (dx, dy, dz) =>
                (HasTarget (b_x block, b_y block, b_z block) validFaceIndex
                   (b_x block + dx, b_y block + dy, b_z block + dz) actualDistanceSq, s')
            | None => (Throws, s')
            end
          else noTarget
      end
  end.

Section Callbacks.
(** The state the callback works on (the world component's). *)
Context {W : Type}.

(** [tryBreakBlock] and [tryPlaceBlock] have the same body; [callback] is
    [onBlockBreak] or [onBlockPlace]. *)
Definition tryInteract (callback : Block -> Z -> W -> W) (now : Z) (s : State) (w : W)
  : bool * State * W :=
  match targetedBlock s with
  | Some t =>
      if bool_decide (now - lastInteractionTime s > INTERACTION_COOLDOWN) then
        (true, mkState (targetedBlock s) now, callback (t_block t) (t_face t) w)
      else (false, s, w)
  | None => (false, s, w)
  end.

Definition tryBreakBlock (onBlockBreak : Block -> Z -> W -> W) := tryInteract onBlockBreak.
Definition tryPlaceBlock (onBlockPlace : Block -> Z -> W -> W) := tryInteract onBlockPlace.
End Callbacks.

End Raycaster.

(** ** components/game/BlockInteraction.tsx *)

Module BlockInteraction.

Definition MAX_INTERACTION_DISTANCE : Q := 5.
Definition INTERACTION_COOLDOWN : Z := 250.

Inductive InteractionType := break | place.

#[global] Instance InteractionType_eq_dec : EqDecision InteractionType.
Proof. solve_decision. Defined.

(** [getActionKey]: the string [`${action}-${x},${y},${z}`]. *)
Definition ActionKey : Type := InteractionType * (Z * Z * Z).
Definition getActionKey (action : InteractionType) (x y z : Z) : ActionKey := (action, (x, y, z)).

Inductive FailureReason :=
  | NoBlockTargeted
  | InteractionOnCooldown
  | BlockTooFarAway
  | SameBlockBrokenTooQuickly
  | InvalidFaceDirection
  | SameBlockPlacedTooQuickly.

(** The refs of the component; [lastActionKey] is [None] for the initial
    empty string, [lastFailureReason] likewise. *)
Record State := mkState {
  targetedBlock : option (Block * Z);
  lastInteraction : Z;
  lastActionKey : option ActionKey;
  lastFailureReason : option FailureReason
}.

Definition initialState : State := mkState None 0 None None.

Definition extractBlockFromIntersection (intersection : Intersection) : option Block :=
  match userDataBlock (userData (i_object intersection)) (i_instanceId intersection) with
  | Some b => Some b
  | None => userDataBlock (parentUserData (i_object intersection)) (i_instanceId intersection)
  end.

Definition fail (reason : FailureReason) (s : State) : State :=
  mkState (targetedBlock s) (lastInteraction s) (lastActionKey s) (Some reason).

Section Callbacks.
Context {W : Type}.
Variable onBreakBlock : Z -> Z -> Z -> W -> W.
Variable onPlaceBlock : Z -> Z -> Z -> Z -> W -> W.

(** [handleInteraction], at time [now] (Date.now()), with the camera at
    [camera]; [pointerLocked] is [document.pointerLockElement]. *)
Definition handleInteraction (type : InteractionType) (pointerLocked : bool) (now : Z)
    (camera : Vector3) (s : State) (w : W) : bool * State * W :=
  if negb pointerLocked then (false, s, w)
  else
    match targetedBlock s with
    | None => (false, fail NoBlockTargeted s, w)
    | Some (block, face) =>
        if bool_decide (now - lastInteraction s < INTERACTION_COOLDOWN) then
          (false, fail InteractionOnCooldown s, w)
        else if distance_gt camera (blockCenter block) MAX_INTERACTION_DISTANCE then
          (false, fail BlockTooFarAway s, w)
        else
          (* lastInteraction.current = now *)
          let s := mkState (targetedBlock s) now (lastActionKey s) (lastFailureReason s) in
          match type with
          | break =>
              let actionKey := getActionKey break (b_x block) (b_y block) (b_z block) in
              if bool_decide (Some actionKey = lastActionKey s)
                 && bool_decide (now - lastInteraction s < 1000) then
                (false, fail SameBlockBrokenTooQuickly s, w)
              else
                (true,
                 mkState (targetedBlock s) (lastInteraction s) (Some actionKey)
                   (lastFailureReason s),
                 onBreakBlock (b_x block) (b_y block) (b_z block) w)
          | place =>
              let validFace := clampFace face in
              match faceDirection validFace with
              | None => (false, fail InvalidFaceDirection s, w)
              | Some (dx, dy, dz) =>
                  let newX := b_x block + dx in
                  let newY := b_y block + dy in
                  let newZ := b_z block + dz in
                  let actionKey := getActionKey place newX newY newZ in
                  if bool_decide (Some actionKey = lastActionKey s)
                     && bool_decide (now - lastInteraction s < 1000) then
                    (false, fail SameBlockPlacedTooQuickly s, w)
                  else
                    (true,
                     mkState (targetedBlock s) (lastInteraction s) (Some actionKey)
                       (lastFailureReason s),
                     onPlaceBlock newX newY newZ validFace w)
              end
          end
    end.
End Callbacks.

(** The face number of an intersection: from [faceIndex], else from [face]. *)
Definition faceNumOf (intersection : Intersection) : Z :=
  match i_faceIndex intersection with
  | Some faceIndex => halfFloor faceIndex
  | None =>
      match i_face intersection with
      | Some face => halfFloor face
      | None => 0
      end
  end.

(** The [for] loop over the sorted intersections: the first one that
    carries a block within reach of the camera. *)
Fixpoint firstTarget (camera : Vector3) (sorted : list Intersection) : option (Block * Z) :=
  match sorted with
  | [] => None
  | intersection :: rest =>
      match extractBlockFromIntersection intersection with
      | Some block =>
          let validFaceIndex := clampFace (faceNumOf intersection) in
          if distance_le camera (blockCenter block) MAX_INTERACTION_DISTANCE then
            Some (block, validFaceIndex)
          else firstTarget camera rest
      | None => firstTarget camera rest
      end
  end.

(** The filter of the frame callback on the raw intersections. *)
Definition validIntersection (i : Intersection) : Prop :=
  (is_Some (i_faceIndex i) ∨ is_Some (i_face i))
  ∧ Qle_bool (i_distance i) MAX_INTERACTION_DISTANCE = true.

#[global] Instance validIntersection_dec i : Decision (validIntersection i).
Proof. unfold validIntersection; apply _. Defined.

(** The targeting part of the frame callback: the new [targetedBlock]. *)
Definition frameTarget (camera : Vector3) (intersects : list Intersection) : option (Block * Z) :=
  firstTarget camera (sortByDistance (filter validIntersection intersects)).

(** The placement highlight of the frame callback ([setPlacePosition]). *)
Definition framePlacePosition (camera : Vector3) (target : option (Block * Z))
  : option (Z * Z * Z) :=
  match target with
  | Some (block, validFaceIndex) =>
      match faceDirection validFaceIndex with
      | Some (dx, dy, dz) =>
          let newPos := mkBlock (b_x block + dx) (b_y block + dy) (b_z block + dz) (b_type block) in
          if distance_le camera (blockCenter newPos) MAX_INTERACTION_DISTANCE
          then Some (block_pos newPos) else None
      | None => None
      end
  | None => None
  end.

Definition frame (camera : Vector3) (intersects : list Intersection) (s : State) : State :=
  mkState (frameTarget camera intersects) (lastInteraction s) (lastActionKey s)
    (lastFailureReason s).

End BlockInteraction.

(** ** The capped variant of the world component (chunk streaming with
    [MAX_CHUNKS_PER_FRAME]) *)

Module WorldCapped.
Import Noise.

Definition CHUNK_SIZE : Z := 16.
Definition RENDER_DISTANCE : Z := 3.
Definition MAX_CHUNKS_PER_FRAME : nat := 3.

Definition getChunkKey (x y z : Z) : Z * Z * Z := (x, y, z).

Definition getChunkCoords (x y z : Q) : Z * Z * Z :=
  (Qfloor (x / inject_Z CHUNK_SIZE), Qfloor (y / inject_Z CHUNK_SIZE),
   Qfloor (z / inject_Z CHUNK_SIZE)).

(** Here [loadedChunks] is a [Set] of chunk keys. *)
Record State := mkState {
  chunks : list ChunkData;
  terrainGenerator : option TerrainGenerator;
  isInitialChunksLoaded : bool;
  loadedChunks : gset (Z * Z * Z);
  lastCheckedPosition : Vector3
}.

(** The offsets of the triple loop, in loop order; [y] starts at [-1]. *)
Definition loopOffsets : list (Z * Z * Z) :=
  x ← seqZ (- RENDER_DISTANCE) (2 * RENDER_DISTANCE + 1);
  y ← seqZ (-1) (RENDER_DISTANCE + 2);
  z ← seqZ (- RENDER_DISTANCE) (2 * RENDER_DISTANCE + 1);
  [(x, y, z)].

(** [Math.sqrt(x*x + y*y + z*z) > RENDER_DISTANCE]. *)
Definition tooFar (o : Z * Z * Z) : bool :=
  let '(x, y, z) := o in
  bool_decide (x * x + y * y + z * z > RENDER_DISTANCE * RENDER_DISTANCE).

(** One innermost iteration.  Each of the three loops starts with
    [if (chunksToProcess >= MAX_CHUNKS_PER_FRAME) break;] and the counter
    never decreases, so once the cap is reached no later iteration runs:
    an iteration runs exactly when the counter is below the cap. *)
Definition cappedStep (generator : TerrainGenerator) (playerChunk : Z * Z * Z)
    (acc : gset (Z * Z * Z) * list ChunkData * nat) (o : Z * Z * Z)
  : gset (Z * Z * Z) * list ChunkData * nat :=
  let '(loaded, newChunks, chunksToProcess) := acc in
  if bool_decide (MAX_CHUNKS_PER_FRAME <= chunksToProcess)%nat then acc
  else
    let '(x, y, z) := o in
    let '(px, py, pz) := playerChunk in
    let chunkX := px + x in
    let chunkY := py + y in
    let chunkZ := pz + z in
    let chunkKey := getChunkKey chunkX chunkY chunkZ in
    if bool_decide (chunkKey ∈ loaded) then acc
    else if tooFar o then acc
    else
      (* loadChunk *)
      let chunk := generateChunk generator chunkX chunkY chunkZ CHUNK_SIZE in
      ({[chunkKey]} ∪ loaded, newChunks ++ [chunk], S chunksToProcess).

Definition cappedPass (generator : TerrainGenerator) (playerChunk : Z * Z * Z)
    (loaded : gset (Z * Z * Z)) : gset (Z * Z * Z) * list ChunkData * nat :=
  foldl (cappedStep generator playerChunk) (loaded, [], 0%nat) loopOffsets.

(** The frame callback with the camera at [playerPos]. *)
Definition streamingFrame (playerPos : Vector3) (w : State) : State :=
  match terrainGenerator w with
  | None => w
  | Some generator =>
      if negb (isInitialChunksLoaded w) then w
      else if negb (Qle_bool (10 * 10) (distanceSq playerPos (lastCheckedPosition w))) then w
      else
        let playerChunk := getChunkCoords (v_x playerPos) (v_y playerPos) (v_z playerPos) in
        let '(loaded, newChunks, _) := cappedPass generator playerChunk (loadedChunks w) in
        mkState (chunks w ++ newChunks) (terrainGenerator w) (isInitialChunksLoaded w)
          loaded playerPos
  end.

End WorldCapped.

(** ** components/game/Player.tsx *)

Module Player.

Definition SPEED : Q := 10.
Definition GRAVITY : Q := 30.
Definition JUMP_FORCE : Q := 10.
Definition PLAYER_HEIGHT : Q := 18 # 10.

(** [TerrainCheck.getHeight]; [None] stands for a result that is [NaN] or
    infinite. *)
Definition TerrainCheck : Type := Z -> Z -> option Q.

Record State := mkState {
  camera : Vector3;
  velocity : Vector3;
  moveForward : bool;
  moveBackward : bool;
  moveLeft : bool;
  moveRight : bool;
  jump : bool;
  isGrounded : bool
}.

Section Frame.
(** The module-level [terrainRef]. *)
Variable terrainRef : option TerrainCheck.
(** [direction.normalize()] on the two movement components. *)
Variable normalize : Z -> Z -> Q * Q.
(** [controls.moveRight(vx); controls.moveForward(vz)]: the new [x] and
    [z] of the camera.  PointerLockControls moves the camera parallel to
    the ground plane, [y] is not touched. *)
Variable controlsMove : Vector3 -> Q -> Q -> Q * Q.

Definition Qltb (a b : Q) : bool := negb (Qle_bool b a).

(** [if (delta > 0.1) delta = 0.1]. *)
Definition capDelta (delta : Q) : Q := if Qltb (1 # 10) delta then 1 # 10 else delta.

(** The frame callback while the pointer is locked.  [isGrounded] and
    [jump] are React state: the callback reads the committed values of
    [s], and the values it sets are the ones of the next frame. *)
Definition lockedFrame (delta : Q) (s : State) : State :=
  let delta := capDelta delta in
  let dz := Z.b2z (moveForward s) - Z.b2z (moveBackward s) in
  let dx := Z.b2z (moveRight s) - Z.b2z (moveLeft s) in
  let '(dirX, dirZ) := normalize dx dz in
  let velZ := if moveForward s || moveBackward s then (- dirZ * SPEED * delta)%Q else 0%Q in
  let velX := if moveLeft s || moveRight s then (dirX * SPEED * delta)%Q else 0%Q in
  let terrainHeight : Q :=
    match terrainRef with
    | Some terrain =>
        let playerX := Qfloor (v_x (camera s)) in
        let playerZ := Qfloor (v_z (camera s)) in
        let h := default 1%Q (terrain playerX playerZ) in
        (h + PLAYER_HEIGHT)%Q
    | None => 1%Q
    end in
  (* gravity and landing *)
  let '(velY, camY, grounded') :=
    if Qltb terrainHeight (v_y (camera s))
    then ((v_y (velocity s) - GRAVITY * delta)%Q, v_y (camera s), false)
    else (0%Q, terrainHeight, true) in
  (* jump *)
  let '(velY, jump', grounded') :=
    if jump s && isGrounded s then ((JUMP_FORCE * delta)%Q, false, false)
    else (velY, jump s, grounded') in
  (* horizontal move and the step check *)
  let oldX := v_x (camera s) in
  let oldZ := v_z (camera s) in
  let '(newX, newZ) := controlsMove (mkVector3 oldX camY oldZ) velX velZ in
  let '(camX, camZ) :=
    match terrainRef with
    | Some terrain =>
        match terrain (Qfloor newX) (Qfloor newZ) with
        | Some h =>
            let newTerrainHeight := (h + PLAYER_HEIGHT)%Q in
            if isGrounded s && Qltb (camY + (1 # 2)) newTerrainHeight
            then (oldX, oldZ) else (newX, newZ)
        | None => (newX, newZ)
        end
    | None => (newX, newZ)
    end in
  (* camera.position.y += velocity.current.y *)
  mkState (mkVector3 camX (camY + velY) camZ) (mkVector3 velX velY velZ)
    (moveForward s) (moveBackward s) (moveLeft s) (moveRight s) jump' grounded'.

(** The frame callback: movement is processed only while the pointer is
    locked. *)
Definition frame (isLocked : bool) (delta : Q) (s : State) : State :=
  if isLocked then lockedFrame delta s else s.

(** The key handler for Space. *)
Definition keyDownSpace (s : State) : State :=
  if isGrounded s then
    mkState (camera s) (velocity s) (moveForward s) (moveBackward s) (moveLeft s)
      (moveRight s) true (isGrounded s)
  else s.

(** [n] frames with the pointer locked; [deltas i] is the delta of frame [i]. *)
Fixpoint run (deltas : nat -> Q) (n : nat) (s : State) : State :=
  match n with
  | O => s
  | S n' => lockedFrame (deltas n') (run deltas n' s)
  end.
End Frame.

End Player.

(** ** The change log as the specification describes it *)

(** The type of the block a list of blocks holds at [p], if any. *)
Fixpoint blockAt (bs : list Block) (p : BlockPosition) : option BlockType :=
  match bs with
  | [] => None
  | b :: bs' => if decide (block_pos b = p) then Some (b_type b) else blockAt bs' p
  end.

(** A list of blocks is the block set described by [f]: no two blocks share
    a coordinate, and the blocks of the list are exactly the pairs of a
    coordinate and the type [f] gives it. *)
Definition isBlockSet (bs : list Block) (f : BlockPosition -> option BlockType) : Prop :=
  NoDup (block_pos <$> bs) ∧ ∀ b, b ∈ bs ↔ f (block_pos b) = Some (b_type b).

(** Applying one change to a block set: a remove leaves the coordinate
    empty, a place overwrites it (last write wins). *)
Definition replayChange (world : BlockPosition -> option BlockType) (change : BlockChange)
  : BlockPosition -> option BlockType :=
  λ p, if decide (change_pos change = p)
       then match c_action change with
            | place => Some (c_type change)
            | remove => None
            end
       else world p.

(** Applying a log in log order. *)
Definition replay (log : list BlockChange) (world : BlockPosition -> option BlockType)
  : BlockPosition -> option BlockType :=
  foldl replayChange world log.

(** World coordinate to chunk coordinate: floor division by the chunk side. *)
Definition chunkOf (p : BlockPosition) : Z * Z * Z :=
  let '(x, y, z) := p in (x / 16, y / 16, z / 16).

(** The changes of the log that fall inside the footprint of chunk [k]. *)
Definition changesInFootprint (k : Z * Z * Z) (log : list BlockChange) : list BlockChange :=
  filter (λ c, chunkOf (change_pos c) = k) log.

(** The block set the specification requires of the materialized chunk [k]:
    the generated terrain of [k] with the changes of its footprint applied
    in log order. *)
Definition materialized (gen : Noise.TerrainGenerator) (k : Z * Z * Z) (log : list BlockChange)
  : BlockPosition -> option BlockType :=
  let '(x, y, z) := k in
  replay (changesInFootprint k log) (blockAt (blocks (Noise.generateChunk gen x y z 16))).

(** Well-formedness of the block map of [applyChangesToChunk]: keys are
    unique and every block is stored under its own coordinate. *)
Definition keyedByPosition (m : list ((Z * Z * Z) * Block)) : Prop :=
  NoDup m.*1 ∧ ∀ k b, (k, b) ∈ m -> block_pos b = k.

(** The chunk store agrees with the log: every stored chunk sits under its
    own coordinate and holds the block set the specification requires. *)
Definition storeConsistent (gen : Noise.TerrainGenerator) (log : list BlockChange)
    (loaded : gmap (Z * Z * Z) ChunkData) : Prop :=
  ∀ k chunk, loaded !! k = Some chunk ->
    position chunk = k ∧ isBlockSet (blocks chunk) (materialized gen k log).

(** While the change effect processes its groups, a stored chunk whose group
    is still to come follows the old log, every other one the new log. *)
Definition effectPending (gen : Noise.TerrainGenerator) (logOld log : list BlockChange)
    (pending : list ((Z * Z * Z) * list BlockChange)) (loaded : gmap (Z * Z * Z) ChunkData)
  : Prop :=
  ∀ k chunk, loaded !! k = Some chunk ->
    position chunk = k ∧
    isBlockSet (blocks chunk)
      (materialized gen k (if decide (k ∈ pending.*1) then logOld else log)).

(** What holds of every state the mounted component reaches: the generator
    is set, the initial chunks are loaded, and the store follows the log. *)
Definition worldInvariant (gen : Noise.TerrainGenerator) (w : World.State) : Prop :=
  World.terrainGenerator w = Some gen
  ∧ World.isInitialChunksLoaded w = true
  ∧ storeConsistent gen (World.changes w) (World.loadedChunks w).

(** The steps that mutate the world state after the component is mounted:
    a left click, a right click, and a frame of the streaming callback.  A
    click that appends a change re-renders the component, which runs the
    change effect. *)
Definition afterClick (w w' : World.State) : World.State :=
  if bool_decide (World.changes w' = World.changes w) then w' else World.changesEffect w'.

Inductive reachable (gen : Noise.TerrainGenerator) (initialChanges : list BlockChange)
  : World.State -> Prop :=
  | reach_mount : reachable gen initialChanges (World.mount gen initialChanges)
  | reach_break w camera block face :
      reachable gen initialChanges w ->
      reachable gen initialChanges (afterClick w (World.handleBlockClick camera block face w))
  | reach_place w selectedBlock camera block face :
      reachable gen initialChanges w ->
      reachable gen initialChanges
        (afterClick w (World.handleBlockRightClick selectedBlock camera block face w))
  | reach_frame w now camera :
      reachable gen initialChanges w ->
      reachable gen initialChanges (World.streamingFrame now camera w).

(** A generator over constant noise, for concrete states. *)
Definition flatGenerator : Noise.TerrainGenerator :=
  Noise.mkGenerator (λ _ _, 0%Q) (λ _ _ _, 0%Q).

(** ** Place requests *)

(** Some block of a materialized chunk sits at [p]. *)
Definition occupiedInChunks (w : World.State) (p : Z * Z * Z) : Prop :=
  ∃ k chunk b, World.loadedChunks w !! k = Some chunk ∧ b ∈ blocks chunk ∧ block_pos b = p.

(** The log holds a place at [p] with no later remove at [p]. *)
Definition occupiedByPendingPlace (w : World.State) (p : Z * Z * Z) : Prop :=
  ∃ i c, World.changes w !! i = Some c ∧ c_action c = place ∧ change_pos c = p ∧
    ¬ ∃ j r, World.changes w !! j = Some r ∧ c_action r = remove ∧ change_pos r = p ∧ (i < j)%nat.

(** [p] is the cell of the viewpoint (its floored position) or the cell
    directly above it. *)
Definition playerCell (camera : Vector3) (p : Z * Z * Z) : Prop :=
  let cell := (Qfloor (v_x camera), Qfloor (v_y camera), Qfloor (v_z camera)) in
  p = cell ∨ p = (cell.1.1, cell.1.2 + 1, cell.2).

(** ** Targeting *)

(** Intersections in the order of their raw ray-hit distance. *)
Definition byDistance (a b : Intersection) : Prop := (i_distance a <= i_distance b)%Q.

(** A candidate of the frame callback of BlockInteraction.tsx: an
    intersection that passes the filter, carries block data, and whose block
    centre is within reach of the camera. *)
Definition frameCandidate (camera : Vector3) (i : Intersection) (block : Block) : Prop :=
  BlockInteraction.validIntersection i
  ∧ BlockInteraction.extractBlockFromIntersection i = Some block
  ∧ distance_le camera (blockCenter block) BlockInteraction.MAX_INTERACTION_DISTANCE = true.


(** ** The desired visible set of a streaming pass *)

Definition offsetKey (currentChunk o : Z * Z * Z) : Z * Z * Z :=
  (currentChunk.1.1 + o.1.1, currentChunk.1.2 + o.1.2, currentChunk.2 + o.2).

(** World.tsx: the chunk coordinates within range of the current chunk, in
    loop order. *)
Definition desiredChunks (currentChunk : Z * Z * Z) : list (Z * Z * Z) :=
  offsetKey currentChunk <$> filter (λ o, World.outOfRange o = false) World.renderOffsets.

(** The capped variant: the chunk coordinates within range of the player's
    chunk, in loop order. *)
Definition desiredChunksCapped (playerChunk : Z * Z * Z) : list (Z * Z * Z) :=
  offsetKey playerChunk <$> filter (λ o, WorldCapped.tooFar o = false) WorldCapped.loopOffsets.

(** The invariant of the capped loop: the counter counts the generated
    chunks and stays within the cap; the loaded set grows by the keys of the
    generated chunks; and while the cap is not reached, every in-range
    coordinate visited so far is loaded. *)
Definition cappedInvariant (playerChunk : Z * Z * Z) (loaded0 : gset (Z * Z * Z))
    (visited : list (Z * Z * Z)) (acc : gset (Z * Z * Z) * list ChunkData * nat) : Prop :=
  acc.2 = length acc.1.2
  ∧ (acc.2 <= WorldCapped.MAX_CHUNKS_PER_FRAME)%nat
  ∧ acc.1.1 = list_to_set (position <$> acc.1.2) ∪ loaded0
  ∧ size acc.1.1 = (size loaded0 + acc.2)%nat
  ∧ ((acc.2 < WorldCapped.MAX_CHUNKS_PER_FRAME)%nat ->
     ∀ o, o ∈ visited -> WorldCapped.tooFar o = false -> offsetKey playerChunk o ∈ acc.1.1).

(** ** Movement over flat terrain *)

(** A terrain reference of constant height [h]. *)
Definition flatTerrain (h : Q) : option Player.TerrainCheck := Some (λ _ _, Some h).

(** The viewpoint rests on terrain of height [h]: it stands at [h] plus the
    player height, is grounded, and no jump is requested. *)
Definition atRest (h : Q) (s : Player.State) : Prop :=
  (v_y (Player.camera s) == h + Player.PLAYER_HEIGHT)%Q
  ∧ Player.isGrounded s = true
  ∧ Player.jump s = false.
(** * Further parts of the code *)

(** ** The placement coordinate of a right click *)

(** [newPosition] of [handleBlockRightClick]: the clicked block moved by the
    normal of the clamped face. *)
Definition placePosition (block : Block) (face : Z) : Z * Z * Z :=
  match faceDirection (clampFace face) with
  | Some (dx, dy, dz) => (b_x block + dx, b_y block + dy, b_z block + dz)
  | None => block_pos block
  end.

(** The last change of a log at coordinate [p], if any. *)
Definition lastChangeAt (log : list BlockChange) (p : Z * Z * Z) : option BlockChange :=
  last (filter (λ c, change_pos c = p) log).

(** ** utils/noise.ts: the seed hash *)

Module Seed.

(** [ToInt32]: a number wrapped into the signed 32-bit range. *)
Definition toInt32 (n : Z) : Z := (n + 2 ^ 31) mod 2 ^ 32 - 2 ^ 31.

(** [a << n] and [a & b]: the operands go through [ToInt32], the result is
    a signed 32-bit integer. *)
Definition shl32 (a n : Z) : Z := toInt32 (Z.shiftl (toInt32 a) n).
Definition and32 (a b : Z) : Z := toInt32 (Z.land (toInt32 a) (toInt32 b)).

(** The body of the loop of [hashSeed]; [char] is [seed.charCodeAt(i)].
    The sum stays far below 2^53, so the number arithmetic is exact. *)
Definition hashStep (hash char : Z) : Z :=
  let hash := (shl32 hash 5 - hash) + char in
  and32 hash hash.

(** The loop of [hashSeed], over the UTF-16 code units of the seed. *)
Definition hashLoop (seed : list Z) : Z := foldl hashStep 0 seed.

(** [hashSeed]: [Math.abs(hash) / 2147483647]. *)
Definition hashSeed (seed : list Z) : Q := inject_Z (Z.abs (hashLoop seed)) / 2147483647.

(** The code units of the string "polygenelubricants". *)
Definition polygenelubricants : list Z :=
  [112; 111; 108; 121; 103; 101; 110; 101; 108; 117; 98; 114; 105; 99; 97; 110; 116; 115].

End Seed.

(** The block types [getBlockType] gives at or below the terrain height. *)
Definition groundTypes : list BlockType := [stone; dirt; grass; sand].

(** ** components/game/Chunk.tsx *)

Module Chunk.

(** *** The chunk component *)

(** One step of [chunk.blocks.forEach] in [blocksByType]: the object
    [result] maps a block type to the array of its blocks; its keys are
    kept in the order in which they were created, which is the order of
    [Object.entries]. *)
Definition groupStep (result : list (BlockType * list Block)) (block : Block)
  : list (BlockType * list Block) :=
  let group := default [] (jsmap_get (b_type block) result) in
  jsmap_set (b_type block) (group ++ [block]) result.

Definition blocksByType (chunk : ChunkData) : list (BlockType * list Block) :=
  foldl groupStep [] (blocks chunk).

(** The [position] of the [group] that holds the meshes of the chunk. *)
Definition groupPosition (chunk : ChunkData) : Z * Z * Z :=
  let '(x, y, z) := position chunk in (x * 16, y * 16, z * 16).

(** *** The instanced mesh of one block type *)

(** [tempObject.position.set(block.x % 16, block.y % 16, block.z % 16)]:
    the position of an instance inside its mesh.  [%] is the remainder of
    the truncated division, [Z.rem]. *)
Definition instancePosition (block : Block) : Z * Z * Z :=
  (Z.rem (b_x block) 16, Z.rem (b_y block) 16, Z.rem (b_z block) 16).

(** Where an instance ends up in the world: the mesh is a child of the
    group and neither is rotated or scaled, so the position of the
    instance is added to the position of the group. *)
Definition instanceWorldPosition (chunk : ChunkData) (block : Block) : Z * Z * Z :=
  let '(gx, gy, gz) := groupPosition chunk in
  let '(ix, iy, iz) := instancePosition block in
  (gx + ix, gy + iy, gz + iz).

(** The refs of the component that the block logic uses, and the data the
    frame callback writes on the mesh. *)
Record State := mkState {
  prevBlocks : list Block;
  blocksDirty : bool;
  nextUpdate : Z;
  instanceToBlockMap : gmap Z Z;
  (** the positions of the instance matrices the frame callback wrote, by
      instance index *)
  instanceMatrices : list (Z * Z * Z);
  (** [meshRef.current.userData.blocks] *)
  meshBlocks : option (list Block)
}.

Definition initialState : State := mkState [] true 0 ∅ [] None.

(** The comparison of the loop at index [i]. *)
Definition differsAt (blocks prevBlocks : list Block) (i : nat) : bool :=
  match blocks !! i with
  | Some b =>
      match prevBlocks !! i with
      | None => true
      | Some p =>
          negb (bool_decide (b_x b = b_x p)) || negb (bool_decide (b_y b = b_y p))
          || negb (bool_decide (b_z b = b_z p)) || negb (bool_decide (b_type b = b_type p))
      end
  | None => false
  end.

(** [hasChanged] of the effect on [blocks]. *)
Definition hasChanged (prevBlocks blocks : list Block) : bool :=
  if negb (bool_decide (length prevBlocks = length blocks)) then true
  else existsb (differsAt blocks prevBlocks) (seq 0 (length blocks)).

(** The effect that runs when [blocks] changes. *)
Definition blocksEffect (blocks : list Block) (s : State) : State :=
  if hasChanged (prevBlocks s) blocks then
    mkState blocks true (nextUpdate s) (instanceToBlockMap s) (instanceMatrices s)
      (meshBlocks s)
  else s.

(** [blocks.forEach((block, index) => ...)] of the frame callback: one
    matrix per block, and the map entry [index -> index]. *)
Definition registerInstances (blocks : list Block) : gmap Z Z :=
  foldl (λ m index, <[Z.of_nat index := Z.of_nat index]> m) ∅ (seq 0 (length blocks)).

(** The frame callback at time [now] ([Date.now()]); [mesh] tells whether
    [meshRef.current] is set. *)
Definition frame (mesh : bool) (now : Z) (blocks : list Block) (s : State) : State :=
  if negb (blocksDirty s) || negb mesh then s
  else if bool_decide (now < nextUpdate s) then s
  else
    mkState (prevBlocks s) false (now + 50) (registerInstances blocks)
      (instancePosition <$> blocks) (Some blocks).

(** [handleBlockClick] and [handleBlockRightClick] of the mesh have the
    same body up to the callback: the block and face number handed to the
    callback, if any. *)
Definition clickedBlock (mesh : bool) (blocks : list Block) (s : State)
    (instanceId faceIndex : option Z) : option (Block * Z) :=
  if negb mesh then None
  else
    match instanceId with
    | None => None
    | Some instanceId =>
        match instanceToBlockMap s !! instanceId with
        | None => None
        | Some blockIndex =>
            if bool_decide (blockIndex < 0)
               || bool_decide (Z.of_nat (length blocks) <= blockIndex) then None
            else
              match blocks !! Z.to_nat blockIndex with
              | None => None
              | Some block =>
                  let face :=
                    match faceIndex with
                    | Some faceIndex => halfFloor faceIndex
                    | None => 0
                    end in
                  Some (block, face)
              end
        end
    end.

End Chunk.

(** A block lies inside the bounds of the chunk at [pos]. *)
Definition blockInChunk (pos : Z * Z * Z) (b : Block) : Prop := chunkOf (block_pos b) = pos.

(** The coordinate at which an instance is drawn, for a coordinate [c] of
    its block. *)
Definition drawnCoordinate (c : Z) : Z :=
  if bool_decide (0 <= c ∨ c mod 16 = 0) then c else c - 16.

(** ** The render list *)

(** What holds of the render list [chunks]: no chunk key occurs twice, and
    every rendered chunk is the chunk the store holds under its key and is in
    the visible set. *)
Definition renderInvariant (w : World.State) : Prop :=
  NoDup (World.chunkKeyOf <$> World.chunks w)
  ∧ ∀ c, c ∈ World.chunks w ->
      World.loadedChunks w !! World.chunkKeyOf c = Some c
      ∧ World.chunkKeyOf c ∈ World.visibleChunks w.

(** Every chunk of a store sits under its own key. *)
Definition storeKeyed (loaded : gmap (Z * Z * Z) ChunkData) : Prop :=
  ∀ k c, loaded !! k = Some c -> World.chunkKeyOf c = k.

(** The invariants of the loops that build the render list. *)

Section RenderLoops.
Import World.

(** The loop of [generateInitialChunks]: the chunks collected so far have
    distinct keys, are stored under their keys and are visible. *)
Definition initialInv (acc : list ChunkData * gmap (Z * Z * Z) ChunkData * gset (Z * Z * Z))
  : Prop :=
  NoDup (chunkKeyOf <$> acc.1.1)
  ∧ ∀ c, c ∈ acc.1.1 -> acc.1.2 !! chunkKeyOf c = Some c ∧ chunkKeyOf c ∈ acc.2.

(** The loop of the change effect over the groups, [processed] being the
    keys of the groups done: the store is keyed, the visible set has only
    grown, the updated chunks have distinct keys among the processed ones,
    are stored and visible, and a rendered chunk that was not updated is
    still the stored one. *)
Definition effectInv (chunks0 : list ChunkData) (visible0 : gset (Z * Z * Z))
    (processed : list (Z * Z * Z))
    (acc : gmap (Z * Z * Z) ChunkData * gset (Z * Z * Z) * list ChunkData) : Prop :=
  storeKeyed acc.1.1
  ∧ visible0 ⊆ acc.1.2
  ∧ NoDup (chunkKeyOf <$> acc.2)
  ∧ (∀ c, c ∈ acc.2 ->
       acc.1.1 !! chunkKeyOf c = Some c ∧ chunkKeyOf c ∈ acc.1.2 ∧ chunkKeyOf c ∈ processed)
  ∧ (∀ c, c ∈ chunks0 -> chunkKeyOf c ∉ chunkKeyOf <$> acc.2 ->
       acc.1.1 !! chunkKeyOf c = Some c).

(** The loop of a streaming pass: the entries of the store it started
    from are unchanged, and the generated chunks have distinct keys, are
    stored, visible, and were not in the store before. *)
Definition passInv (loaded0 : gmap (Z * Z * Z) ChunkData)
    (acc : gset (Z * Z * Z) * gmap (Z * Z * Z) ChunkData * list ChunkData) : Prop :=
  (∀ k c, loaded0 !! k = Some c -> acc.1.2 !! k = Some c)
  ∧ NoDup (chunkKeyOf <$> acc.2)
  ∧ ∀ c, c ∈ acc.2 ->
      acc.1.2 !! chunkKeyOf c = Some c ∧ chunkKeyOf c ∈ acc.1.1
      ∧ loaded0 !! chunkKeyOf c = None.

End RenderLoops.

(** ** The capped variant of the world component: the change effect *)

Module WorldCappedEffect.

Definition CHUNK_SIZE : Z := 16.

(** The value kept per chunk key: [{ add: Block[], remove: Set<string> }]. *)
Record ChunkChange := mkChunkChange {
  cc_add : list Block;
  cc_remove : gset (Z * Z * Z)
}.

(** [changes.forEach]: the changes organised by chunk. *)
Definition groupStep (chunkChanges : list ((Z * Z * Z) * ChunkChange)) (change : BlockChange)
  : list ((Z * Z * Z) * ChunkChange) :=
  let chunkX := Qfloor (inject_Z (c_x change) / inject_Z CHUNK_SIZE) in
  let chunkY := Qfloor (inject_Z (c_y change) / inject_Z CHUNK_SIZE) in
  let chunkZ := Qfloor (inject_Z (c_z change) / inject_Z CHUNK_SIZE) in
  let chunkKey := WorldCapped.getChunkKey chunkX chunkY chunkZ in
  let chunkChange := default (mkChunkChange [] ∅) (jsmap_get chunkKey chunkChanges) in
  let blockKey := (c_x change, c_y change, c_z change) in
  let chunkChange :=
    match c_action change with
    | remove => mkChunkChange (cc_add chunkChange) ({[blockKey]} ∪ cc_remove chunkChange)
    | place =>
        mkChunkChange
          (cc_add chunkChange
             ++ [mkBlock (c_x change) (c_y change) (c_z change) (c_type change)])
          (cc_remove chunkChange)
    end in
  jsmap_set chunkKey chunkChange chunkChanges.

Definition groupChanges (changes : list BlockChange) : list ((Z * Z * Z) * ChunkChange) :=
  foldl groupStep [] changes.

(** The update of one chunk: first the removes, then the adds that do not
    meet an existing block. *)
Definition applyChunkChange (chunk : ChunkData) (changes : ChunkChange) : ChunkData :=
  let blocks1 :=
    if bool_decide (0 < size (cc_remove changes))%nat
    then filter (λ b, block_pos b ∉ cc_remove changes) (blocks chunk)
    else blocks chunk in
  let blocks2 :=
    if bool_decide (0 < length (cc_add changes))%nat then
      let existingBlockKeys : gset (Z * Z * Z) := list_to_set (block_pos <$> blocks1) in
      let newBlocks := filter (λ b, block_pos b ∉ existingBlockKeys) (cc_add changes) in
      blocks1 ++ newBlocks
    else blocks1 in
  mkChunk (position chunk) blocks2.

(** One step of [chunkChanges.forEach] inside [setChunks]: the first chunk
    at the key's coordinate, if any, is replaced by its update. *)
Definition effectStep (updatedChunks : list ChunkData)
    (entry : (Z * Z * Z) * ChunkChange) : list ChunkData :=
  let '(chunkKey, changes) := entry in
  match list_find (λ c, position c = chunkKey) updatedChunks with
  | Some (chunkIndex, chunk) => <[chunkIndex := applyChunkChange chunk changes]> updatedChunks
  | None => updatedChunks
  end.

(** The effect on [changes]: the new value of [chunks]. *)
Definition changesEffect (chunks : list ChunkData) (changes : list BlockChange)
  : list ChunkData :=
  if bool_decide (length changes = 0%nat) then chunks
  else foldl effectStep chunks (groupChanges changes).

End WorldCappedEffect.

(** The blocks the places of a log put into chunk [k], in log order, and the
    coordinates its removes name in chunk [k]. *)
Definition placedIn (k : Z * Z * Z) (log : list BlockChange) : list Block :=
  (λ c, mkBlock (c_x c) (c_y c) (c_z c) (c_type c))
    <$> filter (λ c, c_action c = place) (changesInFootprint k log).

Definition removedIn (k : Z * Z * Z) (log : list BlockChange) : gset (Z * Z * Z) :=
  list_to_set (change_pos <$> filter (λ c, c_action c = remove) (changesInFootprint k log)).

(** A chunk after the steps of the effect for the groups [groups]: updated
    with the group of its coordinate, if there is one. *)
Definition patchChunk (groups : list ((Z * Z * Z) * WorldCappedEffect.ChunkChange))
    (c : ChunkData) : ChunkData :=
  match jsmap_get (position c) groups with
  | Some changes => WorldCappedEffect.applyChunkChange c changes
  | None => c
  end.

(** ** The culling variant of the chunk component (distance culling, no
    group offset) *)

Module ChunkCulled.

Definition CHUNK_SIZE : Q := 16.
Definition MAX_VISIBLE_DISTANCE : Q := 32.
Definition BLOCK_CULL_DISTANCE : Q := 48.

(** [Math.pow(camera.position.x - x, 2) + ...]. *)
Definition distanceSquared (camera : Vector3) (x y z : Q) : Q :=
  ((v_x camera - x) * (v_x camera - x) + (v_y camera - y) * (v_y camera - y)
   + (v_z camera - z) * (v_z camera - z))%Q.

(** [visibilityData.isChunkVisible]: the centre of the chunk is closer
    than [MAX_VISIBLE_DISTANCE]. *)
Definition isChunkVisible (camera : Vector3) (chunk : ChunkData) : bool :=
  let '(x, y, z) := position chunk in
  let chunkCenterX := (inject_Z x * CHUNK_SIZE + CHUNK_SIZE / 2)%Q in
  let chunkCenterY := (inject_Z y * CHUNK_SIZE + CHUNK_SIZE / 2)%Q in
  let chunkCenterZ := (inject_Z z * CHUNK_SIZE + CHUNK_SIZE / 2)%Q in
  let distanceSquared := distanceSquared camera chunkCenterX chunkCenterY chunkCenterZ in
  negb (Qle_bool (MAX_VISIBLE_DISTANCE * MAX_VISIBLE_DISTANCE) distanceSquared).

(** The block-level test: [distanceSquared > BLOCK_CULL_DISTANCE * BLOCK_CULL_DISTANCE]. *)
Definition blockCulled (camera : Vector3) (block : Block) : bool :=
  negb (Qle_bool
          (distanceSquared camera (inject_Z (b_x block)) (inject_Z (b_y block))
             (inject_Z (b_z block)))
          (BLOCK_CULL_DISTANCE * BLOCK_CULL_DISTANCE)).

(** One step of [chunk.blocks.forEach]: a culled block is skipped, any
    other goes to the array of its type. *)
Definition groupStep (camera : Vector3) (blocksByType : list (BlockType * list Block))
    (block : Block) : list (BlockType * list Block) :=
  if blockCulled camera block then blocksByType
  else Chunk.groupStep blocksByType block.

(** The body of the [renderedContent] memo with instancing: the blocks by
    type, one instanced mesh each. *)
Definition renderedGroups (camera : Vector3) (chunk : ChunkData)
  : list (BlockType * list Block) :=
  foldl (groupStep camera) [] (blocks chunk).

(** What a render of the component returns.  The two memos have different
    dependencies: [visibilityData] is computed again when [chunk.position]
    is another object, [renderedContent] when [chunk] or a handler is.
    [camera.position] is one vector that is moved in place, so it never
    triggers either.  Each memo thus holds the value of the render that
    computed it last: [visibilityCamera] is the camera position of the
    render that computed [visibilityData], [camera] the one of the render
    that computed [renderedContent].  Nothing is returned for a chunk
    whose [visibilityData] says it is not visible. *)
Definition renderedContent (visibilityCamera camera : Vector3) (chunk : ChunkData)
  : option (list (BlockType * list Block)) :=
  if negb (isChunkVisible visibilityCamera chunk) then None
  else Some (renderedGroups camera chunk).

End ChunkCulled.

(** ** Place requests as the meshes deliver them *)

(** A right click on an instanced mesh: [handleBlockRightClick] of Chunk.tsx
    (the mesh's [onContextMenu]) resolves the event to a block and a face
    number and calls [onBlockRightClick], which the world component sets to
    its own [handleBlockRightClick]. *)
Definition meshRightClick (selectedBlock : BlockType) (camera : Vector3) (mesh : bool)
    (meshBlocks : list Block) (s : Chunk.State) (instanceId faceIndex : option Z)
    (w : World.State) : World.State :=
  match Chunk.clickedBlock mesh meshBlocks s instanceId faceIndex with
  | Some (block, face) => World.handleBlockRightClick selectedBlock camera block face w
  | None => w
  end.

(** The conditions under which a right click places at [p]: the click
    resolved to a target block and face, [p] is the placement coordinate of
    that target, and [p] is free in the materialized chunks, free in the log
    and outside the two cells of the viewpoint. *)
Definition placeAccepted (camera : Vector3) (w : World.State) (target : option (Block * Z))
    (p : Z * Z * Z) : Prop :=
  ∃ block face,
    target = Some (block, face)
    ∧ p = placePosition block face
    ∧ ¬ occupiedInChunks w p
    ∧ ¬ occupiedByPendingPlace w p
    ∧ ¬ playerCell camera p.
(** * Properties *)

(** ** The insertion-ordered map *)

Section JsMapFacts.
Context {K V : Type} `{EqDecision K}.
Implicit Types (m : list (K * V)) (k : K) (v : V).

Lemma jsmap_get_set m k k' v :
  jsmap_get k' (jsmap_set k v m) = if decide (k = k') then Some v else jsmap_get k' m.
Proof.
  induction m as [|[k0 v0] m IH]; simpl.
  - repeat case_decide; congruence.
  - repeat (case_decide; simpl; subst); try congruence.
Qed.

Lemma jsmap_get_delete m k k' :
  jsmap_get k' (jsmap_delete k m) = if decide (k = k') then None else jsmap_get k' m.
Proof.
  unfold jsmap_delete. induction m as [|[k0 v0] m IH]; simpl.
  - by case_decide.
  - rewrite filter_cons. simpl. repeat (case_decide; simpl; subst); try congruence.
Qed.

Lemma jsmap_set_keys m k v :
  (jsmap_set k v m).*1 = if decide (k ∈ m.*1) then m.*1 else m.*1 ++ [k].
Proof.
  induction m as [|[k0 v0] m IH].
  - csimpl. destruct (decide (k ∈ [])) as [Hin|Hin]; [by apply elem_of_nil in Hin|done].
  - csimpl. destruct (decide (k0 = k)) as [->|Hne]; csimpl.
    + rewrite decide_True; [done|left].
    + rewrite IH. destruct (decide (k ∈ m.*1)) as [Hin|Hin].
      * rewrite decide_True; [done|by right].
      * rewrite decide_False; [done|]. intros [?|?]%elem_of_cons; congruence.
Qed.

Lemma jsmap_set_NoDup m k v : NoDup m.*1 -> NoDup (jsmap_set k v m).*1.
Proof.
  intros Hnd. rewrite jsmap_set_keys. case_decide as Hin; [done|].
  apply NoDup_app. split_and!; [done| |apply NoDup_singleton].
  intros x Hx ->%list_elem_of_singleton. done.
Qed.

Lemma jsmap_delete_keys m k : (jsmap_delete k m).*1 = filter (λ x, x ≠ k) m.*1.
Proof.
  unfold jsmap_delete. induction m as [|[k0 v0] m IH]; [done|].
  rewrite fmap_cons, !filter_cons. cbn [fst]. case_decide; csimpl; by rewrite IH.
Qed.

Lemma jsmap_delete_NoDup m k : NoDup m.*1 -> NoDup (jsmap_delete k m).*1.
Proof. intros. rewrite jsmap_delete_keys. by apply NoDup_filter. Qed.

Lemma jsmap_get_None m k : jsmap_get k m = None ↔ k ∉ m.*1.
Proof.
  induction m as [|[k0 v0] m IH]; simpl.
  - split; [intros _; apply not_elem_of_nil|done].
  - case_decide as Hk; subst.
    + split; [done|]. intros []. left.
    + rewrite IH, not_elem_of_cons. split; [intros; split; [congruence|done]|by intros []].
Qed.

Lemma jsmap_get_Some m k v : NoDup m.*1 -> jsmap_get k m = Some v ↔ (k, v) ∈ m.
Proof.
  induction m as [|[k0 v0] m IH]; simpl; intros Hnd.
  - split; [done|]. by intros ?%elem_of_nil.
  - apply NoDup_cons in Hnd as [Hk0 Hnd]. case_decide as Hk; subst.
    + split.
      * intros [= ->]. left.
      * intros [[= ->]|Hin]%elem_of_cons; [done|].
        destruct Hk0. apply list_elem_of_fmap. by exists (k, v).
    + rewrite IH by done. rewrite elem_of_cons. split; [by right|].
      intros [[= ? ?]|?]; [congruence|done].
Qed.

Lemma jsmap_set_fresh m k v : k ∉ m.*1 -> jsmap_set k v m = m ++ [(k, v)].
Proof.
  induction m as [|[k0 v0] m IH]; simpl; [done|].
  intros [Hne Hin]%not_elem_of_cons. rewrite decide_False by done. by rewrite IH.
Qed.

Lemma jsmap_set_elem m k v e :
  e ∈ jsmap_set k v m -> e = (k, v) ∨ e ∈ m.
Proof.
  induction m as [|[k0 v0] m IH]; simpl.
  - intros ->%list_elem_of_singleton. by left.
  - case_decide; subst.
    + intros [->|?]%elem_of_cons; [by left|right; by right].
    + intros [->|?]%elem_of_cons; [right; left|]. destruct IH; auto. right; by right.
Qed.
End JsMapFacts.

(** ** Replaying a log *)

Section ReplayFacts.
Implicit Types (f g : BlockPosition -> option BlockType) (log : list BlockChange).

Lemma replay_snoc log c f p :
  replay (log ++ [c]) f p = replayChange (replay log f) c p.
Proof. unfold replay. by rewrite foldl_app. Qed.

Lemma replay_ext log f g p : f p = g p -> replay log f p = replay log g p.
Proof.
  induction log as [|c log IH] using rev_ind; [done|].
  intros Hfg. rewrite !replay_snoc. unfold replayChange. case_decide; auto.
Qed.

(** A coordinate no change of the log touches keeps its block. *)
Lemma replay_untouched log f p :
  (∀ c, c ∈ log -> change_pos c ≠ p) -> replay log f p = f p.
Proof.
  induction log as [|c log IH] using rev_ind; [done|].
  intros Hlog. rewrite replay_snoc. unfold replayChange.
  rewrite decide_False by (apply Hlog, elem_of_app; right; left).
  apply IH. intros c' Hc'. apply Hlog, elem_of_app. by left.
Qed.

(** At a coordinate some change of the log touches, the block before the
    log does not matter. *)
Lemma replay_touched log f g p :
  (∃ c, c ∈ log ∧ change_pos c = p) -> replay log f p = replay log g p.
Proof.
  induction log as [|c log IH] using rev_ind.
  - intros (c & Hc & _). by apply elem_of_nil in Hc.
  - intros (c' & Hc' & Hp). rewrite !replay_snoc. unfold replayChange.
    case_decide as Hc; [done|].
    apply IH. exists c'. split; [|done].
    apply elem_of_app in Hc' as [?| ->%list_elem_of_singleton]; [done|congruence].
Qed.

(** Replaying a log over the result of replaying part of it is replaying
    it once. *)
Lemma replay_absorb log log' f p :
  (∀ c, c ∈ log' -> c ∈ log) -> replay log (replay log' f) p = replay log f p.
Proof.
  intros Hsub.
  destruct (decide (Exists (λ c, change_pos c = p) log)) as [Hex|Hnex].
  - apply replay_touched. apply Exists_exists in Hex. done.
  - assert (∀ c, c ∈ log -> change_pos c ≠ p) as Hlog.
    { intros c Hc Hp. apply Hnex, Exists_exists. eauto. }
    rewrite !replay_untouched; auto.
Qed.

(** The last change at a coordinate decides. *)
Lemma replay_last log1 c log2 f :
  (∀ c', c' ∈ log2 -> change_pos c' ≠ change_pos c) ->
  replay (log1 ++ c :: log2) f (change_pos c)
  = match c_action c with place => Some (c_type c) | remove => None end.
Proof.
  intros Hlast. unfold replay. rewrite foldl_app. simpl.
  fold (replay log2 (replayChange (foldl replayChange f log1) c) (change_pos c)).
  rewrite replay_untouched by done. unfold replayChange. by rewrite decide_True.
Qed.
End ReplayFacts.

(** ** Block lists and block maps *)

Section BlockListFacts.
Implicit Types (bs : list Block) (m : list ((Z * Z * Z) * Block)).

Lemma block_eta (b : Block) : b = mkBlock (b_x b) (b_y b) (b_z b) (b_type b).
Proof. by destruct b. Qed.

Lemma block_pos_type_inj (b b' : Block) :
  block_pos b = block_pos b' -> b_type b = b_type b' -> b = b'.
Proof. destruct b, b'. unfold block_pos. simpl. congruence. Qed.

Lemma blockAt_None bs p : blockAt bs p = None ↔ p ∉ block_pos <$> bs.
Proof.
  induction bs as [|b bs IH]; csimpl.
  - split; [intros _; apply not_elem_of_nil|done].
  - case_decide as Hb; subst.
    + split; [done|]. intros []. left.
    + rewrite IH, not_elem_of_cons. split; [intros; split; congruence|by intros []].
Qed.

Lemma blockAt_elem bs b :
  NoDup (block_pos <$> bs) -> b ∈ bs ↔ blockAt bs (block_pos b) = Some (b_type b).
Proof.
  induction bs as [|b0 bs IH]; csimpl; intros Hnd.
  - split; [by intros ?%elem_of_nil|done].
  - apply NoDup_cons in Hnd as [Hb0 Hnd]. case_decide as Hb.
    + split.
      * intros [->|Hin]%elem_of_cons; [done|].
        destruct Hb0. rewrite Hb. apply list_elem_of_fmap. by exists b.
      * intros [= Ht]. symmetry in Hb. rewrite (block_pos_type_inj _ _ Hb (eq_sym Ht)). left.
    + rewrite <- IH by done. rewrite elem_of_cons. split; [|by right].
      intros [->|?]; [done|done].
Qed.

Lemma isBlockSet_blockAt bs f :
  NoDup (block_pos <$> bs) -> (∀ p, blockAt bs p = f p) -> isBlockSet bs f.
Proof.
  intros Hnd Hf. split; [done|]. intros b. rewrite <- Hf. by apply blockAt_elem.
Qed.

Lemma isBlockSet_ext bs f g : (∀ p, f p = g p) -> isBlockSet bs f -> isBlockSet bs g.
Proof. intros Hfg [Hnd Hf]. split; [done|]. intros b. by rewrite <- Hfg. Qed.

Lemma isBlockSet_to_blockAt bs f p : isBlockSet bs f -> blockAt bs p = f p.
Proof.
  intros [Hnd Hf]. destruct (blockAt bs p) as [t|] eqn:Hat.
  - pose proof (proj2 (blockAt_elem bs (mkBlock p.1.1 p.1.2 p.2 t) Hnd)) as Hin.
    destruct p as [[x y] z]. simpl in Hin. specialize (Hin Hat).
    apply Hf in Hin. by simpl in Hin.
  - destruct (f p) as [t|] eqn:Hfp; [|done].
    destruct p as [[x y] z].
    assert (mkBlock x y z t ∈ bs) as Hin by (apply Hf; done).
    apply blockAt_elem in Hin; [|done]. simpl in Hin. unfold block_pos in Hin. simpl in Hin.
    congruence.
Qed.

(** Two block sets over the same description hold the same blocks. *)
Lemma isBlockSet_Permutation bs bs' f : isBlockSet bs f -> isBlockSet bs' f -> bs ≡ₚ bs'.
Proof.
  intros [Hnd Hf] [Hnd' Hf']. apply NoDup_Permutation.
  - by apply NoDup_fmap_1 in Hnd.
  - by apply NoDup_fmap_1 in Hnd'.
  - intros b. by rewrite Hf, Hf'.
Qed.

Lemma keyedByPosition_nil : keyedByPosition [].
Proof. split; [constructor|]. by intros ?? ?%elem_of_nil. Qed.

Lemma keyedByPosition_set m b :
  keyedByPosition m -> keyedByPosition (jsmap_set (block_pos b) b m).
Proof.
  intros [Hnd Hk]. split; [by apply jsmap_set_NoDup|].
  intros k b' [[= -> ->]|Hin]%jsmap_set_elem; [done|by apply Hk].
Qed.

Lemma keyedByPosition_delete m k : keyedByPosition m -> keyedByPosition (jsmap_delete k m).
Proof.
  intros [Hnd Hk]. split; [by apply jsmap_delete_NoDup|].
  intros k' b' Hin. unfold jsmap_delete in Hin. apply list_elem_of_filter in Hin as [_ Hin].
  by apply Hk.
Qed.

(** The values of a keyed map, read as a block list. *)
Lemma keyedByPosition_values_pos m : keyedByPosition m -> block_pos <$> jsmap_values m = m.*1.
Proof.
  intros [_ Hk]. unfold jsmap_values. induction m as [|[k b] m IH]; [done|]. csimpl.
  rewrite (Hk k b) by left. f_equal. apply IH. intros k' b' Hin. apply Hk. by right.
Qed.

Lemma keyedByPosition_blockAt m p :
  keyedByPosition m -> blockAt (jsmap_values m) p = b_type <$> jsmap_get p m.
Proof.
  intros [_ Hk]. unfold jsmap_values. induction m as [|[k b] m IH]; [done|]. csimpl.
  rewrite (Hk k b) by left. case_decide; [done|].
  apply IH. intros k' b' Hin. apply Hk. by right.
Qed.
End BlockListFacts.

(** ** applyChangesToChunk *)

Section ApplyChangesFacts.
Import World.
Implicit Types (m : list ((Z * Z * Z) * Block)) (c : BlockChange) (chunk : ChunkData).

Lemma applyChange_keyed m c : keyedByPosition m -> keyedByPosition (applyChange m c).
Proof.
  intros Hm. unfold applyChange. destruct (c_action c).
  - apply (keyedByPosition_set m (mkBlock (c_x c) (c_y c) (c_z c) (c_type c)) Hm).
  - by apply keyedByPosition_delete.
Qed.

Lemma applyChange_get m c p :
  b_type <$> jsmap_get p (applyChange m c)
  = replayChange (λ q, b_type <$> jsmap_get q m) c p.
Proof.
  unfold applyChange, replayChange, makeBlockKey, change_pos. destruct (c_action c).
  - rewrite jsmap_get_set. by destruct (decide _).
  - rewrite jsmap_get_delete. by destruct (decide _).
Qed.

Lemma foldl_applyChange_keyed log m :
  keyedByPosition m -> keyedByPosition (foldl applyChange m log).
Proof. revert m. induction log as [|c log IH]; simpl; auto using applyChange_keyed. Qed.

Lemma foldl_applyChange_get log m p :
  b_type <$> jsmap_get p (foldl applyChange m log)
  = replay log (λ q, b_type <$> jsmap_get q m) p.
Proof.
  induction log as [|c log IH] using rev_ind; [done|].
  rewrite foldl_app, replay_snoc. simpl. rewrite applyChange_get.
  unfold replayChange. by case_decide.
Qed.

Lemma blocksMapOf_snoc bs b :
  blocksMapOf (bs ++ [b]) = jsmap_set (block_pos b) b (blocksMapOf bs).
Proof. unfold blocksMapOf. by rewrite foldl_app. Qed.

Lemma blocksMapOf_keyed bs : keyedByPosition (blocksMapOf bs).
Proof.
  induction bs as [|b bs IH] using rev_ind; [apply keyedByPosition_nil|].
  rewrite blocksMapOf_snoc. by apply keyedByPosition_set.
Qed.

(** On a list without duplicate coordinates the block map lists the blocks
    in their order. *)
Lemma blocksMapOf_NoDup bs :
  NoDup (block_pos <$> bs) -> blocksMapOf bs = (λ b, (block_pos b, b)) <$> bs.
Proof.
  induction bs as [|b bs IH] using rev_ind; [done|].
  rewrite fmap_app, NoDup_app. intros (Hnd & Hdisj & _).
  rewrite blocksMapOf_snoc, IH by done. rewrite jsmap_set_fresh.
  - by rewrite fmap_app.
  - rewrite <- list_fmap_compose. intros Hin. apply (Hdisj (block_pos b)); [done|]. left.
Qed.

Lemma keyedByPosition_zip m : keyedByPosition m -> (λ b, (block_pos b, b)) <$> jsmap_values m = m.
Proof.
  intros [_ Hk]. unfold jsmap_values. induction m as [|[k b] m IH]; [done|]. csimpl.
  rewrite (Hk k b) by left. f_equal. apply IH. intros k' b' Hin. apply Hk. by right.
Qed.

Lemma blocksMapOf_values m : keyedByPosition m -> blocksMapOf (jsmap_values m) = m.
Proof.
  intros Hm. rewrite blocksMapOf_NoDup.
  - by apply keyedByPosition_zip.
  - rewrite keyedByPosition_values_pos by done. apply Hm.
Qed.

Lemma blocksMapOf_get bs p :
  NoDup (block_pos <$> bs) -> b_type <$> jsmap_get p (blocksMapOf bs) = blockAt bs p.
Proof.
  intros Hnd. rewrite blocksMapOf_NoDup by done. clear Hnd.
  induction bs as [|b bs IH]; [done|]. csimpl. destruct (decide _); [done|apply IH].
Qed.

Lemma keyedByPosition_isBlockSet m f :
  keyedByPosition m -> (∀ p, b_type <$> jsmap_get p m = f p) -> isBlockSet (jsmap_values m) f.
Proof.
  intros Hm Hf. apply isBlockSet_blockAt.
  - rewrite keyedByPosition_values_pos by done. apply Hm.
  - intros p. rewrite keyedByPosition_blockAt by done. apply Hf.
Qed.

Lemma applyChangesToChunk_position chunk log :
  position (applyChangesToChunk chunk log) = position chunk.
Proof. unfold applyChangesToChunk. by case_bool_decide. Qed.

(** What a chunk holds after [applyChangesToChunk], when no relevant change
    leaves it untouched or not. *)
Lemma applyChangesToChunk_blocks chunk log :
  let relevant := filter (inChunkBounds (position chunk)) log in
  blocks (applyChangesToChunk chunk log)
  = if bool_decide (length relevant = 0%nat) then blocks chunk
    else jsmap_values (foldl applyChange (blocksMapOf (blocks chunk)) relevant).
Proof. unfold applyChangesToChunk. simpl. by case_bool_decide. Qed.

(** The chunk after [applyChangesToChunk] is the block set of the chunk
    with the relevant changes replayed in order. *)
Lemma applyChangesToChunk_blockSet chunk log :
  NoDup (block_pos <$> blocks chunk) ->
  isBlockSet (blocks (applyChangesToChunk chunk log))
    (replay (filter (inChunkBounds (position chunk)) log) (blockAt (blocks chunk))).
Proof.
  intros Hnd. rewrite applyChangesToChunk_blocks. simpl.
  set (relevant := filter _ log). case_bool_decide as Hrel.
  - apply nil_length_inv in Hrel. rewrite Hrel. by apply isBlockSet_blockAt.
  - apply keyedByPosition_isBlockSet.
    + apply foldl_applyChange_keyed, blocksMapOf_keyed.
    + intros p. rewrite foldl_applyChange_get. apply replay_ext. by apply blocksMapOf_get.
Qed.

(** Applying a log twice gives the blocks of applying it once, for every
    chunk. *)
Lemma applyChangesToChunk_twice chunk log :
  position (applyChangesToChunk (applyChangesToChunk chunk log) log)
  = position (applyChangesToChunk chunk log)
  ∧ blocks (applyChangesToChunk (applyChangesToChunk chunk log) log)
    ≡ₚ blocks (applyChangesToChunk chunk log).
Proof.
  split; [by rewrite !applyChangesToChunk_position|].
  rewrite (applyChangesToChunk_blocks (applyChangesToChunk chunk log)).
  rewrite applyChangesToChunk_position. simpl.
  set (relevant := filter _ log). case_bool_decide as Hrel; [done|].
  rewrite applyChangesToChunk_blocks. simpl. fold relevant.
  rewrite bool_decide_false by done.
  set (m0 := blocksMapOf (blocks chunk)).
  set (m1 := foldl applyChange m0 relevant).
  assert (keyedByPosition m1) as Hm1 by apply foldl_applyChange_keyed, blocksMapOf_keyed.
  rewrite blocksMapOf_values by done.
  apply (isBlockSet_Permutation _ _ (replay relevant (λ q, b_type <$> jsmap_get q m0))).
  - apply keyedByPosition_isBlockSet; [by apply foldl_applyChange_keyed|].
    intros p. rewrite foldl_applyChange_get.
    rewrite (replay_ext _ _ (replay relevant (λ q, b_type <$> jsmap_get q m0)))
      by apply foldl_applyChange_get.
    by apply replay_absorb.
  - apply keyedByPosition_isBlockSet; [done|]. intros p. apply foldl_applyChange_get.
Qed.

Lemma filter_unique_key {A B} `{EqDecision B} (f : A -> B) (l : list A) (x : A) :
  NoDup (f <$> l) -> x ∈ l -> filter (λ y, f y = f x) l = [x].
Proof.
  induction l as [|a l IH]; csimpl; intros Hnd Hin; [by apply elem_of_nil in Hin|].
  apply NoDup_cons in Hnd as [Ha Hnd]. rewrite filter_cons.
  apply elem_of_cons in Hin as [->|Hin].
  - rewrite decide_True by done. f_equal.
    destruct (filter _ l) as [|y ys] eqn:Hfl; [done|]. exfalso.
    assert (y ∈ filter (λ y, f y = f a) l) as Hy by (rewrite Hfl; left).
    apply list_elem_of_filter in Hy as [Hfy Hy].
    apply Ha. rewrite <- Hfy. apply list_elem_of_fmap. by exists y.
  - rewrite decide_False; [by apply IH|].
    intros Hfa. apply Ha. rewrite Hfa. apply list_elem_of_fmap. by exists x.
Qed.
End ApplyChangesFacts.

(** ** Last write wins, idempotence *)

(** C2, as stated, fails.  A list that contains a place at (5,5,5) followed
    later by a remove at (5,5,5) can still end with a block there, because a
    later place comes after the remove; a list that contains a remove
    followed later by a place of stone can end with no block there, because a
    later remove follows; and a chunk whose footprint does not contain
    (5,5,5) ignores the changes altogether. *)
Lemma last_write_wins_as_stated_fails :
  blocks (World.applyChangesToChunk (mkChunk (0, 0, 0) [])
            [mkChange 5 5 5 stone place; mkChange 5 5 5 stone remove; mkChange 5 5 5 dirt place])
  = [mkBlock 5 5 5 dirt]
  ∧ blocks (World.applyChangesToChunk (mkChunk (0, 0, 0) [])
              [mkChange 5 5 5 stone remove; mkChange 5 5 5 stone place; mkChange 5 5 5 stone remove])
    = []
  ∧ blocks (World.applyChangesToChunk (mkChunk (1, 0, 0) [])
              [mkChange 5 5 5 stone remove; mkChange 5 5 5 stone place])
    = [].
Proof. split_and!; reflexivity. Qed.

(** C2 (amended): last write wins.  For every chunk and every change list,
    if the last change of the list at a coordinate inside the chunk's bounds
    is a remove, the chunk after [applyChangesToChunk] has no block at that
    coordinate; if it is a place of type T, the chunk has exactly one block
    at that coordinate and its type is T. *)
Theorem applyChangesToChunk_last_write_wins (chunk : ChunkData) (log1 : list BlockChange)
    (c : BlockChange) (log2 : list BlockChange) :
  World.inChunkBounds (position chunk) c ->
  (∀ c', c' ∈ log2 -> change_pos c' ≠ change_pos c) ->
  let result := World.applyChangesToChunk chunk (log1 ++ c :: log2) in
  match c_action c with
  | remove => ∀ b, b ∈ blocks result -> block_pos b ≠ change_pos c
  | place =>
      filter (λ b, block_pos b = change_pos c) (blocks result)
      = [mkBlock (c_x c) (c_y c) (c_z c) (c_type c)]
  end.
Proof.
  intros Hin Hlast result. subst result.
  rewrite applyChangesToChunk_blocks. simpl.
  rewrite filter_app, filter_cons_True by done.
  set (rel1 := filter _ log1). set (rel2 := filter _ log2).
  rewrite bool_decide_false by (rewrite length_app; simpl; lia).
  set (m := foldl World.applyChange _ _).
  assert (keyedByPosition m) as Hm
    by apply foldl_applyChange_keyed, blocksMapOf_keyed.
  assert (b_type <$> jsmap_get (change_pos c) m
          = match c_action c with place => Some (c_type c) | remove => None end) as Hget.
  { subst m. rewrite foldl_applyChange_get. apply replay_last.
    intros c' Hc'. apply Hlast. subst rel2. by apply list_elem_of_filter in Hc' as [_ ?]. }
  destruct (c_action c).
  - destruct (jsmap_get (change_pos c) m) as [b|] eqn:Hb; [|done].
    injection Hget as Ht.
    apply jsmap_get_Some in Hb; [|apply Hm].
    pose proof (proj2 Hm _ _ Hb) as Hpos.
    assert (b = mkBlock (c_x c) (c_y c) (c_z c) (c_type c)) as Hbeq.
    { apply block_pos_type_inj; [exact Hpos|exact Ht]. }
    rewrite <- Hpos, <- Hbeq. apply filter_unique_key.
    + rewrite keyedByPosition_values_pos by done. apply Hm.
    + unfold jsmap_values. apply list_elem_of_fmap. by exists (change_pos c, b).
  - intros b Hb Hpos.
    destruct (jsmap_get (change_pos c) m) eqn:Hnone; [done|].
    apply jsmap_get_None in Hnone. apply Hnone.
    rewrite <- keyedByPosition_values_pos by done.
    rewrite <- Hpos. apply list_elem_of_fmap. by exists b.
Qed.

Lemma applyChangesToChunk_last_write_wins_witness :
  World.inChunkBounds (0, 0, 0) (mkChange 5 5 5 stone remove)
  ∧ (∀ c', c' ∈ @nil BlockChange -> change_pos c' ≠ (5, 5, 5))
  ∧ ∀ b, b ∈ blocks (World.applyChangesToChunk (mkChunk (0, 0, 0) [mkBlock 5 5 5 dirt])
                       ([mkChange 5 5 5 stone place] ++ mkChange 5 5 5 stone remove :: []))
         -> block_pos b ≠ (5, 5, 5).
Proof.
  assert (World.inChunkBounds (0, 0, 0) (mkChange 5 5 5 stone remove)) as H1
    by (vm_compute; intuition discriminate).
  assert (∀ c', c' ∈ @nil BlockChange -> change_pos c' ≠ (5, 5, 5)) as H2
    by (intros c' Hc'; exfalso; exact (proj1 (elem_of_nil c') Hc')).
  split; [exact H1|split; [exact H2|]].
  exact (applyChangesToChunk_last_write_wins (mkChunk (0, 0, 0) [mkBlock 5 5 5 dirt])
           [mkChange 5 5 5 stone place] (mkChange 5 5 5 stone remove) [] H1 H2).
Defined.

(** The two lists of the specification's example, on the empty chunk at the
    origin. *)
Example place_then_remove_leaves_no_block :
  blocks (World.applyChangesToChunk (mkChunk (0, 0, 0) [])
            [mkChange 5 5 5 stone place; mkChange 5 5 5 stone remove]) = [].
Proof. reflexivity. Qed.

Example remove_then_place_leaves_the_block :
  blocks (World.applyChangesToChunk (mkChunk (0, 0, 0) [])
            [mkChange 5 5 5 stone remove; mkChange 5 5 5 stone place])
  = [mkBlock 5 5 5 stone].
Proof. reflexivity. Qed.

(** Applying a list a second time can reorder the blocks array (the map
    re-inserts a key that was deleted), which is why idempotence is stated
    on the block set. *)
Example applying_twice_can_reorder :
  let log := [mkChange 1 1 1 stone place; mkChange 1 1 1 stone remove;
              mkChange 1 1 1 stone place; mkChange 2 2 2 dirt place] in
  let once := World.applyChangesToChunk (mkChunk (0, 0, 0) []) log in
  blocks once = [mkBlock 1 1 1 stone; mkBlock 2 2 2 dirt]
  ∧ blocks (World.applyChangesToChunk once log) = [mkBlock 2 2 2 dirt; mkBlock 1 1 1 stone].
Proof. split; reflexivity. Qed.

(** C3: idempotence of change application.  For every freshly generated
    chunk C and every change list L, applying L to the result of applying L
    gives a chunk at the same coordinate with the same block set. *)
Theorem applyChangesToChunk_idempotent (gen : Noise.TerrainGenerator) (chunkX chunkY chunkZ : Z)
    (log : list BlockChange) :
  let C := Noise.generateChunk gen chunkX chunkY chunkZ 16 in
  let once := World.applyChangesToChunk C log in
  let twice := World.applyChangesToChunk once log in
  position twice = position once ∧ blocks twice ≡ₚ blocks once.
Proof. intros C once twice. apply applyChangesToChunk_twice. Qed.

(** ** The terrain generator *)

Section GeneratorFacts.
Import Noise.
Variable this : TerrainGenerator.

Lemma generateColumn_elem startY chunkSize worldX worldZ b :
  b ∈ generateColumn this startY chunkSize worldX worldZ ↔
  b_x b = worldX ∧ b_z b = worldZ ∧
  startY <= b_y b < startY + chunkSize ∧
  b_y b <= Z.min (getHeight this worldX worldZ) (startY + chunkSize) ∧
  getBlockType this worldX (b_y b) worldZ = Some (b_type b).
Proof.
  unfold generateColumn. rewrite list_elem_of_bind. split.
  - intros (y & Hb & Hy). apply elem_of_seqZ in Hy.
    case_bool_decide as Hmax; [|by apply elem_of_nil in Hb].
    destruct (getBlockType this worldX (startY + y) worldZ) as [t|] eqn:Ht;
      [|by apply elem_of_nil in Hb].
    apply list_elem_of_singleton in Hb as ->. simpl. split_and!; auto; lia.
  - intros (Hx & Hz & Hy & Hmax & Ht). exists (b_y b - startY).
    split; [|apply elem_of_seqZ; lia].
    replace (startY + (b_y b - startY)) with (b_y b) by lia.
    rewrite bool_decide_true by done. rewrite Ht.
    apply list_elem_of_singleton. rewrite (block_eta b) at 1. by rewrite Hx, Hz.
Qed.

Lemma generateColumn_NoDup startY chunkSize worldX worldZ :
  NoDup (generateColumn this startY chunkSize worldX worldZ).
Proof.
  unfold generateColumn. apply NoDup_bind; [| |apply NoDup_seqZ].
  - intros y1 y2 b _ _ Hb1 Hb2.
    destruct (bool_decide (startY + y1 <= _)); [|by apply elem_of_nil in Hb1].
    destruct (getBlockType this worldX (startY + y1) worldZ); [|by apply elem_of_nil in Hb1].
    apply list_elem_of_singleton in Hb1 as ->.
    destruct (bool_decide (startY + y2 <= _)); [|by apply elem_of_nil in Hb2].
    destruct (getBlockType this worldX (startY + y2) worldZ); [|by apply elem_of_nil in Hb2].
    apply list_elem_of_singleton in Hb2. injection Hb2. lia.
  - intros y _. case_bool_decide; [|constructor].
    destruct (getBlockType this worldX (startY + y) worldZ); [apply NoDup_singleton|constructor].
Qed.

(** The blocks of a generated chunk: exactly the terrain blocks of the
    columns of its footprint, up to the column height. *)
Lemma generateChunk_elem chunkX chunkY chunkZ chunkSize b :
  b ∈ blocks (generateChunk this chunkX chunkY chunkZ chunkSize) ↔
  chunkX * chunkSize <= b_x b < chunkX * chunkSize + chunkSize ∧
  chunkZ * chunkSize <= b_z b < chunkZ * chunkSize + chunkSize ∧
  chunkY * chunkSize <= b_y b < chunkY * chunkSize + chunkSize ∧
  b_y b <= Z.min (getHeight this (b_x b) (b_z b)) (chunkY * chunkSize + chunkSize) ∧
  getBlockType this (b_x b) (b_y b) (b_z b) = Some (b_type b).
Proof.
  unfold generateChunk. simpl. rewrite list_elem_of_bind. split.
  - intros (x & Hb & Hx). apply elem_of_seqZ in Hx.
    apply list_elem_of_bind in Hb as (z & Hb & Hz). apply elem_of_seqZ in Hz.
    apply generateColumn_elem in Hb as (-> & -> & Hy & Hmax & Ht).
    split_and!; auto; lia.
  - intros (Hx & Hz & Hy & Hmax & Ht). exists (b_x b - chunkX * chunkSize).
    split; [|apply elem_of_seqZ; lia].
    apply list_elem_of_bind. exists (b_z b - chunkZ * chunkSize).
    split; [|apply elem_of_seqZ; lia].
    apply generateColumn_elem.
    replace (chunkX * chunkSize + (b_x b - chunkX * chunkSize)) with (b_x b) by lia.
    replace (chunkZ * chunkSize + (b_z b - chunkZ * chunkSize)) with (b_z b) by lia.
    done.
Qed.

Lemma generateChunk_blocks_NoDup chunkX chunkY chunkZ chunkSize :
  NoDup (blocks (generateChunk this chunkX chunkY chunkZ chunkSize)).
Proof.
  unfold generateChunk. simpl. apply NoDup_bind; [| |apply NoDup_seqZ].
  - intros x1 x2 b _ _ (z1 & Hb1 & _)%list_elem_of_bind (z2 & Hb2 & _)%list_elem_of_bind.
    apply generateColumn_elem in Hb1 as (Hx1 & _). apply generateColumn_elem in Hb2 as (Hx2 & _).
    lia.
  - intros x _. apply NoDup_bind; [| |apply NoDup_seqZ].
    + intros z1 z2 b _ _ Hb1 Hb2.
      apply generateColumn_elem in Hb1 as (_ & Hz1 & _).
      apply generateColumn_elem in Hb2 as (_ & Hz2 & _). lia.
    + intros z _. apply generateColumn_NoDup.
Qed.

(** No two blocks of a generated chunk share a coordinate. *)
Lemma generateChunk_NoDup chunkX chunkY chunkZ chunkSize :
  NoDup (block_pos <$> blocks (generateChunk this chunkX chunkY chunkZ chunkSize)).
Proof.
  apply NoDup_fmap_2_strong; [|apply generateChunk_blocks_NoDup].
  intros b b' Hb Hb' Hpos. apply block_pos_type_inj; [done|].
  apply generateChunk_elem in Hb as (_ & _ & _ & _ & Ht).
  apply generateChunk_elem in Hb' as (_ & _ & _ & _ & Ht').
  unfold block_pos in Hpos. injection Hpos as Hx Hy Hz.
  rewrite Hx, Hy, Hz in Ht. congruence.
Qed.

Lemma generateChunk_position chunkX chunkY chunkZ chunkSize :
  position (generateChunk this chunkX chunkY chunkZ chunkSize) = (chunkX, chunkY, chunkZ).
Proof. done. Qed.
End GeneratorFacts.

(** ** Chunk coordinates *)

Section ChunkCoordFacts.
Import World.

(** The bounds test of [applyChangesToChunk] is floor division by 16. *)
Lemma inChunkBounds_chunkOf k c : inChunkBounds k c ↔ chunkOf (change_pos c) = k.
Proof.
  destruct k as [[kx ky] kz]. unfold inChunkBounds, chunkOf, change_pos, CHUNK_SIZE.
  pose proof (Z.div_mod (c_x c) 16). pose proof (Z.mod_pos_bound (c_x c) 16).
  pose proof (Z.div_mod (c_y c) 16). pose proof (Z.mod_pos_bound (c_y c) 16).
  pose proof (Z.div_mod (c_z c) 16). pose proof (Z.mod_pos_bound (c_z c) 16).
  split.
  - intros (Hx & Hy & Hz). f_equal; [f_equal|]; lia.
  - intros [= <- <- <-]. lia.
Qed.

Lemma filter_inChunkBounds k log : filter (inChunkBounds k) log = changesInFootprint k log.
Proof. apply list_filter_iff. intros c. apply inChunkBounds_chunkOf. Qed.

Lemma Qfloor_div_16 (x : Z) : Qfloor (inject_Z x / inject_Z CHUNK_SIZE) = x / 16.
Proof. unfold Qfloor, Qdiv, Qmult, Qinv, inject_Z, CHUNK_SIZE. simpl. by rewrite Z.mul_1_r. Qed.

(** On the integer coordinates of a change, [getChunkCoords] is [chunkOf]. *)
Lemma getChunkCoords_chunkOf c :
  getChunkCoords (inject_Z (c_x c)) (inject_Z (c_y c)) (inject_Z (c_z c))
  = chunkOf (change_pos c).
Proof. unfold getChunkCoords, chunkOf, change_pos. by rewrite !Qfloor_div_16. Qed.

Lemma changesInFootprint_app k log1 log2 :
  changesInFootprint k (log1 ++ log2) = changesInFootprint k log1 ++ changesInFootprint k log2.
Proof. apply filter_app. Qed.

Lemma changesInFootprint_idemp k log :
  changesInFootprint k (changesInFootprint k log) = changesInFootprint k log.
Proof.
  unfold changesInFootprint. rewrite list_filter_filter. apply list_filter_iff. tauto.
Qed.

Lemma groupByChunk_snoc log c :
  groupByChunk (log ++ [c]) = groupStep (groupByChunk log) c.
Proof. unfold groupByChunk. by rewrite foldl_app. Qed.

Lemma groupStep_eq m c :
  groupStep m c
  = jsmap_set (chunkOf (change_pos c))
      (default [] (jsmap_get (chunkOf (change_pos c)) m) ++ [c]) m.
Proof.
  unfold groupStep. rewrite getChunkCoords_chunkOf.
  destruct (chunkOf (change_pos c)) as [[cx cy] cz]. done.
Qed.

Lemma groupByChunk_NoDup log : NoDup (groupByChunk log).*1.
Proof.
  induction log as [|c log IH] using rev_ind; [constructor|].
  rewrite groupByChunk_snoc, groupStep_eq. by apply jsmap_set_NoDup.
Qed.

(** The group of a chunk key holds the changes of its footprint, in log
    order; a key without changes has no group. *)
Lemma groupByChunk_get log k :
  jsmap_get k (groupByChunk log)
  = match changesInFootprint k log with
    | [] => None
    | g => Some g
    end.
Proof.
  induction log as [|c log IH] using rev_ind; [done|].
  rewrite groupByChunk_snoc, groupStep_eq, jsmap_get_set, changesInFootprint_app.
  unfold changesInFootprint at 2. rewrite filter_cons, filter_nil.
  destruct (decide (chunkOf (change_pos c) = k)) as [->|Hk].
  - rewrite IH. by destruct (changesInFootprint _ log).
  - rewrite IH, app_nil_r. done.
Qed.

Lemma groupByChunk_elem log k g :
  (k, g) ∈ groupByChunk log -> g = changesInFootprint k log.
Proof.
  intros Hin. apply jsmap_get_Some in Hin; [|apply groupByChunk_NoDup].
  rewrite groupByChunk_get in Hin. destruct (changesInFootprint k log); congruence.
Qed.

Lemma groupByChunk_no_group log k :
  k ∉ (groupByChunk log).*1 -> changesInFootprint k log = [].
Proof.
  intros Hk. apply jsmap_get_None in Hk. rewrite groupByChunk_get in Hk.
  by destruct (changesInFootprint k log).
Qed.
End ChunkCoordFacts.

(** ** The chunk store follows the change log *)

Section StoreFacts.
Import Noise World.
Variable gen : TerrainGenerator.
Implicit Types (loaded : gmap (Z * Z * Z) ChunkData) (log : list BlockChange).

Lemma materialized_eq k log p :
  materialized gen k log p
  = replay (changesInFootprint k log)
      (blockAt (blocks (generateChunk gen k.1.1 k.1.2 k.2 16))) p.
Proof. by destruct k as [[x y] z]. Qed.

(** A freshly generated chunk with a list applied whose relevant part is
    the footprint part of the log. *)
Lemma generated_chunk_materialized x y z log changesList :
  changesInFootprint (x, y, z) changesList = changesInFootprint (x, y, z) log ->
  isBlockSet (blocks (applyChangesToChunk (generateChunk gen x y z CHUNK_SIZE) changesList))
    (materialized gen (x, y, z) log).
Proof.
  intros Hrel.
  eapply isBlockSet_ext; [|apply applyChangesToChunk_blockSet, generateChunk_NoDup].
  intros p. rewrite generateChunk_position, filter_inChunkBounds, Hrel. done.
Qed.

(** A stored chunk that follows a prefix of the log, patched with a list
    whose relevant part is the footprint part of the whole log. *)
Lemma patched_chunk_materialized chunk k logOld extra changesList :
  position chunk = k ->
  isBlockSet (blocks chunk) (materialized gen k logOld) ->
  changesInFootprint k changesList = changesInFootprint k (logOld ++ extra) ->
  isBlockSet (blocks (applyChangesToChunk chunk changesList))
    (materialized gen k (logOld ++ extra)).
Proof.
  intros Hpos Hold Hrel.
  eapply isBlockSet_ext; [|apply applyChangesToChunk_blockSet, Hold].
  intros p. rewrite Hpos, filter_inChunkBounds, Hrel, !materialized_eq.
  rewrite (replay_ext _ _ (materialized gen k logOld))
    by (by apply isBlockSet_to_blockAt).
  rewrite (replay_ext _ (materialized gen k logOld) _ _ (materialized_eq k logOld p)).
  apply replay_absorb. intros c Hc. rewrite changesInFootprint_app. apply elem_of_app. by left.
Qed.

Lemma storeConsistent_insert log loaded k chunk :
  storeConsistent gen log loaded ->
  position chunk = k ->
  isBlockSet (blocks chunk) (materialized gen k log) ->
  storeConsistent gen log (<[k := chunk]> loaded).
Proof.
  intros Hst Hpos Hset k' chunk' Hlook.
  destruct (decide (k = k')) as [->|Hne].
  - rewrite lookup_insert_eq in Hlook. by injection Hlook as <-.
  - rewrite lookup_insert_ne in Hlook by done. by apply Hst.
Qed.

(** *** The streaming pass *)

Lemma streamStep_consistent log currentChunk acc o :
  storeConsistent gen log acc.1.2 ->
  storeConsistent gen log (streamStep gen log currentChunk acc o).1.2.
Proof.
  destruct acc as [[vis loaded] toLoad]. simpl. intros Hst.
  unfold streamStep. destruct (outOfRange o); [done|].
  destruct o as [[x y] z], currentChunk as [[cx cy] cz]. unfold getChunkKey.
  destruct (loaded !! (cx + x, cy + y, cz + z)) eqn:Hlook; simpl; [done|].
  apply storeConsistent_insert; [done|apply applyChangesToChunk_position|].
  by apply generated_chunk_materialized.
Qed.

Lemma streamingPass_consistent log currentChunk loaded :
  storeConsistent gen log loaded ->
  storeConsistent gen log (streamingPass gen log currentChunk loaded).1.2.
Proof.
  unfold streamingPass. generalize (∅ : gset (Z * Z * Z)) ([] : list ChunkData).
  revert loaded. induction renderOffsets as [|o os IH]; intros loaded vis toLoad Hst; [done|].
  cbn [foldl]. pose proof (streamStep_consistent log currentChunk (vis, loaded, toLoad) o Hst) as Hstep.
  destruct (streamStep gen log currentChunk (vis, loaded, toLoad) o) as [[vis' loaded'] toLoad'].
  by apply IH.
Qed.

(** *** The change effect *)

Lemma effect_fold_consistent logOld extra pending loaded visible need :
  NoDup pending.*1 ->
  (∀ k g, (k, g) ∈ pending -> g = changesInFootprint k (logOld ++ extra)) ->
  effectPending gen logOld (logOld ++ extra) pending loaded ->
  storeConsistent gen (logOld ++ extra)
    (foldl (effectStep (Some gen)) (loaded, visible, need) pending).1.1.
Proof.
  revert loaded visible need.
  induction pending as [|[k g] pending IH]; intros loaded visible need Hnd Hgroups Hpend.
  - simpl. intros k chunk Hlook. destruct (Hpend k chunk Hlook) as [Hpos Hset].
    rewrite decide_False in Hset by apply not_elem_of_nil. done.
  - rewrite fmap_cons in Hnd. apply NoDup_cons in Hnd as [Hk Hnd]. simpl in Hk.
    assert (g = changesInFootprint k (logOld ++ extra)) as Hg by (apply Hgroups; left).
    assert (changesInFootprint k g = changesInFootprint k (logOld ++ extra)) as Hrel
      by (rewrite Hg; apply changesInFootprint_idemp).
    assert (∀ loaded' visible' need',
               effectPending gen logOld (logOld ++ extra) pending loaded' ->
               storeConsistent gen (logOld ++ extra)
                 (foldl (effectStep (Some gen)) (loaded', visible', need') pending).1.1) as IH'.
    { intros. apply IH; [done| |done]. intros k' g' Hin. apply Hgroups. by right. }
    assert (∀ k' chunk', k' ≠ k -> loaded !! k' = Some chunk' ->
               position chunk' = k' ∧
               isBlockSet (blocks chunk')
                 (materialized gen k'
                    (if decide (k' ∈ pending.*1) then logOld else logOld ++ extra))) as Hother.
    { intros k' chunk' Hne Hlook. destruct (Hpend k' chunk' Hlook) as [Hpos Hset].
      split; [done|]. rewrite fmap_cons in Hset. simpl in Hset.
      destruct (decide (k' ∈ pending.*1)) as [Hin|Hin].
      - rewrite decide_True in Hset by (by right). done.
      - rewrite decide_False in Hset; [done|]. by intros [?|?]%elem_of_cons. }
    assert (∀ chunk', position chunk' = k ->
               isBlockSet (blocks chunk') (materialized gen k (logOld ++ extra)) ->
               effectPending gen logOld (logOld ++ extra) pending (<[k := chunk']> loaded)) as Hins.
    { intros chunk' Hpos Hset k' chunk'' Hlook.
      destruct (decide (k = k')) as [<-|Hne].
      - rewrite lookup_insert_eq in Hlook. injection Hlook as <-.
        rewrite decide_False by done. done.
      - rewrite lookup_insert_ne in Hlook by done. by apply Hother. }
    simpl. destruct (loaded !! k) as [chunk|] eqn:Hlook.
    + destruct (Hpend k chunk Hlook) as [Hpos Hset].
      rewrite fmap_cons, decide_True in Hset by left.
      apply IH', Hins; [by rewrite applyChangesToChunk_position|].
      by apply patched_chunk_materialized.
    + assert (effectPending gen logOld (logOld ++ extra) pending loaded) as Hsame.
      { intros k' chunk' Hlook'. apply Hother; [|done]. intros ->. congruence. }
      case_bool_decide; [|by apply IH'].
      destruct k as [[x y] z]. apply IH', Hins; [apply applyChangesToChunk_position|].
      by apply generated_chunk_materialized.
Qed.

Lemma changesEffect_changes w : changes (changesEffect w) = changes w.
Proof.
  unfold changesEffect. destruct (_ || _); [done|].
  by destruct (foldl _ _ _) as [[? ?] ?].
Qed.

Lemma changesEffect_flags w :
  terrainGenerator (changesEffect w) = terrainGenerator w
  ∧ isInitialChunksLoaded (changesEffect w) = isInitialChunksLoaded w.
Proof.
  unfold changesEffect. destruct (_ || _); [done|].
  by destruct (foldl _ _ _) as [[? ?] ?].
Qed.

(** The effect brings a store that follows a prefix of the log up to the
    whole log. *)
Lemma changesEffect_consistent w logOld extra :
  terrainGenerator w = Some gen ->
  isInitialChunksLoaded w = true ->
  changes w = logOld ++ extra ->
  storeConsistent gen logOld (loadedChunks w) ->
  storeConsistent gen (changes w) (loadedChunks (changesEffect w)).
Proof.
  intros Hgen Hinit Hlog Hst. unfold changesEffect. rewrite Hinit, Hgen. simpl.
  rewrite orb_false_r. case_bool_decide as Hlen.
  - apply nil_length_inv in Hlen. rewrite Hlen in *.
    symmetry in Hlog. apply app_eq_nil in Hlog as [-> ->]. done.
  - pose proof (effect_fold_consistent logOld extra (groupByChunk (changes w))
                  (loadedChunks w) (visibleChunks w) []) as Hfold.
    destruct (foldl _ _ _) as [[loaded visible] need]. simpl in *.
    rewrite Hlog in *. apply Hfold.
    + apply groupByChunk_NoDup.
    + apply groupByChunk_elem.
    + intros k chunk Hlook. destruct (Hst k chunk Hlook) as [Hpos Hset]. split; [done|].
      case_decide as Hk; [done|].
      apply groupByChunk_no_group in Hk.
      eapply isBlockSet_ext; [|exact Hset]. intros p. rewrite !materialized_eq, Hk.
      rewrite changesInFootprint_app in Hk. by apply app_eq_nil in Hk as [-> _].
Qed.
End StoreFacts.

(** ** Mounting, clicks and frames keep the store consistent *)

Section WorldInvariant.
Import Noise World.
Variable gen : TerrainGenerator.

Lemma generated_raw_chunk x y z :
  isBlockSet (blocks (generateChunk gen x y z CHUNK_SIZE)) (materialized gen (x, y, z) []).
Proof. apply isBlockSet_blockAt; [apply generateChunk_NoDup|done]. Qed.

Lemma generateInitialStep_consistent log acc k :
  storeConsistent gen [] acc.1.2 ->
  storeConsistent gen [] (generateInitialStep gen log acc k).1.2.
Proof.
  destruct acc as [[initial loaded] visible], k as [[x y] z]. simpl. intros Hst.
  unfold getChunkKey. destruct (loaded !! (x, y, z)); simpl; [done|].
  apply storeConsistent_insert; [done|done|apply generated_raw_chunk].
Qed.

Lemma generateInitialStep_length log acc k :
  (length acc.1.1 <= length (generateInitialStep gen log acc k).1.1)%nat.
Proof.
  destruct acc as [[initial loaded] visible], k as [[x y] z]. simpl.
  destruct (loaded !! getChunkKey x y z); simpl; [done|]. rewrite length_app. lia.
Qed.

Lemma generateInitial_fold log coords acc :
  storeConsistent gen [] acc.1.2 ->
  storeConsistent gen [] (foldl (generateInitialStep gen log) acc coords).1.2
  ∧ (length acc.1.1 <= length (foldl (generateInitialStep gen log) acc coords).1.1)%nat.
Proof.
  revert acc. induction coords as [|k coords IH]; intros acc Hst; [done|].
  cbn [foldl].
  destruct (IH (generateInitialStep gen log acc k)) as [Hst' Hlen];
    [by apply generateInitialStep_consistent|].
  split; [done|]. pose proof (generateInitialStep_length log acc k). lia.
Qed.

(** After the seed effect the store holds the generated chunks, without
    the changes. *)
Lemma generateInitialChunks_spec w :
  isInitialChunksLoaded w = false ->
  loadedChunks w = ∅ ->
  let w' := generateInitialChunks gen w in
  isInitialChunksLoaded w' = true
  ∧ terrainGenerator w' = terrainGenerator w
  ∧ changes w' = changes w
  ∧ storeConsistent gen [] (loadedChunks w').
Proof.
  intros Hinit Hempty. unfold generateInitialChunks. rewrite Hinit, Hempty.
  destruct initialCoords as [|k0 coords] eqn:Hcoords; [by vm_compute in Hcoords|].
  cbn [foldl].
  set (acc1 := generateInitialStep gen (changes w) ([], ∅, visibleChunks w) k0).
  assert (storeConsistent gen [] acc1.1.2 ∧ (1 <= length acc1.1.1)%nat) as [Hst1 Hlen1].
  { subst acc1. destruct k0 as [[x y] z]. unfold generateInitialStep.
    rewrite lookup_empty. simpl. split; [|lia].
    apply storeConsistent_insert; [|done|apply generated_raw_chunk].
    intros k chunk Hlook. by rewrite lookup_empty in Hlook. }
  destruct (generateInitial_fold (changes w) coords acc1 Hst1) as [Hst Hlen].
  destruct (foldl _ acc1 coords) as [[initial loaded] visible]. simpl in *.
  rewrite bool_decide_true by lia. done.
Qed.

Lemma mount_invariant initialChanges : worldInvariant gen (mount gen initialChanges).
Proof.
  unfold mount.
  set (w0 := mkState _ _ _ _ _ _ _ _ _).
  destruct (generateInitialChunks_spec w0 eq_refl eq_refl) as (Hinit & Hgen & Hlog & Hst).
  set (w1 := generateInitialChunks gen w0) in *.
  destruct (changesEffect_flags w1) as [Hgen' Hinit'].
  split_and!.
  - by rewrite Hgen', Hgen.
  - by rewrite Hinit'.
  - rewrite changesEffect_changes.
    apply (changesEffect_consistent gen w1 [] (changes w1)); [by rewrite Hgen|done|done|done].
Qed.

Lemma afterClick_invariant w w' extra :
  worldInvariant gen w ->
  changes w' = changes w ++ extra ->
  terrainGenerator w' = terrainGenerator w ->
  isInitialChunksLoaded w' = isInitialChunksLoaded w ->
  loadedChunks w' = loadedChunks w ->
  worldInvariant gen (afterClick w w').
Proof.
  intros (Hgen & Hinit & Hst) Hlog Hgen' Hinit' Hloaded. unfold afterClick.
  case_bool_decide as Hsame.
  - split_and!; [congruence|congruence|]. by rewrite Hsame, Hloaded.
  - destruct (changesEffect_flags w') as [Hg Hi]. split_and!; [congruence|congruence|].
    rewrite changesEffect_changes.
    apply (changesEffect_consistent gen w' (changes w) extra); [congruence|congruence|done|].
    by rewrite Hloaded.
Qed.

Lemma handleBlockClick_cases camera block face w :
  handleBlockClick camera block face w = w
  ∨ handleBlockClick camera block face w
    = appendChange (mkChange (b_x block) (b_y block) (b_z block) (b_type block) remove) w.
Proof. unfold handleBlockClick. destruct (distance_gt _ _ _); auto. Qed.

Lemma handleBlockRightClick_cases selectedBlock camera block face w :
  handleBlockRightClick selectedBlock camera block face w = w
  ∨ ∃ x y z, handleBlockRightClick selectedBlock camera block face w
             = appendChange (mkChange x y z selectedBlock place) w.
Proof.
  unfold handleBlockRightClick. destruct (faceDirection _) as [[[dx dy] dz]|]; [|by left].
  destruct (_ && _); [right; eauto|by left].
Qed.

Lemma click_invariant w w' :
  worldInvariant gen w ->
  (w' = w ∨ ∃ c, w' = appendChange c w) ->
  worldInvariant gen (afterClick w w').
Proof.
  intros Hinv [->|[c ->]].
  - apply (afterClick_invariant w w []); [done|by rewrite app_nil_r|done..].
  - by apply (afterClick_invariant w _ [c]).
Qed.

Lemma streamingFrame_invariant now camera w :
  worldInvariant gen w -> worldInvariant gen (streamingFrame now camera w).
Proof.
  intros (Hgen & Hinit & Hst). unfold streamingFrame. rewrite Hgen, Hinit. cbn [negb].
  destruct (Qle_bool _ _); cbn [negb]; [|by split_and!].
  cbn [changes loadedChunks playerChunkRef visibleChunks chunks terrainGenerator
       isInitialChunksLoaded pendingChanges].
  case_bool_decide; [by split_and!|].
  pose proof (streamingPass_consistent gen (changes w)
                (getChunkCoords (v_x camera) (v_y camera) (v_z camera)) (loadedChunks w) Hst)
    as Hpass.
  destruct (streamingPass _ _ _ _) as [[vis loaded] toLoad]. by split_and!.
Qed.

Lemma reachable_invariant initialChanges w :
  reachable gen initialChanges w -> worldInvariant gen w.
Proof.
  induction 1 as [|w camera block face _ IH|w sel camera block face _ IH|w now camera _ IH].
  - apply mount_invariant.
  - apply click_invariant; [done|].
    destruct (handleBlockClick_cases camera block face w) as [->| ->]; eauto.
  - apply click_invariant; [done|].
    destruct (handleBlockRightClick_cases sel camera block face w) as [->|(x & y & z & ->)]; eauto.
  - by apply streamingFrame_invariant.
Qed.
End WorldInvariant.

(** C1: the materialized chunks follow the change log.  In every state the
    mounted world reaches by appending block changes (left and right clicks,
    each followed by the change effect) and by streaming frames, every chunk
    of the loaded-chunk store sits under its own coordinate and its block set
    is the generated terrain of that coordinate with the changes of the log
    that fall into the chunk's 16x16x16 footprint applied in log order. *)
Theorem materialized_chunks_follow_log (gen : Noise.TerrainGenerator)
    (initialChanges : list BlockChange) (w : World.State) (k : Z * Z * Z) (chunk : ChunkData) :
  reachable gen initialChanges w ->
  World.loadedChunks w !! k = Some chunk ->
  position chunk = k ∧ isBlockSet (blocks chunk) (materialized gen k (World.changes w)).
Proof.
  intros Hreach Hlook. destruct (reachable_invariant gen initialChanges w Hreach) as (_ & _ & Hst).
  by apply Hst.
Qed.

Lemma materialized_chunks_follow_log_witness :
  let w := World.mount flatGenerator [mkChange 2 17 2 grass remove] in
  let chunk :=
    World.applyChangesToChunk (Noise.generateChunk flatGenerator 0 1 0 16)
      [mkChange 2 17 2 grass remove] in
  reachable flatGenerator [mkChange 2 17 2 grass remove] w
  ∧ World.loadedChunks w !! (0, 1, 0) = Some chunk
  ∧ (position chunk = (0, 1, 0)
     ∧ isBlockSet (blocks chunk) (materialized flatGenerator (0, 1, 0) (World.changes w))).
Proof.
  intros w chunk.
  assert (reachable flatGenerator [mkChange 2 17 2 grass remove] w) as H1 by constructor.
  assert (World.loadedChunks w !! (0, 1, 0) = Some chunk) as H2 by (vm_compute; reflexivity).
  split; [exact H1|split; [exact H2|]].
  exact (materialized_chunks_follow_log flatGenerator [mkChange 2 17 2 grass remove] w
           (0, 1, 0) chunk H1 H2).
Defined.

(** ** The click handlers *)

Section HandlerFacts.
Import World.

Lemma clampFace_range face : 0 <= clampFace face <= 5.
Proof. unfold clampFace. lia. Qed.

Example clampFace_below : clampFace (-3) = 0.
Proof. reflexivity. Qed.

Example clampFace_above : clampFace 9 = 5.
Proof. reflexivity. Qed.

(** The clamped index always hits the table. *)
Lemma faceDirection_clampFace face :
  ∃ dir, faceDirection (clampFace face) = Some dir ∧ dir ∈ faceDirections.
Proof.
  pose proof (clampFace_range face) as Hr.
  assert (clampFace face = 0 ∨ clampFace face = 1 ∨ clampFace face = 2 ∨
          clampFace face = 3 ∨ clampFace face = 4 ∨ clampFace face = 5) as Hcases by lia.
  destruct Hcases as [-> | [-> | [-> | [-> | [-> | ->]]]]];
    (eexists; split; [reflexivity|]; apply list_elem_of_In; simpl; tauto).
Qed.

Lemma blockExistsAt_spec w p : blockExistsAt (loadedChunks w) p = true ↔ occupiedInChunks w p.
Proof.
  unfold blockExistsAt, occupiedInChunks. rewrite bool_decide_eq_true, Exists_exists. split.
  - intros ([k chunk] & Hin & Hex). apply elem_of_map_to_list in Hin.
    apply Exists_exists in Hex as (b & Hb & Hpos). eauto 10.
  - intros (k & chunk & b & Hlook & Hb & Hpos). exists (k, chunk).
    split; [by apply elem_of_map_to_list|]. apply Exists_exists. eauto.
Qed.

Lemma indexed_elem (log : list BlockChange) i c : (i, c) ∈ indexed log ↔ log !! i = Some c.
Proof.
  unfold indexed. rewrite elem_of_lookup_imap. split.
  - by intros (i' & c' & [= -> ->] & Hlook).
  - intros Hlook. eauto.
Qed.

Lemma pendingBlockExistsAt_spec w p :
  pendingBlockExistsAt (changes w) p = true ↔ occupiedByPendingPlace w p.
Proof.
  unfold pendingBlockExistsAt, occupiedByPendingPlace.
  rewrite bool_decide_eq_true, Exists_exists. split.
  - intros ([i c] & Hin & Hact & Hpos & Hno). apply indexed_elem in Hin.
    exists i, c. split_and!; [done..|].
    intros (j & r & Hj & Hr & Hrp & Hlt). apply Hno, Exists_exists.
    exists (j, r). split; [by apply indexed_elem|done].
  - intros (i & c & Hlook & Hact & Hpos & Hno). exists (i, c).
    split; [by apply indexed_elem|]. split_and!; [done..|].
    intros ([j r] & Hin & Hr & Hrp & Hlt)%Exists_exists. apply indexed_elem in Hin.
    apply Hno. eauto 10.
Qed.

Lemma wouldBlockPlayerAt_spec camera p :
  wouldBlockPlayerAt camera p = true ↔ playerCell camera p.
Proof.
  unfold wouldBlockPlayerAt, playerCell. destruct p as [[nx ny] nz]. simpl.
  rewrite orb_true_iff, !andb_true_iff, !bool_decide_eq_true. split.
  - intros [[[-> ->] ->]|[[-> ->] ->]]; auto.
  - intros [[= -> -> ->]|[= -> -> ->]]; auto.
Qed.

(** A click on a block further than 5 units from the camera leaves the
    world as it is. *)
Lemma handleBlockClick_beyond_reach camera block face w :
  distance_gt camera (blockCenter block) 5 = true ->
  handleBlockClick camera block face w = w.
Proof. unfold handleBlockClick, MAX_BREAK_DISTANCE. by intros ->. Qed.

(** What [handleBlockRightClick] does, by its three tests. *)
Lemma handleBlockRightClick_spec selectedBlock camera block face w dx dy dz :
  faceDirection (clampFace face) = Some (dx, dy, dz) ->
  let p := (b_x block + dx, b_y block + dy, b_z block + dz) in
  handleBlockRightClick selectedBlock camera block face w
  = if negb (blockExistsAt (loadedChunks w) p) && negb (pendingBlockExistsAt (changes w) p)
       && negb (wouldBlockPlayerAt camera p)
    then appendChange (mkChange (b_x block + dx) (b_y block + dy) (b_z block + dz)
                         selectedBlock place) w
    else w.
Proof. intros Hdir. unfold handleBlockRightClick. by rewrite Hdir. Qed.
End HandlerFacts.

(** C4 fails on the right-click handler.  In the world mounted over flat
    terrain, with the camera at its start position (0, 20, 0), the grass
    block at (10, 17, 10) is more than 5 units away: the left-click handler
    rejects it, but the right-click handler appends a place at (10, 18, 10)
    to the change log and to the pending queue. *)
Theorem handleBlockRightClick_ignores_reach :
  let camera := mkVector3 0 20 0 in
  let block := mkBlock 10 17 10 grass in
  let w := World.mount flatGenerator [] in
  let w' := World.handleBlockRightClick dirt camera block 2 w in
  distance_gt camera (blockCenter block) 5 = true
  ∧ World.handleBlockClick camera block 2 w = w
  ∧ World.changes w = []
  ∧ World.changes w' = [mkChange 10 18 10 dirt place]
  ∧ World.pendingChanges w' = [mkChange 10 18 10 dirt place].
Proof.
  intros camera block w w'.
  assert (distance_gt camera (blockCenter block) 5 = true) as Hfar by reflexivity.
  split; [exact Hfar|]. split; [by apply handleBlockClick_beyond_reach|].
  split; [reflexivity|]. split; vm_compute; reflexivity.
Qed.

(** C5 fails as stated: no cooldown guards a place request.  The
    right-click handler reads no clock and keeps no time of a previous
    interaction, so a second request that follows the first at once is
    accepted as well.  In the world mounted over flat terrain, with the
    camera at its start position (0, 20, 0), the grass blocks at (1, 17, 0)
    and (2, 17, 0) are both in the world and within reach; two right clicks
    in direct succession on their top faces (each followed by the render
    that runs the change effect) leave two place changes in the change log
    and in the pending queue. *)
Theorem place_requests_need_no_cooldown :
  let camera := mkVector3 0 20 0 in
  let block1 := mkBlock 1 17 0 grass in
  let block2 := mkBlock 2 17 0 grass in
  let w := World.mount flatGenerator [] in
  let w1 := afterClick w (World.handleBlockRightClick dirt camera block1 2 w) in
  let w2 := afterClick w1 (World.handleBlockRightClick dirt camera block2 2 w1) in
  World.changes w = []
  ∧ (World.loadedChunks w !! (0, 1, 0)) ≫= (λ chunk, blockAt (blocks chunk) (1, 17, 0)) = Some grass
  ∧ (World.loadedChunks w1 !! (0, 1, 0)) ≫= (λ chunk, blockAt (blocks chunk) (2, 17, 0)) = Some grass
  ∧ distance_gt camera (blockCenter block1) 5 = false
  ∧ distance_gt camera (blockCenter block2) 5 = false
  ∧ World.changes w1 = [mkChange 1 18 0 dirt place]
  ∧ World.changes w2 = [mkChange 1 18 0 dirt place; mkChange 2 18 0 dirt place]
  ∧ World.pendingChanges w2 = [mkChange 1 18 0 dirt place; mkChange 2 18 0 dirt place].
Proof.
  vm_compute. by repeat split.
Qed.

(** C5: a place request appends a place change exactly under its
    preconditions, none of which is a cooldown.  A place request is a right
    click on an instanced mesh of a chunk.  When the click resolves to a
    target block and face, and the placement coordinate [p] (the target moved
    by the normal of the face number clamped to 0..5) is not occupied by a
    block of a materialized chunk nor by a place of the log without a later
    remove, and is neither the viewpoint's cell nor the cell above it, the
    request appends the place of the selected type at [p] to the change log
    and to the pending queue; when no coordinate meets these conditions the
    world state is unchanged; so the log changes exactly when they are
    met. *)
Theorem mesh_right_click_appends_iff (selectedBlock : BlockType) (camera : Vector3)
    (mesh : bool) (meshBlocks : list Block) (s : Chunk.State) (instanceId faceIndex : option Z)
    (w : World.State) :
  let target := Chunk.clickedBlock mesh meshBlocks s instanceId faceIndex in
  let w' := meshRightClick selectedBlock camera mesh meshBlocks s instanceId faceIndex w in
  (∀ p, placeAccepted camera w target p ->
        World.changes w'
        = World.changes w ++ [mkChange p.1.1 p.1.2 p.2 selectedBlock place]
        ∧ World.pendingChanges w'
          = World.pendingChanges w ++ [mkChange p.1.1 p.1.2 p.2 selectedBlock place])
  ∧ ((¬ ∃ p, placeAccepted camera w target p) -> w' = w)
  ∧ (World.changes w' ≠ World.changes w ↔ ∃ p, placeAccepted camera w target p).
Proof.
  intros target w'.
  assert ((∃ p, placeAccepted camera w target p
                ∧ World.changes w'
                  = World.changes w ++ [mkChange p.1.1 p.1.2 p.2 selectedBlock place]
                ∧ World.pendingChanges w'
                  = World.pendingChanges w ++ [mkChange p.1.1 p.1.2 p.2 selectedBlock place])
          ∨ ((¬ ∃ p, placeAccepted camera w target p) ∧ w' = w)) as Hcases.
  { subst w'. unfold meshRightClick. fold target.
    destruct target as [[block face]|] eqn:Htarget.
    2:{ right. split; [|done]. by intros (p & block & face & Hsome & _). }
    destruct (faceDirection_clampFace face) as ([[dx dy] dz] & Hdir & _).
    rewrite (handleBlockRightClick_spec _ _ _ _ _ dx dy dz Hdir). cbn zeta.
    set (p := (b_x block + dx, b_y block + dy, b_z block + dz)).
    assert (placePosition block face = p) as Hplace.
    { unfold placePosition. by rewrite Hdir. }
    assert (∀ p', placeAccepted camera w (Some (block, face)) p' -> p' = p) as Hp.
    { intros p' (block' & face' & [= <- <-] & -> & _). exact Hplace. }
    destruct (World.blockExistsAt _ p) eqn:Hexists; cbn [negb andb].
    { right. split; [|done]. intros (p' & Hacc). pose proof (Hp p' Hacc) as ->.
      destruct Hacc as (? & ? & _ & _ & Hocc & _). by apply Hocc, blockExistsAt_spec. }
    destruct (World.pendingBlockExistsAt _ p) eqn:Hpending; cbn [negb andb].
    { right. split; [|done]. intros (p' & Hacc). pose proof (Hp p' Hacc) as ->.
      destruct Hacc as (? & ? & _ & _ & _ & Hocc & _). by apply Hocc, pendingBlockExistsAt_spec. }
    destruct (World.wouldBlockPlayerAt camera p) eqn:Hplayer; cbn [negb andb].
    { right. split; [|done]. intros (p' & Hacc). pose proof (Hp p' Hacc) as ->.
      destruct Hacc as (? & ? & _ & _ & _ & _ & Hocc). by apply Hocc, wouldBlockPlayerAt_spec. }
    left. exists p. split; [|done].
    exists block, face. split_and!; [done|done|..].
    - rewrite <- blockExistsAt_spec. congruence.
    - rewrite <- pendingBlockExistsAt_spec. congruence.
    - rewrite <- wouldBlockPlayerAt_spec. congruence. }
  assert (∀ p q, placeAccepted camera w target p -> placeAccepted camera w target q -> p = q)
    as Hunique.
  { intros p q (block & face & Hsome & -> & _) (block' & face' & Hsome' & -> & _).
    rewrite Hsome in Hsome'. by injection Hsome' as <- <-. }
  split_and!.
  - intros p Hacc. destruct Hcases as [(q & Hq & Hlog)|[Hnone _]].
    + by rewrite (Hunique p q Hacc Hq).
    + destruct Hnone. eauto.
  - intros Hnone. destruct Hcases as [(q & Hq & _)|[_ Hsame]]; [|done].
    destruct Hnone. eauto.
  - split.
    + intros Hchanged. destruct Hcases as [(q & Hq & _)|[_ Hsame]]; [eauto|].
      by rewrite Hsame in Hchanged.
    + intros (p & Hacc). destruct Hcases as [(q & Hq & Hlog & _)|[Hnone _]].
      * rewrite Hlog. intros Heq. apply (f_equal length) in Heq.
        rewrite length_app in Heq. cbn in Heq. lia.
      * destruct Hnone. eauto.
Qed.

(** ** Sorting the intersections *)

Section SortFacts.
Implicit Types (i j : Intersection) (l : list Intersection).

Lemma insertByDistance_elem x i l : x ∈ insertByDistance i l ↔ x = i ∨ x ∈ l.
Proof.
  induction l as [|j l IH]; simpl.
  - rewrite list_elem_of_singleton, elem_of_nil. tauto.
  - destruct (Qle_bool _ _); rewrite !elem_of_cons; [rewrite IH|]; tauto.
Qed.

Lemma insertByDistance_sorted i l :
  StronglySorted byDistance l -> StronglySorted byDistance (insertByDistance i l).
Proof.
  induction 1 as [|j l Hsorted IH Hall]; simpl.
  - repeat constructor.
  - destruct (Qle_bool (i_distance j) (i_distance i)) eqn:Hle.
    + constructor; [done|]. apply Forall_forall. intros x [->|Hx]%insertByDistance_elem.
      * by apply Qle_bool_iff.
      * by apply (proj1 (Forall_forall _ _) Hall).
    + assert (byDistance i j) as Hij.
      { unfold byDistance. apply Qlt_le_weak, Qnot_le_lt. rewrite <- Qle_bool_iff. congruence. }
      constructor; [by constructor|]. constructor; [done|].
      eapply Forall_impl; [exact Hall|]. intros x Hx. unfold byDistance in *.
      by apply Qle_trans with (i_distance j).
Qed.

Lemma sortByDistance_snoc l i :
  sortByDistance (l ++ [i]) = insertByDistance i (sortByDistance l).
Proof. unfold sortByDistance. by rewrite foldl_app. Qed.

Lemma sortByDistance_elem x l : x ∈ sortByDistance l ↔ x ∈ l.
Proof.
  induction l as [|i l IH] using rev_ind; [done|].
  rewrite sortByDistance_snoc, insertByDistance_elem, IH, elem_of_app, list_elem_of_singleton.
  tauto.
Qed.

Lemma sortByDistance_sorted l : StronglySorted byDistance (sortByDistance l).
Proof.
  induction l as [|i l IH] using rev_ind; [constructor|].
  rewrite sortByDistance_snoc. by apply insertByDistance_sorted.
Qed.

(** The head of the sorted list is nearest. *)
Lemma sortByDistance_head l i :
  head (sortByDistance l) = Some i -> i ∈ l ∧ ∀ j, j ∈ l -> byDistance i j.
Proof.
  intros Hhead. pose proof (sortByDistance_sorted l) as Hsorted.
  assert (∀ j, j ∈ sortByDistance l ↔ j ∈ l) as Helem by (intros; apply sortByDistance_elem).
  destruct (sortByDistance l) as [|i' rest]; [done|]. injection Hhead as ->.
  split; [apply Helem; left|]. intros j [->|Hj]%Helem%elem_of_cons.
  - unfold byDistance. apply Qle_refl.
  - apply StronglySorted_inv in Hsorted as [_ Hall].
    by apply (proj1 (Forall_forall _ _) Hall).
Qed.

Lemma sortByDistance_head_None l : head (sortByDistance l) = None -> l = [].
Proof.
  intros Hhead. destruct l as [|i l]; [done|]. exfalso.
  assert (i ∈ sortByDistance (i :: l)) as Hin by (apply sortByDistance_elem; left).
  destruct (sortByDistance (i :: l)); [by apply elem_of_nil in Hin|done].
Qed.
End SortFacts.

(** ** Targeting *)

Section TargetingFacts.
Import BlockInteraction.

(** The loop over the sorted intersections stops at the first one that
    carries a block within reach. *)
Lemma firstTarget_Some camera l b f :
  firstTarget camera l = Some (b, f) ->
  ∃ l1 i l2, l = l1 ++ i :: l2
    ∧ extractBlockFromIntersection i = Some b
    ∧ distance_le camera (blockCenter b) MAX_INTERACTION_DISTANCE = true
    ∧ f = clampFace (faceNumOf i)
    ∧ ∀ j bj, j ∈ l1 -> extractBlockFromIntersection j = Some bj ->
        distance_le camera (blockCenter bj) MAX_INTERACTION_DISTANCE = false.
Proof.
  induction l as [|i l IH]; simpl; [done|].
  destruct (extractBlockFromIntersection i) as [bi|] eqn:Hbi.
  - destruct (distance_le camera (blockCenter bi) MAX_INTERACTION_DISTANCE) eqn:Hreach.
    + intros [= -> <-]. exists [], i, l. split_and!; [done..|].
      by intros j bj ?%elem_of_nil.
    + intros (l1 & i' & l2 & -> & Hb & Hr & Hf & Hbefore)%IH.
      exists (i :: l1), i', l2. split_and!; [done..|].
      intros j bj [->|Hj]%elem_of_cons Hbj; [congruence|by eapply Hbefore].
  - intros (l1 & i' & l2 & -> & Hb & Hr & Hf & Hbefore)%IH.
    exists (i :: l1), i', l2. split_and!; [done..|].
    intros j bj [->|Hj]%elem_of_cons Hbj; [congruence|by eapply Hbefore].
Qed.


(** The target of the frame callback, if any, is the candidate nearest by
    ray-hit distance. *)
Lemma frameTarget_Some camera intersects b f :
  frameTarget camera intersects = Some (b, f) ->
  ∃ i, i ∈ intersects ∧ frameCandidate camera i b ∧ f = clampFace (faceNumOf i)
    ∧ ∀ j bj, j ∈ intersects -> frameCandidate camera j bj -> byDistance i j.
Proof.
  unfold frameTarget. intros (l1 & i & l2 & Hl & Hb & Hreach & -> & Hbefore)%firstTarget_Some.
  pose proof (sortByDistance_sorted (filter validIntersection intersects)) as Hsorted.
  assert (∀ j, j ∈ l1 ++ i :: l2 ↔ validIntersection j ∧ j ∈ intersects) as Helem.
  { intros j. rewrite <- Hl, sortByDistance_elem. apply list_elem_of_filter. }
  rewrite Hl in Hsorted. apply StronglySorted_app_1_r, StronglySorted_inv in Hsorted as [_ Hafter].
  destruct (proj1 (Helem i)) as [Hvalid Hin]; [apply elem_of_app; right; left|].
  exists i. split_and!; [done| |done|].
  - split_and!; done.
  - intros j bj Hj (Hjvalid & Hjb & Hjreach).
    pose proof (proj2 (Helem j) (conj Hjvalid Hj)) as Hjl.
    apply elem_of_app in Hjl as [Hj1|Hj2].
    + rewrite (Hbefore j bj Hj1 Hjb) in Hjreach. done.
    + apply elem_of_cons in Hj2 as [ -> |Hj2].
      * unfold byDistance. apply Qle_refl.
      * by apply (proj1 (Forall_forall _ _) Hafter).
Qed.

End TargetingFacts.



(** C10: the face index is clamped before the table lookup.  For every
    integer face index, the clamped index lies in [0, 5] and the lookup in
    the six-entry table yields one of the six unit normals; the right-click
    handler of the world either leaves the world unchanged or places at the
    clicked block offset by that normal; a place interaction either is
    rejected or calls [onPlaceBlock] with the targeted block offset by that
    normal; and the face stored with a target of the frame callback is a
    clamped index, so its placement highlight, when shown, is the targeted
    block offset by the normal of that face. *)
Theorem placement_face_is_clamped (face : Z) :
  0 <= clampFace face <= 5
  ∧ ∃ dx dy dz,
      faceDirection (clampFace face) = Some (dx, dy, dz)
      ∧ (dx, dy, dz) ∈ faceDirections
      ∧ (∀ selectedBlock camera block w,
           let w' := World.handleBlockRightClick selectedBlock camera block face w in
           w' = w
           ∨ w' = World.appendChange
                    (mkChange (b_x block + dx) (b_y block + dy) (b_z block + dz)
                       selectedBlock place) w)
      ∧ (∀ (W : Type) (onBreakBlock : Z -> Z -> Z -> W -> W)
           (onPlaceBlock : Z -> Z -> Z -> Z -> W -> W) pointerLocked now camera block
           lastInteraction lastActionKey lastFailureReason (w : W),
           let r := BlockInteraction.handleInteraction onBreakBlock onPlaceBlock
                      BlockInteraction.place pointerLocked now camera
                      (BlockInteraction.mkState (Some (block, face)) lastInteraction
                         lastActionKey lastFailureReason) w in
           (r.1.1 = false ∧ r.2 = w)
           ∨ (r.1.1 = true
              ∧ r.2 = onPlaceBlock (b_x block + dx) (b_y block + dy) (b_z block + dz)
                        (clampFace face) w))
      ∧ (∀ camera intersects,
           match BlockInteraction.frameTarget camera intersects with
           | Some (block, f) => ∃ i, i ∈ intersects ∧ f = clampFace (BlockInteraction.faceNumOf i)
           | None => True
           end)
      ∧ (∀ camera block,
           let shown := BlockInteraction.framePlacePosition camera (Some (block, clampFace face)) in
           shown = None ∨ shown = Some (b_x block + dx, b_y block + dy, b_z block + dz)).
Proof.
  split; [apply clampFace_range|].
  destruct (faceDirection_clampFace face) as ([[dx dy] dz] & Hdir & Hin).
  exists dx, dy, dz. split_and!; [done|done|..].
  - intros sel camera block w. cbn zeta.
    rewrite (handleBlockRightClick_spec _ _ _ _ _ dx dy dz Hdir). cbn zeta.
    destruct (_ && _); auto.
  - intros W onBreak onPlace locked now camera block li lk lf w. cbn zeta.
    unfold BlockInteraction.handleInteraction. cbn [BlockInteraction.targetedBlock].
    destruct locked; cbn [negb]; [|by left].
    case_bool_decide; [by left|].
    destruct (distance_gt _ _ _); [by left|].
    rewrite Hdir. destruct (_ && _); [by left|by right].
  - intros camera intersects.
    destruct (BlockInteraction.frameTarget camera intersects) as [[block f]|] eqn:Htarget; [|done].
    apply frameTarget_Some in Htarget as (i & Hi & _ & Hf & _). eauto.
  - intros camera block. cbn zeta. unfold BlockInteraction.framePlacePosition.
    rewrite Hdir. destruct (distance_le _ _ _); auto.
Qed.

(** Once a break of a block went through, every later break of the same
    block is turned down, whatever the time. *)
Lemma repeated_break_is_rejected {W : Type} (onBreakBlock : Z -> Z -> Z -> W -> W)
    (onPlaceBlock : Z -> Z -> Z -> Z -> W -> W) (pointerLocked : bool) (now : Z)
    (camera : Vector3) (block : Block) (face lastInteraction : Z)
    (lastFailureReason : option BlockInteraction.FailureReason) (w : W) :
  let s := BlockInteraction.mkState (Some (block, face)) lastInteraction
             (Some (BlockInteraction.getActionKey BlockInteraction.break
                      (b_x block) (b_y block) (b_z block)))
             lastFailureReason in
  let r := BlockInteraction.handleInteraction onBreakBlock onPlaceBlock
             BlockInteraction.break pointerLocked now camera s w in
  r.1.1 = false ∧ r.2 = w.
Proof.
  cbn zeta. unfold BlockInteraction.handleInteraction. cbn [BlockInteraction.targetedBlock].
  destruct pointerLocked; cbn [negb]; [|done].
  case_bool_decide; [done|]. destruct (distance_gt _ _ _); [done|].
  cbn [BlockInteraction.lastActionKey BlockInteraction.lastInteraction].
  rewrite bool_decide_true by done. rewrite bool_decide_true by lia. done.
Qed.

(** C6 fails on the guard's time window.  With the stone block at (1, 1, 1)
    targeted, a break at time 10000 succeeds and calls [onBreakBlock] once.
    A second break of the same block five seconds later passes the cooldown
    and the reach test, and is then rejected by the same-block guard: the
    guard compares [now] with [lastInteraction], which was set to [now] just
    before, so its window never closes. *)
Theorem same_block_guard_never_expires :
  let onBreakBlock := λ (x y z : Z) (calls : list (Z * Z * Z)), calls ++ [(x, y, z)] in
  let onPlaceBlock := λ (x y z face : Z) (calls : list (Z * Z * Z)), calls ++ [(x, y, z)] in
  let camera := mkVector3 0 0 0 in
  let s0 := BlockInteraction.mkState (Some (mkBlock 1 1 1 stone, 2)) 0 None None in
  let r1 := BlockInteraction.handleInteraction onBreakBlock onPlaceBlock
              BlockInteraction.break true 10000 camera s0 [] in
  let r2 := BlockInteraction.handleInteraction onBreakBlock onPlaceBlock
              BlockInteraction.break true 15000 camera r1.1.2 r1.2 in
  r1.1.1 = true ∧ r1.2 = [(1, 1, 1)]
  ∧ r2.1.1 = false ∧ r2.2 = [(1, 1, 1)]
  ∧ BlockInteraction.lastFailureReason r2.1.2 = Some BlockInteraction.SameBlockBrokenTooQuickly.
Proof. split_and!; reflexivity. Qed.

(** ** How many chunks a streaming pass generates *)

Section StreamingPassFacts.
Import World.
Variable gen : Noise.TerrainGenerator.
Variable log : list BlockChange.
Variable currentChunk : Z * Z * Z.

Lemma streamStep_key acc o :
  let r := streamStep gen log currentChunk acc o in
  if outOfRange o then r = acc
  else dom r.1.2 = {[offsetKey currentChunk o]} ∪ dom acc.1.2
       ∧ (size (dom r.1.2) + length acc.2 = size (dom acc.1.2) + length r.2)%nat
       ∧ (length r.2 <= S (length acc.2))%nat.
Proof.
  destruct acc as [[vis loaded] toLoad]. unfold streamStep. cbn zeta.
  destruct (outOfRange o); [done|].
  destruct o as [[x y] z], currentChunk as [[cx cy] cz]. unfold getChunkKey, offsetKey. simpl.
  destruct (loaded !! (cx + x, cy + y, cz + z)) eqn:Hlook; simpl.
  - split_and!; [|done|lia]. apply elem_of_dom_2 in Hlook.
    symmetry. apply subseteq_union_1_L. by apply singleton_subseteq_l.
  - rewrite dom_insert_L, length_app. simpl. split_and!; [done| |lia].
    apply not_elem_of_dom in Hlook.
    rewrite size_union by (by apply disjoint_singleton_l).
    rewrite size_singleton. lia.
Qed.

Lemma streamingFold_spec offsets acc :
  let r := foldl (streamStep gen log currentChunk) acc offsets in
  dom r.1.2
  = list_to_set (offsetKey currentChunk <$> filter (λ o, outOfRange o = false) offsets)
    ∪ dom acc.1.2
  ∧ (size (dom r.1.2) + length acc.2 = size (dom acc.1.2) + length r.2)%nat
  ∧ (length r.2 <= length acc.2 + length (filter (λ o, outOfRange o = false) offsets))%nat.
Proof.
  cbn zeta. induction offsets as [|o offsets IH] using rev_ind.
  - cbn [foldl filter list_filter fmap list_fmap list_to_set length].
    split_and!; [by rewrite (left_id_L ∅ (∪))|done|lia].
  - rewrite foldl_app, filter_app, fmap_app, list_to_set_app_L, length_app. cbn [foldl].
    destruct IH as (Hdom & Hsize & Hlen).
    pose proof (streamStep_key (foldl (streamStep gen log currentChunk) acc offsets) o) as Hstep.
    cbn zeta in Hstep. rewrite filter_cons, filter_nil.
    destruct (outOfRange o) eqn:Hout.
    + rewrite Hstep. rewrite decide_False by done.
      cbn [fmap list_fmap list_to_set length].
      split_and!; [|done|lia]. by rewrite (right_id_L ∅ (∪)).
    + destruct Hstep as (Hdom' & Hsize' & Hlen'). rewrite decide_True by done.
      cbn [fmap list_fmap list_to_set length].
      split_and!; [|lia|lia].
      rewrite Hdom', Hdom, (right_id_L ∅ (∪)).
      rewrite (assoc_L (∪) {[_]}). f_equal. apply (comm_L (∪)).
Qed.

(** A pass of World.tsx loads every chunk of the desired set and generates
    exactly the missing ones, at most 123. *)
Lemma streamingPass_spec loaded :
  let r := streamingPass gen log currentChunk loaded in
  dom r.1.2 = list_to_set (desiredChunks currentChunk) ∪ dom loaded
  ∧ size (dom r.1.2) = (size (dom loaded) + length r.2)%nat
  ∧ (length r.2 <= 123)%nat.
Proof.
  cbn zeta. unfold streamingPass.
  destruct (streamingFold_spec renderOffsets (∅, loaded, [])) as (Hdom & Hsize & Hlen).
  cbn [fst snd length] in Hdom, Hsize, Hlen. split_and!; [done|lia|].
  assert (length (filter (λ o, outOfRange o = false) renderOffsets) = 123%nat) as Hcount
    by (vm_compute; reflexivity).
  lia.
Qed.
End StreamingPassFacts.

Section CappedPassFacts.
Import WorldCapped.
Variable gen : Noise.TerrainGenerator.
Variable playerChunk : Z * Z * Z.

#[local] Arguments tooFar : simpl never.

Lemma cappedStep_invariant loaded0 visited acc o :
  cappedInvariant playerChunk loaded0 visited acc ->
  cappedInvariant playerChunk loaded0 (visited ++ [o]) (cappedStep gen playerChunk acc o).
Proof.
  destruct acc as [[loaded newChunks] n]. unfold cappedInvariant. simpl.
  intros (Hn & Hcap & Hloaded & Hsize & Hdone). unfold cappedStep.
  case_bool_decide as Hfull; simpl.
  { split_and!; [done..|]. intros Hlt. lia. }
  destruct o as [[x y] z] eqn:Ho, playerChunk as [[px py] pz] eqn:Hpc. unfold getChunkKey.
  assert (∀ loaded', loaded ⊆ loaded' ->
            (tooFar (x, y, z) = false -> (px + x, py + y, pz + z) ∈ loaded') ->
            ∀ o', o' ∈ visited ++ [(x, y, z)] -> tooFar o' = false ->
                  offsetKey (px, py, pz) o' ∈ loaded') as Hvisit.
  { intros loaded' Hsub Hnew o' [Ho'| ->%list_elem_of_singleton]%elem_of_app Hfar.
    - apply Hsub, Hdone; [lia|done..].
    - by apply Hnew. }
  case_bool_decide as Hin; simpl.
  { split_and!; [done..|]. intros _. apply Hvisit; [reflexivity|by intros _]. }
  destruct (tooFar (x, y, z)) eqn:Hfar; simpl.
  { split_and!; [done..|]. intros _. apply Hvisit; [reflexivity|done]. }
  rewrite length_app, fmap_app, list_to_set_app_L. simpl.
  split_and!; [lia|unfold MAX_CHUNKS_PER_FRAME in *; lia| | |].
  - rewrite Hloaded, (right_id_L ∅ (∪)).
    rewrite (comm_L (∪) (list_to_set _) {[_]}), (assoc_L (∪)). done.
  - rewrite size_union by (by apply disjoint_singleton_l).
    rewrite size_singleton. lia.
  - intros _. apply Hvisit.
    + apply union_subseteq_r.
    + intros _. apply elem_of_union_l. by apply elem_of_singleton.
Qed.

Lemma cappedFold_invariant loaded0 offsets :
  cappedInvariant playerChunk loaded0 offsets
    (foldl (cappedStep gen playerChunk) (loaded0, [], 0%nat) offsets).
Proof.
  induction offsets as [|o offsets IH] using rev_ind.
  - unfold cappedInvariant. simpl. split_and!; [done|lia|by rewrite (left_id_L ∅ (∪))|lia|].
    by intros _ o ?%elem_of_nil.
  - rewrite foldl_app. cbn [foldl]. by apply cappedStep_invariant.
Qed.

Lemma cappedPass_invariant loaded0 :
  cappedInvariant playerChunk loaded0 loopOffsets (cappedPass gen playerChunk loaded0).
Proof. exact (cappedFold_invariant loaded0 loopOffsets). Qed.
End CappedPassFacts.

(** C8, as stated, fails on the pass of World.tsx.  In the world mounted
    over flat terrain, a frame with the camera at (1000, 20, 0) finds none of
    the 123 chunk coordinates of its desired set loaded; the pass generates
    all 123 in that one pass, more than the cap of three chunks per frame of
    the capped variant, and leaves no coordinate of the desired set for a
    later tick. *)
Lemma streaming_pass_generates_all_at_once :
  let w := World.mount flatGenerator [] in
  let currentChunk := World.getChunkCoords 1000 20 0 in
  let r := World.streamingPass flatGenerator (World.changes w) currentChunk
             (World.loadedChunks w) in
  length r.2 = 123%nat
  ∧ (WorldCapped.MAX_CHUNKS_PER_FRAME < length r.2)%nat
  ∧ Forall (λ k, is_Some (r.1.2 !! k)) (desiredChunks currentChunk).
Proof.
  intros w currentChunk r.
  destruct (streamingPass_spec flatGenerator (World.changes w) currentChunk
              (World.loadedChunks w)) as (Hdom & Hsize & _).
  fold r in Hdom, Hsize.
  assert (length r.2 = 123%nat) as Hlen.
  { rewrite Hdom in Hsize.
    assert (size (dom (World.loadedChunks w)) = 27%nat) as H27 by (vm_compute; reflexivity).
    assert (size (list_to_set (desiredChunks currentChunk) ∪ dom (World.loadedChunks w)
                  : gset (Z * Z * Z)) = 150%nat) as H150 by (vm_compute; reflexivity).
    lia. }
  clearbody r. clearbody currentChunk. clearbody w.
  split; [exact Hlen|]. split; [rewrite Hlen; unfold WorldCapped.MAX_CHUNKS_PER_FRAME; lia|].
  apply Forall_forall. intros k Hk. apply elem_of_dom. rewrite Hdom.
  apply elem_of_union_l, elem_of_list_to_set. exact Hk.
Qed.

(** C8 (amended): what a streaming pass generates.  A pass of the capped
    variant generates at most MAX_CHUNKS_PER_FRAME = 3 chunks; its loaded set
    grows by exactly the coordinates of the generated chunks, so every other
    missing coordinate stays unloaded for a later pass; and a pass that
    generates fewer than three chunks leaves no coordinate of the desired set
    unloaded.  A pass of World.tsx has no cap of its own: it generates every
    missing chunk of the desired set in the same pass, at most 123 (the size
    of the desired set), and defers none. *)
Theorem streaming_pass_generation_bound (gen : Noise.TerrainGenerator) :
  (∀ playerChunk loaded,
     let r := WorldCapped.cappedPass gen playerChunk loaded in
     (length r.1.2 <= WorldCapped.MAX_CHUNKS_PER_FRAME)%nat
     ∧ r.1.1 = list_to_set (position <$> r.1.2) ∪ loaded
     ∧ size r.1.1 = (size loaded + length r.1.2)%nat
     ∧ ((length r.1.2 < WorldCapped.MAX_CHUNKS_PER_FRAME)%nat ->
        Forall (λ k, k ∈ r.1.1) (desiredChunksCapped playerChunk)))
  ∧ (∀ log currentChunk loaded,
       let r := World.streamingPass gen log currentChunk loaded in
       (length r.2 <= 123)%nat
       ∧ size (dom r.1.2) = (size (dom loaded) + length r.2)%nat
       ∧ Forall (λ k, is_Some (r.1.2 !! k)) (desiredChunks currentChunk)).
Proof.
  split.
  - intros playerChunk loaded r. subst r.
    destruct (cappedPass_invariant gen playerChunk loaded) as (Hn & Hcap & Hloaded & Hsize & Hdone).
    rewrite Hn in Hcap, Hsize, Hdone. split_and!; [done..|].
    intros Hlt. apply Forall_forall. intros k Hk.
    unfold desiredChunksCapped in Hk.
    apply list_elem_of_fmap in Hk as (o & -> & Ho). apply list_elem_of_filter in Ho as [Hfar Ho].
    by apply Hdone.
  - intros log currentChunk loaded r. subst r.
    destruct (streamingPass_spec gen log currentChunk loaded) as (Hdom & Hsize & Hlen).
    split_and!; [done..|].
    generalize dependent (World.streamingPass gen log currentChunk loaded). intros r Hdom _ _.
    apply Forall_forall. intros k Hk. apply elem_of_dom. rewrite Hdom.
    apply elem_of_union_l, elem_of_list_to_set. exact Hk.
Qed.

(** ** Falling onto flat terrain *)

Section PlayerFacts.
Import Player.
Variable normalize : Z -> Z -> Q * Q.
Variable controlsMove : Vector3 -> Q -> Q -> Q * Q.
Variable h : Q.

Lemma Qltb_true a b : Qltb a b = true ↔ (a < b)%Q.
Proof.
  unfold Qltb. rewrite negb_true_iff. split.
  - intros Hle. apply Qnot_le_lt. rewrite <- Qle_bool_iff. congruence.
  - intros Hlt. destruct (Qle_bool b a) eqn:Hle; [|done].
    apply Qle_bool_iff in Hle. by apply Qlt_not_le in Hlt.
Qed.

Lemma Qltb_false a b : Qltb a b = false ↔ (b <= a)%Q.
Proof. unfold Qltb. rewrite negb_false_iff. apply Qle_bool_iff. Qed.

Lemma capDelta_pos delta : (0 < delta)%Q -> (0 < capDelta delta)%Q.
Proof. unfold capDelta. destruct (Qltb _ _); [reflexivity|done]. Qed.

(** The vertical part of one frame without a jump request: above the
    ground the velocity takes one step of gravity and the position moves by
    it; otherwise the viewpoint is put on the ground with velocity zero. *)
Lemma lockedFrame_vertical delta s :
  jump s = false ->
  let s' := lockedFrame (flatTerrain h) normalize controlsMove delta s in
  jump s' = false ∧
  if Qltb (h + PLAYER_HEIGHT) (v_y (camera s)) then
    v_y (velocity s') = (v_y (velocity s) - GRAVITY * capDelta delta)%Q
    ∧ v_y (camera s')
      = (v_y (camera s) + (v_y (velocity s) - GRAVITY * capDelta delta))%Q
    ∧ isGrounded s' = false
  else
    v_y (velocity s') = 0%Q
    ∧ v_y (camera s') = (h + PLAYER_HEIGHT + 0)%Q
    ∧ isGrounded s' = true.
Proof.
  intros Hjump. unfold lockedFrame, flatTerrain. rewrite Hjump. cbn [andb from_option id].
  destruct (normalize _ _) as [dirX dirZ].
  destruct (Qltb (h + PLAYER_HEIGHT) (v_y (camera s))); cbn beta iota zeta.
  - destruct (controlsMove _ _ _) as [newX newZ]. by destruct (_ && _).
  - destruct (controlsMove _ _ _) as [newX newZ]. by destruct (_ && _).
Qed.

Lemma run_front deltas n s :
  run (flatTerrain h) normalize controlsMove deltas (S n) s
  = run (flatTerrain h) normalize controlsMove (λ i, deltas (S i)) n
      (lockedFrame (flatTerrain h) normalize controlsMove (deltas 0%nat) s).
Proof. induction n as [|n IH]; [done|]. cbn [run] in *. by rewrite IH. Qed.

(** On the ground without a jump request, a frame keeps the viewpoint at
    rest. *)
Lemma lockedFrame_ground delta s :
  jump s = false ->
  (v_y (camera s) <= h + PLAYER_HEIGHT)%Q ->
  atRest h (lockedFrame (flatTerrain h) normalize controlsMove delta s).
Proof.
  intros Hjump Hy. destruct (lockedFrame_vertical delta s Hjump) as [Hj Hv].
  rewrite (proj2 (Qltb_false _ _) Hy) in Hv. destruct Hv as (_ & Hcam & Hg).
  split_and!; [|done..]. rewrite Hcam. lra.
Qed.

Lemma atRest_stays delta s :
  atRest h s -> atRest h (lockedFrame (flatTerrain h) normalize controlsMove delta s).
Proof. intros (Hy & _ & Hjump). apply lockedFrame_ground; [done|]. lra. Qed.

(** A viewpoint that falls by at least [c] per frame and is at most [k]
    such steps above the ground comes to rest. *)
Lemma falling_lands (c : Q) (k : nat) :
  (0 < c)%Q ->
  ∀ deltas s,
    (∀ n, 0 < deltas n)%Q ->
    jump s = false ->
    (v_y (velocity s) <= - c)%Q ->
    (v_y (camera s) <= h + PLAYER_HEIGHT + inject_Z (Z.of_nat k) * c)%Q ->
    ∃ n, atRest h (run (flatTerrain h) normalize controlsMove deltas n s).
Proof.
  intros Hc. induction k as [|k IH]; intros deltas s Hpos Hjump Hvel Hy.
  - exists 1%nat. cbn [run]. apply lockedFrame_ground; [done|].
    change (inject_Z (Z.of_nat 0)) with 0%Q in Hy. lra.
  - destruct (Qltb (h + PLAYER_HEIGHT) (v_y (camera s))) eqn:Hair.
    + destruct (lockedFrame_vertical (deltas 0%nat) s Hjump) as [Hj Hv].
      rewrite Hair in Hv. destruct Hv as (Hv' & Hy' & _).
      pose proof (capDelta_pos _ (Hpos 0%nat)) as Hcap.
      assert (inject_Z (Z.of_nat (S k)) * c == inject_Z (Z.of_nat k) * c + c)%Q as Hk.
      { rewrite Nat2Z.inj_succ. unfold Z.succ. rewrite inject_Z_plus. ring. }
      destruct (IH (λ i, deltas (S i))
                  (lockedFrame (flatTerrain h) normalize controlsMove (deltas 0%nat) s))
        as [n Hn].
      * intros n. apply Hpos.
      * done.
      * rewrite Hv'. unfold GRAVITY. lra.
      * rewrite Hy'. unfold GRAVITY. lra.
      * exists (S n). by rewrite run_front.
    + exists 1%nat. cbn [run]. apply lockedFrame_ground; [done|]. by apply Qltb_false.
Qed.

Lemma steps_above (x c : Q) :
  (0 < c)%Q -> ∃ k : nat, (x <= inject_Z (Z.of_nat k) * c)%Q.
Proof.
  intros Hc. exists (Z.to_nat (Qceiling (x / c))).
  assert (x / c <= inject_Z (Z.of_nat (Z.to_nat (Qceiling (x / c)))))%Q as Hle.
  { eapply Qle_trans; [apply Qle_ceiling|]. rewrite <- Zle_Qle. lia. }
  apply (Qmult_le_compat_r _ _ c) in Hle; [|lra].
  assert (x / c * c == x)%Q as Hx by (field; lra).
  lra.
Qed.
End PlayerFacts.

(** C9, as stated, fails once the viewpoint jumps.  Over terrain of height
    10, a viewpoint released at y = 15 is at rest on y = 11.8 after five
    frames of 1/60 s.  A press of Space and two more frames later, over the
    same terrain, it is below 11.8: the frame that ends the jump moves it
    through the ground, and only the next frame would put it back. *)
Lemma jump_after_landing_dips_below_ground :
  let normalize := λ (_ _ : Z), (0%Q, 0%Q) in
  let controlsMove := λ (c : Vector3) (_ _ : Q), (v_x c, v_z c) in
  let frames := Player.run (flatTerrain 10) normalize controlsMove (λ _, 1 # 60) in
  let s0 :=
    Player.mkState (mkVector3 0 15 0) (mkVector3 0 0 0) false false false false false false in
  let s5 := frames 5%nat s0 in
  let s7 := frames 2%nat (Player.keyDownSpace s5) in
  (v_y (Player.camera s5) == 10 + Player.PLAYER_HEIGHT)%Q
  ∧ Player.isGrounded s5 = true
  ∧ (v_y (Player.camera s7) < 10 + Player.PLAYER_HEIGHT)%Q.
Proof. split_and!; vm_compute; reflexivity. Qed.

(** C9 (amended): a falling viewpoint comes to rest on the terrain.  Over
    terrain of constant height h, with the pointer locked, positive frame
    deltas and no jump requested, a viewpoint above h + 1.8 that is not
    moving upwards reaches, after finitely many frames, position.y equal to
    h + 1.8 with grounded set to true; from that frame on, as long as no
    jump is requested, every frame leaves position.y equal to h + 1.8, so it
    never goes below it. *)
Theorem descent_comes_to_rest (normalize : Z -> Z -> Q * Q)
    (controlsMove : Vector3 -> Q -> Q -> Q * Q) (h : Q) (deltas : nat -> Q)
    (s0 : Player.State) :
  (∀ n, 0 < deltas n)%Q ->
  (h + Player.PLAYER_HEIGHT < v_y (Player.camera s0))%Q ->
  (v_y (Player.velocity s0) <= 0)%Q ->
  Player.jump s0 = false ->
  ∃ n, ∀ m, (n <= m)%nat ->
    atRest h (Player.run (flatTerrain h) normalize controlsMove deltas m s0).
Proof.
  intros Hpos Hair Hvel Hjump.
  pose proof (capDelta_pos _ (Hpos 0%nat)) as Hcap.
  set (c := (Player.GRAVITY * Player.capDelta (deltas 0%nat))%Q).
  assert (0 < c)%Q as Hc by (subst c; unfold Player.GRAVITY; lra).
  destruct (steps_above (v_y (Player.camera s0) - (h + Player.PLAYER_HEIGHT)) c Hc) as [k Hk].
  destruct (lockedFrame_vertical normalize controlsMove h (deltas 0%nat) s0 Hjump) as [Hj Hv].
  rewrite (proj2 (Qltb_true _ _) Hair) in Hv. destruct Hv as (Hv' & Hy' & _).
  destruct (falling_lands normalize controlsMove h c k Hc (λ i, deltas (S i))
              (Player.lockedFrame (flatTerrain h) normalize controlsMove (deltas 0%nat) s0))
    as [n Hn].
  - intros i. apply Hpos.
  - done.
  - rewrite Hv'. fold c. lra.
  - rewrite Hy'. fold c. lra.
  - rewrite <- run_front in Hn. exists (S n). intros m Hm.
    induction Hm as [|m Hm IH]; [done|]. cbn [Player.run]. by apply atRest_stays.
Qed.

Lemma descent_comes_to_rest_witness :
  let normalize := λ (_ _ : Z), (0%Q, 0%Q) in
  let controlsMove := λ (c : Vector3) (_ _ : Q), (v_x c, v_z c) in
  let s0 :=
    Player.mkState (mkVector3 0 15 0) (mkVector3 0 0 0) false false false false false false in
  (∀ n : nat, 0 < 1 # 60)%Q
  ∧ (10 + Player.PLAYER_HEIGHT < v_y (Player.camera s0))%Q
  ∧ (v_y (Player.velocity s0) <= 0)%Q
  ∧ Player.jump s0 = false
  ∧ ∃ n, ∀ m, (n <= m)%nat ->
      atRest 10 (Player.run (flatTerrain 10) normalize controlsMove (λ _, 1 # 60) m s0).
Proof.
  intros normalize controlsMove s0.
  assert (∀ n : nat, 0 < 1 # 60)%Q as H1 by (intros n; reflexivity).
  assert (10 + Player.PLAYER_HEIGHT < v_y (Player.camera s0))%Q as H2 by reflexivity.
  assert (v_y (Player.velocity s0) <= 0)%Q as H3 by (vm_compute; discriminate).
  assert (Player.jump s0 = false) as H4 by reflexivity.
  split; [exact H1|]. split; [exact H2|]. split; [exact H3|]. split; [exact H4|].
  exact (descent_comes_to_rest normalize controlsMove 10 (λ _, 1 # 60) s0 H1 H2 H3 H4).
Defined.

(** ** The log test of a right click *)

Section PendingPlaceFacts.
Import World.

Lemma pendingBlockExistsAt_log log p :
  pendingBlockExistsAt log p = true ↔
  ∃ i c, log !! i = Some c ∧ c_action c = place ∧ change_pos c = p ∧
    ¬ ∃ j r, log !! j = Some r ∧ c_action r = remove ∧ change_pos r = p ∧ (i < j)%nat.
Proof.
  exact (pendingBlockExistsAt_spec (mkState [] log [] None false ∅ ∅ 0 (0, 0, 0)) p).
Qed.

Lemma lastChangeAt_snoc log c p :
  lastChangeAt (log ++ [c]) p
  = if decide (change_pos c = p) then Some c else lastChangeAt log p.
Proof.
  unfold lastChangeAt. rewrite filter_app.
  cbn [filter list_filter]. destruct (decide (change_pos c = p)).
  - by rewrite last_snoc.
  - by rewrite app_nil_r.
Qed.

Lemma lastChangeAt_Some log p c :
  lastChangeAt log p = Some c ->
  ∃ i, log !! i = Some c ∧ change_pos c = p
    ∧ ∀ j r, log !! j = Some r -> change_pos r = p -> (j <= i)%nat.
Proof.
  revert c. induction log as [|d log IH] using rev_ind; intros c.
  - done.
  - rewrite lastChangeAt_snoc. destruct (decide (change_pos d = p)) as [Hd|Hd].
    + intros [= <-]. exists (length log). split_and!; [|done|].
      * by rewrite lookup_app_r, Nat.sub_diag.
      * intros j r Hj _. apply lookup_lt_Some in Hj. rewrite length_app in Hj. simpl in Hj. lia.
    + intros Hlast. destruct (IH c Hlast) as (i & Hi & Hp & Hmax).
      exists i. split_and!; [|done|].
      * by apply lookup_app_l_Some.
      * intros j r Hj Hr. apply lookup_app_Some in Hj as [Hj|[Hlen Hj]]; [by eapply Hmax|].
        apply list_lookup_singleton_Some in Hj as [_ <-]. done.
Qed.

Lemma lastChangeAt_None log p :
  lastChangeAt log p = None -> ∀ i c, log !! i = Some c -> change_pos c ≠ p.
Proof.
  unfold lastChangeAt. intros Hlast i c Hi Hc.
  apply last_None in Hlast.
  assert (c ∈ filter (λ c, change_pos c = p) log) as Hin.
  { apply list_elem_of_filter. split; [done|]. by eapply list_elem_of_lookup_2. }
  rewrite Hlast in Hin. by apply not_elem_of_nil in Hin.
Qed.

Lemma pendingBlockExistsAt_lastChangeAt log p :
  pendingBlockExistsAt log p = true ↔ c_action <$> lastChangeAt log p = Some place.
Proof.
  rewrite pendingBlockExistsAt_log. split.
  - intros (i & c & Hi & Hplace & Hp & Hno).
    destruct (lastChangeAt log p) as [d|] eqn:Hlast.
    + destruct (lastChangeAt_Some _ _ _ Hlast) as (j & Hj & Hdp & Hmax). simpl.
      destruct (c_action d) eqn:Hact; [done|]. exfalso. apply Hno.
      exists j, d. split_and!; [done..|].
      pose proof (Hmax i c Hi Hp) as Hle.
      destruct (decide (i = j)) as [->|]; [|lia].
      rewrite Hi in Hj. injection Hj as ->. congruence.
    + exfalso. by eapply lastChangeAt_None.
  - destruct (lastChangeAt log p) as [d|] eqn:Hlast; [|done]. simpl. intros [= Hplace].
    destruct (lastChangeAt_Some _ _ _ Hlast) as (j & Hj & Hdp & Hmax).
    exists j, d. split_and!; [done..|]. intros (k & r & Hk & _ & Hr & Hlt).
    pose proof (Hmax k r Hk Hr). lia.
Qed.
End PendingPlaceFacts.

(** X1: the log test of [handleBlockRightClick] ([pendingBlockExists]: a place
    at the coordinate with no later remove, found with nested [some] and
    [indexOf]) is true exactly when the last change of the log at that
    coordinate is a place. *)
Theorem pending_place_test_is_last_change (log : list BlockChange) (p : Z * Z * Z) :
  World.pendingBlockExistsAt log p
  = bool_decide (c_action <$> lastChangeAt log p = Some place).
Proof.
  destruct (World.pendingBlockExistsAt log p) eqn:Htest; symmetry.
  - apply bool_decide_eq_true. by apply pendingBlockExistsAt_lastChangeAt.
  - apply bool_decide_eq_false. intros Hlast.
    apply pendingBlockExistsAt_lastChangeAt in Hlast. congruence.
Qed.

(** ** The chunk store only grows, and holds every visible chunk *)

Section StoreGrowth.
Import Noise World.

Lemma effectStep_dom gen acc entry :
  dom acc.1.1 ⊆ dom (effectStep gen acc entry).1.1
  ∧ (acc.1.2 ⊆ dom acc.1.1 ->
     (effectStep gen acc entry).1.2 ⊆ dom (effectStep gen acc entry).1.1).
Proof.
  destruct acc as [[loaded visible] need], entry as [k g]. unfold effectStep.
  destruct (loaded !! k) eqn:Hk; cbn [fst snd].
  - rewrite dom_insert_L. split; [set_solver|]. set_solver.
  - destruct (bool_decide (k ∈ visible)); [|done].
    destruct gen as [generator|]; [|done]. destruct k as [[x y] z]. cbn [fst snd].
    rewrite dom_insert_L. split; [apply union_subseteq_r|].
    intros Hsub. by apply union_mono_l.
Qed.

Lemma effectFold_dom gen groups acc :
  dom acc.1.1 ⊆ dom (foldl (effectStep gen) acc groups).1.1
  ∧ (acc.1.2 ⊆ dom acc.1.1 ->
     (foldl (effectStep gen) acc groups).1.2 ⊆ dom (foldl (effectStep gen) acc groups).1.1).
Proof.
  revert acc. induction groups as [|e groups IH]; intros acc; [done|].
  cbn [foldl]. destruct (effectStep_dom gen acc e) as [H1 H2].
  destruct (IH (effectStep gen acc e)) as [H3 H4]. split; [by etrans|]. auto.
Qed.

Lemma changesEffect_dom w :
  dom (loadedChunks w) ⊆ dom (loadedChunks (changesEffect w))
  ∧ (visibleChunks w ⊆ dom (loadedChunks w) ->
     visibleChunks (changesEffect w) ⊆ dom (loadedChunks (changesEffect w))).
Proof.
  unfold changesEffect.
  destruct (bool_decide (length (changes w) = 0%nat) || negb (isInitialChunksLoaded w));
    [done|].
  pose proof (effectFold_dom (terrainGenerator w) (groupByChunk (changes w))
                (loadedChunks w, visibleChunks w, [])) as Hfold.
  destruct (foldl _ _ _) as [[loaded visible] need]. exact Hfold.
Qed.

Lemma afterClick_dom w w' :
  loadedChunks w' = loadedChunks w ->
  visibleChunks w' = visibleChunks w ->
  dom (loadedChunks w) ⊆ dom (loadedChunks (afterClick w w'))
  ∧ (visibleChunks w ⊆ dom (loadedChunks w) ->
     visibleChunks (afterClick w w') ⊆ dom (loadedChunks (afterClick w w'))).
Proof.
  intros Hl Hv. unfold afterClick. destruct (bool_decide _).
  - by rewrite Hl, Hv.
  - rewrite <- Hl, <- Hv. apply changesEffect_dom.
Qed.

Lemma handleBlockClick_store camera block face w :
  loadedChunks (handleBlockClick camera block face w) = loadedChunks w
  ∧ visibleChunks (handleBlockClick camera block face w) = visibleChunks w.
Proof. by destruct (handleBlockClick_cases camera block face w) as [->| ->]. Qed.

Lemma handleBlockRightClick_store selectedBlock camera block face w :
  loadedChunks (handleBlockRightClick selectedBlock camera block face w) = loadedChunks w
  ∧ visibleChunks (handleBlockRightClick selectedBlock camera block face w) = visibleChunks w.
Proof.
  by destruct (handleBlockRightClick_cases selectedBlock camera block face w)
    as [->|(x & y & z & ->)].
Qed.

(** The visible set of a pass is the desired set; the chunks it generates
    were not in the store. *)
Lemma streamStep_visible (gen : TerrainGenerator) (log : list BlockChange)
    (currentChunk : Z * Z * Z) (loaded0 : gmap (Z * Z * Z) ChunkData)
    (acc : gset (Z * Z * Z) * gmap (Z * Z * Z) ChunkData * list ChunkData) (o : Z * Z * Z) :
  let r := streamStep gen log currentChunk acc o in
  r.1.1 = (if outOfRange o then ∅ else {[offsetKey currentChunk o]}) ∪ acc.1.1
  ∧ (dom loaded0 ⊆ dom acc.1.2 -> dom loaded0 ⊆ dom r.1.2)
  ∧ (dom loaded0 ⊆ dom acc.1.2 ->
     Forall (λ c, chunkKeyOf c ∉ dom loaded0) acc.2 ->
     Forall (λ c, chunkKeyOf c ∉ dom loaded0) r.2).
Proof.
  destruct acc as [[vis loaded] toLoad]. unfold streamStep. cbn zeta.
  destruct (outOfRange o).
  { cbn [fst snd]. split_and!; [by rewrite (left_id_L ∅ (∪))|done..]. }
  destruct o as [[x y] z], currentChunk as [[cx cy] cz]. unfold getChunkKey, offsetKey.
  cbn [fst snd].
  destruct (loaded !! (cx + x, cy + y, cz + z)) eqn:Hlook; cbn [fst snd].
  - done.
  - split_and!; [done| |].
    + rewrite dom_insert_L. set_solver.
    + intros Hsub Hall. apply Forall_app. split; [done|]. apply Forall_singleton.
      unfold chunkKeyOf. rewrite applyChangesToChunk_position, generateChunk_position.
      unfold getChunkKey. apply not_elem_of_dom in Hlook. set_solver.
Qed.

Lemma streamingFold_visible (gen : TerrainGenerator) (log : list BlockChange)
    (currentChunk : Z * Z * Z) (loaded0 : gmap (Z * Z * Z) ChunkData)
    (offsets : list (Z * Z * Z))
    (acc : gset (Z * Z * Z) * gmap (Z * Z * Z) ChunkData * list ChunkData) :
  let r := foldl (streamStep gen log currentChunk) acc offsets in
  r.1.1
  = list_to_set (offsetKey currentChunk <$> filter (λ o, outOfRange o = false) offsets)
    ∪ acc.1.1
  ∧ (dom loaded0 ⊆ dom acc.1.2 -> dom loaded0 ⊆ dom r.1.2)
  ∧ (dom loaded0 ⊆ dom acc.1.2 ->
     Forall (λ c, chunkKeyOf c ∉ dom loaded0) acc.2 ->
     Forall (λ c, chunkKeyOf c ∉ dom loaded0) r.2).
Proof.
  cbn zeta. revert acc. induction offsets as [|o offsets IH]; intros acc.
  - cbn [foldl filter list_filter fmap list_fmap list_to_set].
    split_and!; [by rewrite (left_id_L ∅ (∪))|done..].
  - cbn [foldl]. destruct (streamStep_visible gen log currentChunk loaded0 acc o)
      as (Hv & Hd & Hn).
    destruct (IH (streamStep gen log currentChunk acc o)) as (Hv' & Hd' & Hn').
    split_and!; [|auto..].
    rewrite Hv', Hv. rewrite filter_cons.
    destruct (outOfRange o); destruct (decide _) as [Heq|Hne]; try done.
    + by rewrite (left_id_L ∅ (∪)).
    + rewrite fmap_cons, list_to_set_cons, (assoc_L (∪)).
      by rewrite (comm_L (∪) (list_to_set _) {[_]}).
Qed.

Lemma streamingPass_visible gen log currentChunk loaded :
  let r := streamingPass gen log currentChunk loaded in
  r.1.1 = list_to_set (desiredChunks currentChunk)
  ∧ dom loaded ⊆ dom r.1.2
  ∧ list_to_set (desiredChunks currentChunk) ⊆ dom r.1.2
  ∧ Forall (λ c, chunkKeyOf c ∉ dom loaded) r.2.
Proof.
  cbn zeta. destruct (streamingPass_spec gen log currentChunk loaded) as (Hdom & _).
  revert Hdom. unfold streamingPass, desiredChunks. generalize renderOffsets.
  intros offsets Hdom.
  destruct (streamingFold_visible gen log currentChunk loaded offsets (∅, loaded, []))
    as (Hv & Hd & Hn).
  cbn [fst snd] in Hv, Hd, Hn. split_and!.
  - rewrite Hv. apply (right_id_L ∅ (∪)).
  - apply Hd. reflexivity.
  - rewrite Hdom. apply union_subseteq_l.
  - apply Hn; [reflexivity|]. apply Forall_nil_2.
Qed.

Lemma streamingFrame_dom now camera w :
  dom (loadedChunks w) ⊆ dom (loadedChunks (streamingFrame now camera w))
  ∧ (visibleChunks w ⊆ dom (loadedChunks w) ->
     visibleChunks (streamingFrame now camera w)
     ⊆ dom (loadedChunks (streamingFrame now camera w))).
Proof.
  unfold streamingFrame. destruct (terrainGenerator w) as [generator|]; [|done].
  destruct (negb (isInitialChunksLoaded w)); [done|].
  destruct (negb (Qle_bool 250 (now - lastFrameTime w))); [done|].
  cbn [changes loadedChunks visibleChunks playerChunkRef chunks pendingChanges
       terrainGenerator isInitialChunksLoaded lastFrameTime].
  destruct (bool_decide _); [done|].
  pose proof (streamingPass_visible generator (changes w)
                (getChunkCoords (v_x camera) (v_y camera) (v_z camera)) (loadedChunks w))
    as (Hv & Hd & Hdes & _).
  destruct (streamingPass _ _ _ _) as [[vis loaded] toLoad].
  cbn [fst snd] in *. cbn [loadedChunks visibleChunks]. split; [done|].
  intros _. by rewrite Hv.
Qed.

Lemma generateInitialStep_visible gen log acc k :
  acc.2 ⊆ dom acc.1.2 ->
  (generateInitialStep gen log acc k).2 ⊆ dom (generateInitialStep gen log acc k).1.2.
Proof.
  destruct acc as [[initial loaded] visible], k as [[x y] z]. unfold generateInitialStep.
  cbn [fst snd]. unfold getChunkKey. destruct (loaded !! (x, y, z)); [done|].
  cbn [fst snd]. rewrite dom_insert_L. by apply union_mono_l.
Qed.

Lemma generateInitialFold_visible gen log coords acc :
  acc.2 ⊆ dom acc.1.2 ->
  (foldl (generateInitialStep gen log) acc coords).2
  ⊆ dom (foldl (generateInitialStep gen log) acc coords).1.2.
Proof.
  revert acc. induction coords as [|k coords IH]; intros acc Hacc; [done|].
  cbn [foldl]. apply IH. by apply generateInitialStep_visible.
Qed.

Lemma mount_visible gen initialChanges :
  visibleChunks (mount gen initialChanges) ⊆ dom (loadedChunks (mount gen initialChanges)).
Proof.
  unfold mount. apply changesEffect_dom.
  unfold generateInitialChunks, initialState.
  cbn [isInitialChunksLoaded changes loadedChunks visibleChunks chunks pendingChanges
       terrainGenerator lastFrameTime playerChunkRef].
  pose proof (generateInitialFold_visible gen initialChanges initialCoords
                (([] : list ChunkData), ∅, ∅)) as Hfold.
  destruct (foldl _ _ _) as [[initial loaded] visible]. cbn [fst snd] in Hfold.
  destruct (bool_decide _); cbn [loadedChunks visibleChunks]; apply Hfold; set_solver.
Qed.

Lemma reachable_visible gen initialChanges w :
  reachable gen initialChanges w -> visibleChunks w ⊆ dom (loadedChunks w).
Proof.
  induction 1 as [|w camera block face _ IH|w selectedBlock camera block face _ IH
                  |w now camera _ IH].
  - apply mount_visible.
  - destruct (handleBlockClick_store camera block face w) as [Hl Hv].
    by apply (afterClick_dom w _ Hl Hv).
  - destruct (handleBlockRightClick_store selectedBlock camera block face w) as [Hl Hv].
    by apply (afterClick_dom w _ Hl Hv).
  - by apply streamingFrame_dom.
Qed.
End StoreGrowth.

(** X2: no step of the world component evicts a chunk from the in-memory
    store [loadedChunks]: a left click, a right click (each followed by the
    change effect when it appended a change) and a streaming frame keep every
    key of the store. *)
Theorem store_never_evicts (w : World.State) :
  (∀ camera block face,
     dom (World.loadedChunks w)
     ⊆ dom (World.loadedChunks (afterClick w (World.handleBlockClick camera block face w))))
  ∧ (∀ selectedBlock camera block face,
       dom (World.loadedChunks w)
       ⊆ dom (World.loadedChunks
                (afterClick w (World.handleBlockRightClick selectedBlock camera block face w))))
  ∧ (∀ now camera,
       dom (World.loadedChunks w) ⊆ dom (World.loadedChunks (World.streamingFrame now camera w))).
Proof.
  split_and!.
  - intros camera block face.
    destruct (handleBlockClick_store camera block face w) as [Hl Hv].
    by apply (afterClick_dom w _ Hl Hv).
  - intros selectedBlock camera block face.
    destruct (handleBlockRightClick_store selectedBlock camera block face w) as [Hl Hv].
    by apply (afterClick_dom w _ Hl Hv).
  - intros now camera. apply streamingFrame_dom.
Qed.

(** X3: in every state the mounted component reaches, each chunk key of the
    visible set is a key of the store. *)
Theorem visible_chunks_are_loaded (gen : Noise.TerrainGenerator)
    (initialChanges : list BlockChange) (w : World.State) :
  reachable gen initialChanges w ->
  World.visibleChunks w ⊆ dom (World.loadedChunks w).
Proof. apply reachable_visible. Qed.

Lemma visible_chunks_are_loaded_witness :
  let w := World.streamingFrame 1000 (mkVector3 1000 20 0) (World.mount flatGenerator []) in
  reachable flatGenerator [] w
  ∧ World.visibleChunks w ⊆ dom (World.loadedChunks w).
Proof.
  cbn zeta.
  assert (reachable flatGenerator []
            (World.streamingFrame 1000 (mkVector3 1000 20 0) (World.mount flatGenerator [])))
    as Hreach by (apply reach_frame, reach_mount).
  split; [exact Hreach|]. exact (visible_chunks_are_loaded flatGenerator [] _ Hreach).
Defined.

(** ** The render list shows the store *)

Section RenderFacts.
Import Noise World.

Lemma chunkKeyOf_position c : chunkKeyOf c = position c.
Proof. unfold chunkKeyOf, getChunkKey. by destruct (position c) as [[x y] z]. Qed.

Lemma storeConsistent_keyed gen log loaded : storeConsistent gen log loaded -> storeKeyed loaded.
Proof. intros Hstore k c Hc. rewrite chunkKeyOf_position. by destruct (Hstore k c Hc). Qed.


Lemma NoDup_keys_snoc (l : list ChunkData) c k :
  NoDup (chunkKeyOf <$> l) -> chunkKeyOf c = k -> k ∉ chunkKeyOf <$> l ->
  NoDup (chunkKeyOf <$> l ++ [c]).
Proof.
  intros Hnodup Hkey Hfresh. rewrite fmap_app. apply NoDup_app.
  split_and!; [done| |apply NoDup_singleton].
  intros k' Hk' Hin. cbn [fmap list_fmap] in Hin. apply list_elem_of_singleton in Hin.
  rewrite Hkey in Hin. by subst k'.
Qed.

(** *** Initial chunks *)

Lemma generateInitialStep_inv gen log acc k :
  initialInv acc -> initialInv (generateInitialStep gen log acc k).
Proof.
  destruct acc as [[initial loaded] visible], k as [[x y] z].
  unfold generateInitialStep, initialInv, getChunkKey. cbn [fst snd].
  destruct (loaded !! (x, y, z)) eqn:Hk; [done|]. cbn [fst snd].
  intros [Hnodup Hall].
  assert (chunkKeyOf (generateChunk gen x y z CHUNK_SIZE) = (x, y, z)) as Hkey
    by (by rewrite chunkKeyOf_position, generateChunk_position).
  assert ((x, y, z) ∉ chunkKeyOf <$> initial) as Hfresh.
  { intros Hin. apply list_elem_of_fmap in Hin as (c & Hc & Hin).
    destruct (Hall c Hin) as [Hlook _]. rewrite <- Hc in Hlook. congruence. }
  split.
  - by apply (NoDup_keys_snoc _ _ (x, y, z)).
  - intros c Hc. apply elem_of_app in Hc as [Hc|Hc].
    + destruct (Hall c Hc) as [Hlook Hvis]. split.
      * rewrite lookup_insert_ne; [done|]. intros Heq. apply Hfresh. rewrite Heq.
        apply list_elem_of_fmap. by exists c.
      * by apply elem_of_union_r.
    + apply list_elem_of_singleton in Hc as ->. rewrite Hkey. split.
      * by rewrite lookup_insert_eq.
      * apply elem_of_union_l. by apply elem_of_singleton.
Qed.

Lemma generateInitialFold_inv gen log coords acc :
  initialInv acc -> initialInv (foldl (generateInitialStep gen log) acc coords).
Proof.
  revert acc. induction coords as [|k coords IH]; intros acc Hacc; [done|].
  cbn [foldl]. by apply IH, generateInitialStep_inv.
Qed.

Lemma generateInitialChunks_render gen w :
  chunks w = [] -> renderInvariant (generateInitialChunks gen w).
Proof.
  intros Hchunks. unfold generateInitialChunks.
  destruct (isInitialChunksLoaded w).
  { split; rewrite Hchunks; [apply NoDup_nil_2|]. intros c Hc. by apply not_elem_of_nil in Hc. }
  pose proof (generateInitialFold_inv gen (changes w) initialCoords
                (([] : list ChunkData), loadedChunks w, visibleChunks w)) as Hfold.
  destruct (foldl _ _ _) as [[initial loaded] visible].
  cbn [changes loadedChunks visibleChunks chunks pendingChanges terrainGenerator
       isInitialChunksLoaded lastFrameTime playerChunkRef].
  destruct (bool_decide _).
  - apply Hfold. split; [apply NoDup_nil_2|]. intros c Hc. by apply not_elem_of_nil in Hc.
  - split; cbn [chunks]; rewrite Hchunks; [apply NoDup_nil_2|].
    intros c Hc. by apply not_elem_of_nil in Hc.
Qed.

(** *** The change effect *)

Lemma storeKeyed_insert loaded k c :
  storeKeyed loaded -> chunkKeyOf c = k -> storeKeyed (<[k := c]> loaded).
Proof.
  intros Hkeyed Hk k' c' Hlook. apply lookup_insert_Some in Hlook as [[<- <-]|[_ Hlook]]; [done|].
  by apply Hkeyed.
Qed.

Lemma effectStep_inv gen chunks0 visible0 processed acc k g :
  (∀ c, c ∈ chunks0 -> chunkKeyOf c ∈ visible0) ->
  k ∉ processed ->
  effectInv chunks0 visible0 processed acc ->
  effectInv chunks0 visible0 (processed ++ [k]) (effectStep gen acc (k, g)).
Proof.
  intros Hrendered Hfresh. destruct acc as [[loaded visible] need].
  unfold effectInv, effectStep. cbn [fst snd].
  intros (Hkeyed & Hvis & Hnodup & Hneed & Hkept).
  assert (k ∉ chunkKeyOf <$> need) as Hnew.
  { intros Hin. apply list_elem_of_fmap in Hin as (c & -> & Hin).
    by destruct (Hneed c Hin) as (_ & _ & ?). }
  assert (∀ updated, chunkKeyOf updated = k ->
            NoDup (chunkKeyOf <$> need ++ [updated])) as Hnodup'.
  { intros updated Hkey. by apply (NoDup_keys_snoc _ _ k). }
  assert (∀ updated vis', chunkKeyOf updated = k -> visible ⊆ vis' -> k ∈ vis' ->
            ∀ c, c ∈ need ++ [updated] ->
              <[k := updated]> loaded !! chunkKeyOf c = Some c ∧ chunkKeyOf c ∈ vis'
              ∧ chunkKeyOf c ∈ processed ++ [k]) as Hneed'.
  { intros updated vis' Hkey Hsub Hk c Hc. apply elem_of_app in Hc as [Hc|Hc].
    - destruct (Hneed c Hc) as (Hlook & Hv & Hp). split_and!.
      + rewrite lookup_insert_ne; [done|]. intros Heq. apply Hnew. rewrite Heq.
        apply list_elem_of_fmap. by exists c.
      + by apply Hsub.
      + apply elem_of_app. by left.
    - apply list_elem_of_singleton in Hc as ->. rewrite Hkey. split_and!.
      + by rewrite lookup_insert_eq.
      + done.
      + apply elem_of_app. right. by apply list_elem_of_singleton. }
  assert (∀ updated, chunkKeyOf updated = k ->
            ∀ c, c ∈ chunks0 -> chunkKeyOf c ∉ chunkKeyOf <$> need ++ [updated] ->
              <[k := updated]> loaded !! chunkKeyOf c = Some c) as Hkept'.
  { intros updated Hkey c Hc Hnot. rewrite fmap_app in Hnot.
    rewrite lookup_insert_ne.
    - apply Hkept; [done|]. intros Hin. apply Hnot. apply elem_of_app. by left.
    - intros Heq. apply Hnot. apply elem_of_app. right. cbn [fmap list_fmap].
      apply list_elem_of_singleton. by rewrite Hkey. }
  assert (∀ c, c ∈ need -> chunkKeyOf c ∈ processed ++ [k]) as Hproc.
  { intros c Hc. apply elem_of_app. left. by destruct (Hneed c Hc) as (_ & _ & ?). }
  destruct (loaded !! k) as [chunk|] eqn:Hk.
  - assert (chunkKeyOf (applyChangesToChunk chunk g) = k) as Hkey.
    { rewrite chunkKeyOf_position, applyChangesToChunk_position, <- chunkKeyOf_position.
      by apply Hkeyed. }
    case_bool_decide as Hvisible; cbn [fst snd].
    + split_and!; [by apply storeKeyed_insert|done|by apply Hnodup'| |by apply Hkept'].
      by apply Hneed'.
    + split_and!; [by apply storeKeyed_insert|done|done| |].
      * intros c Hc. destruct (Hneed c Hc) as (Hlook & Hv & Hp). split_and!; [|done|by apply Hproc].
        rewrite lookup_insert_ne; [done|]. intros Heq. apply Hvisible. by rewrite Heq.
      * intros c Hc Hnot. rewrite lookup_insert_ne; [by apply Hkept|].
        intros Heq. apply Hvisible. rewrite Heq. apply Hvis. by apply Hrendered.
  - assert (effectInv chunks0 visible0 (processed ++ [k]) (loaded, visible, need)) as Hsame.
    { split_and!; [done..| |done]. intros c Hc. destruct (Hneed c Hc) as (? & ? & ?).
      split_and!; [done..|by apply Hproc]. }
    case_bool_decide as Hvisible; [|exact Hsame].
    destruct gen as [generator|]; [|exact Hsame]. destruct k as [[x y] z].
    assert (chunkKeyOf (applyChangesToChunk (generateChunk generator x y z CHUNK_SIZE) g)
            = (x, y, z)) as Hkey.
    { by rewrite chunkKeyOf_position, applyChangesToChunk_position, generateChunk_position. }
    cbn [fst snd].
    split_and!; [by apply storeKeyed_insert| |by apply Hnodup'| |by apply Hkept'].
    + intros k' Hk'. apply elem_of_union_r. by apply Hvis.
    + apply Hneed'; [done| |].
      * intros k' Hk'. by apply elem_of_union_r.
      * apply elem_of_union_l. by apply elem_of_singleton.
Qed.

Lemma effectFold_inv gen chunks0 visible0 groups processed acc :
  (∀ c, c ∈ chunks0 -> chunkKeyOf c ∈ visible0) ->
  NoDup (processed ++ groups.*1) ->
  effectInv chunks0 visible0 processed acc ->
  ∃ processed', effectInv chunks0 visible0 processed' (foldl (effectStep gen) acc groups).
Proof.
  intros Hrendered. revert processed acc.
  induction groups as [|[k g] groups IH]; intros processed acc Hnodup Hacc; [by eexists|].
  cbn [foldl]. apply (IH (processed ++ [k])).
  - cbn [fmap list_fmap fst] in Hnodup. by rewrite <- app_assoc.
  - apply effectStep_inv; [done| |done].
    cbn [fmap list_fmap fst] in Hnodup. apply NoDup_app in Hnodup as (_ & Hdisj & _).
    intros Hin. apply (Hdisj k Hin). apply list_elem_of_here.
Qed.

Lemma changesEffect_render w :
  storeKeyed (loadedChunks w) -> renderInvariant w -> renderInvariant (changesEffect w).
Proof.
  intros Hkeyed [Hnodup Hall]. unfold changesEffect.
  destruct (_ || _); [done|].
  destruct (effectFold_inv (terrainGenerator w) (chunks w) (visibleChunks w)
              (groupByChunk (changes w)) [] (loadedChunks w, visibleChunks w, []))
    as (processed & _ & Hvis & Hnodup' & Hneed & Hkept).
  { intros c Hc. by destruct (Hall c Hc). }
  { apply groupByChunk_NoDup. }
  { split_and!; [done|done|apply NoDup_nil_2| |].
    - intros c Hc. by apply not_elem_of_nil in Hc.
    - intros c Hc _. by destruct (Hall c Hc). }
  destruct (foldl _ _ _) as [[loaded visible] need]. cbn [fst snd] in *.
  unfold renderInvariant. cbn [chunks loadedChunks visibleChunks].
  case_bool_decide as Hlen.
  - split.
    + rewrite fmap_app. apply NoDup_app. split_and!; [|intros k Hk Hin|done].
      * apply (NoDup_fmap_2_strong chunkKeyOf).
        -- intros c1 c2 Hc1 Hc2 Heq.
           apply list_elem_of_filter in Hc1 as [_ Hc1]. apply list_elem_of_filter in Hc2 as [_ Hc2].
           destruct (Hall c1 Hc1) as [H1 _]. destruct (Hall c2 Hc2) as [H2 _].
           rewrite Heq in H1. congruence.
        -- apply NoDup_filter. by apply NoDup_fmap_1 in Hnodup.
      * apply list_elem_of_fmap in Hk as (c & -> & Hc).
        by apply list_elem_of_filter in Hc as [Hnot _].
    + intros c Hc. apply elem_of_app in Hc as [Hc|Hc].
      * apply list_elem_of_filter in Hc as [Hnot Hc]. split; [by apply Hkept|].
        apply Hvis. by destruct (Hall c Hc).
      * by destruct (Hneed c Hc) as (? & ? & _).
  - destruct need as [|c0 need]; [|cbn in Hlen; lia]. split; [done|].
    intros c Hc. split.
    + apply Hkept; [done|]. cbn. apply not_elem_of_nil.
    + apply Hvis. by destruct (Hall c Hc).
Qed.

(** *** The streaming frame *)

Lemma streamStep_inv gen log currentChunk loaded0 acc o :
  passInv loaded0 acc -> passInv loaded0 (streamStep gen log currentChunk acc o).
Proof.
  destruct acc as [[vis loaded] toLoad]. unfold passInv, streamStep. cbn [fst snd].
  intros (Hold & Hnodup & Hall). destruct (outOfRange o); [done|].
  destruct o as [[x y] z], currentChunk as [[cx cy] cz]. unfold getChunkKey.
  set (k := (cx + x, cy + y, cz + z)).
  destruct (loaded !! k) as [existing|] eqn:Hk; cbn [fst snd].
  - split_and!; [done..|]. intros c Hc. destruct (Hall c Hc) as (? & ? & ?).
    split_and!; [done| |done]. by apply elem_of_union_r.
  - set (updated := applyChangesToChunk _ log).
    assert (chunkKeyOf updated = k) as Hkey.
    { unfold updated. by rewrite chunkKeyOf_position, applyChangesToChunk_position,
        generateChunk_position. }
    assert (k ∉ chunkKeyOf <$> toLoad) as Hfresh.
    { intros Hin. apply list_elem_of_fmap in Hin as (c & Hc & Hin).
      destruct (Hall c Hin) as (Hlook & _). rewrite <- Hc in Hlook. congruence. }
    split_and!.
    + intros k' c Hc. rewrite lookup_insert_ne; [by apply Hold|].
      intros <-. apply Hold in Hc. congruence.
    + by apply (NoDup_keys_snoc _ _ k).
    + intros c Hc. apply elem_of_app in Hc as [Hc|Hc].
      * destruct (Hall c Hc) as (Hlook & Hv & Hnone). split_and!; [|by apply elem_of_union_r|done].
        rewrite lookup_insert_ne; [done|]. intros Heq. apply Hfresh. rewrite Heq.
        apply list_elem_of_fmap. by exists c.
      * apply list_elem_of_singleton in Hc as ->. rewrite Hkey. split_and!.
        -- by rewrite lookup_insert_eq.
        -- apply elem_of_union_l. by apply elem_of_singleton.
        -- destruct (loaded0 !! k) as [c|] eqn:Hc; [|done]. apply Hold in Hc. congruence.
Qed.

Lemma streamingFold_inv gen log currentChunk loaded0 offsets acc :
  passInv loaded0 acc ->
  passInv loaded0 (foldl (streamStep gen log currentChunk) acc offsets).
Proof.
  revert acc. induction offsets as [|o offsets IH]; intros acc Hacc; [done|].
  cbn [foldl]. by apply IH, streamStep_inv.
Qed.

Lemma streamingPass_inv gen log currentChunk loaded :
  passInv loaded (streamingPass gen log currentChunk loaded).
Proof.
  unfold streamingPass. generalize renderOffsets. intros offsets.
  apply streamingFold_inv. split_and!; [done|apply NoDup_nil_2|].
  intros c Hc. by apply not_elem_of_nil in Hc.
Qed.

Lemma streamingFrame_render now camera w :
  renderInvariant w -> renderInvariant (streamingFrame now camera w).
Proof.
  intros [Hnodup Hall]. unfold streamingFrame.
  destruct (terrainGenerator w) as [generator|]; [|done].
  destruct (negb (isInitialChunksLoaded w)); [done|].
  destruct (negb (Qle_bool 250 (now - lastFrameTime w))); [done|].
  cbn [changes loadedChunks visibleChunks playerChunkRef chunks pendingChanges
       terrainGenerator isInitialChunksLoaded lastFrameTime].
  destruct (bool_decide _); [done|].
  pose proof (streamingPass_inv generator (changes w)
                (getChunkCoords (v_x camera) (v_y camera) (v_z camera)) (loadedChunks w))
    as (Hold & Hnodup' & Hnew).
  destruct (streamingPass _ _ _ _) as [[vis loaded] toLoad]. cbn [fst snd] in *.
  unfold renderInvariant. cbn [chunks loadedChunks visibleChunks].
  destruct (bool_decide (0 < length toLoad)%nat || _) eqn:Hcond.
  - split.
    + rewrite fmap_app. apply NoDup_app. split_and!; [|intros k Hk Hin|done].
      * apply (NoDup_fmap_2_strong chunkKeyOf).
        -- intros c1 c2 Hc1 Hc2 Heq.
           apply list_elem_of_filter in Hc1 as [_ Hc1]. apply list_elem_of_filter in Hc2 as [_ Hc2].
           destruct (Hall c1 Hc1) as [H1 _]. destruct (Hall c2 Hc2) as [H2 _].
           rewrite Heq in H1. congruence.
        -- apply NoDup_filter. by apply NoDup_fmap_1 in Hnodup.
      * apply list_elem_of_fmap in Hk as (c & -> & Hc).
        apply list_elem_of_filter in Hc as [_ Hc]. destruct (Hall c Hc) as [Hlook _].
        apply list_elem_of_fmap in Hin as (c' & Hkey & Hc').
        destruct (Hnew c' Hc') as (_ & _ & Hnone). rewrite <- Hkey in Hnone. congruence.
    + intros c Hc. apply elem_of_app in Hc as [Hc|Hc].
      * apply list_elem_of_filter in Hc as [Hkeep Hc]. destruct (Hall c Hc) as [Hlook Hvis].
        split; [by apply Hold|].
        destruct (decide (chunkKeyOf c ∈ vis)) as [|Hout]; [done|].
        exfalso. apply Hkeep. by apply elem_of_difference.
      * by destruct (Hnew c Hc) as (? & ? & _).
  - apply orb_false_iff in Hcond as [_ Hsize]. apply bool_decide_eq_false in Hsize.
    assert (visibleChunks w ∖ vis = ∅) as Hempty.
    { apply leibniz_equiv, size_empty_iff. lia. }
    split; [done|]. intros c Hc. destruct (Hall c Hc) as [Hlook Hvis]. split; [by apply Hold|].
    destruct (decide (chunkKeyOf c ∈ vis)) as [|Hout]; [done|].
    exfalso. apply (not_elem_of_empty (C := gset (Z * Z * Z)) (chunkKeyOf c)).
    rewrite <- Hempty. by apply elem_of_difference.
Qed.

(** *** Every reachable state *)

Lemma afterClick_render w w' :
  storeKeyed (loadedChunks w) ->
  chunks w' = chunks w -> loadedChunks w' = loadedChunks w ->
  visibleChunks w' = visibleChunks w ->
  renderInvariant w -> renderInvariant (afterClick w w').
Proof.
  intros Hkeyed Hc Hl Hv Hrender.
  assert (renderInvariant w') as Hrender'.
  { unfold renderInvariant. by rewrite Hc, Hl, Hv. }
  unfold afterClick. destruct (bool_decide _); [done|].
  apply changesEffect_render; [by rewrite Hl|done].
Qed.

Lemma reachable_render gen initialChanges w :
  reachable gen initialChanges w -> renderInvariant w.
Proof.
  induction 1 as [|w camera block face Hreach IH|w selectedBlock camera block face Hreach IH
                  |w now camera Hreach IH].
  - unfold mount. apply changesEffect_render.
    + eapply storeConsistent_keyed. eapply generateInitialChunks_spec; done.
    + by apply generateInitialChunks_render.
  - apply reachable_invariant in Hreach as (_ & _ & Hstore).
    apply afterClick_render; [by eapply storeConsistent_keyed| | | |done];
      by destruct (handleBlockClick_cases camera block face w) as [->| ->].
  - apply reachable_invariant in Hreach as (_ & _ & Hstore).
    apply afterClick_render; [by eapply storeConsistent_keyed| | | |done];
      by destruct (handleBlockRightClick_cases selectedBlock camera block face w)
        as [->|(x & y & z & ->)].
  - by apply streamingFrame_render.
Qed.
End RenderFacts.

(** X4: the render list shows the store.  In every state the mounted
    component reaches, no chunk key occurs twice in the render list [chunks],
    every rendered chunk is the chunk the store holds under its key, that key
    is in the visible set, and so the rendered chunk holds the generated
    terrain of its coordinate with the changes of the log in its footprint
    applied in log order. *)
Theorem rendered_chunks_follow_the_log (gen : Noise.TerrainGenerator)
    (initialChanges : list BlockChange) (w : World.State) :
  reachable gen initialChanges w ->
  NoDup (World.chunkKeyOf <$> World.chunks w)
  ∧ ∀ c, c ∈ World.chunks w ->
      World.loadedChunks w !! position c = Some c
      ∧ position c ∈ World.visibleChunks w
      ∧ isBlockSet (blocks c) (materialized gen (position c) (World.changes w)).
Proof.
  intros Hreach. destruct (reachable_render gen initialChanges w Hreach) as [Hnodup Hall].
  split; [done|]. intros c Hc. destruct (Hall c Hc) as [Hlook Hvis].
  rewrite chunkKeyOf_position in Hlook, Hvis. split_and!; [done..|].
  apply reachable_invariant in Hreach as (_ & _ & Hstore).
  by destruct (Hstore _ c Hlook).
Qed.

Lemma rendered_chunks_follow_the_log_witness :
  let log := [mkChange 2 17 2 grass remove] in
  let w := World.mount flatGenerator log in
  let c := World.applyChangesToChunk (Noise.generateChunk flatGenerator 0 1 0 16) log in
  reachable flatGenerator log w
  ∧ (0, 1, 0) ∈ World.chunkKeyOf <$> World.chunks w
  ∧ blockAt (blocks c) (2, 17, 2) = None
  ∧ NoDup (World.chunkKeyOf <$> World.chunks w)
  ∧ ∀ c, c ∈ World.chunks w ->
      World.loadedChunks w !! position c = Some c
      ∧ position c ∈ World.visibleChunks w
      ∧ isBlockSet (blocks c) (materialized flatGenerator (position c) (World.changes w)).
Proof.
  cbn zeta. split; [apply reach_mount|]. split; [|split].
  - apply (bool_decide_unpack _). vm_compute. exact I.
  - vm_compute. reflexivity.
  - exact (rendered_chunks_follow_the_log flatGenerator _ _
             (reach_mount flatGenerator [mkChange 2 17 2 grass remove])).
Defined.

(** ** The visible set and the render list after a streaming frame *)

Section VisibleSetFacts.
Import Noise World.

Lemma outOfRange_false x y z :
  outOfRange (x, y, z) = false ↔ Z.abs x + Z.abs y + Z.abs z <= 4.
Proof.
  unfold outOfRange, Qgtb. rewrite negb_false_iff, Qle_bool_iff.
  unfold Qle, RENDER_DISTANCE. cbn [Qnum Qden inject_Z Qmult]. lia.
Qed.

Lemma elem_of_renderOffsets x y z :
  (x, y, z) ∈ renderOffsets ↔ (-3 <= x <= 3) ∧ (-3 <= y <= 3) ∧ (-3 <= z <= 3).
Proof.
  unfold renderOffsets, RENDER_DISTANCE. cbn zeta. split.
  - intros Hin. apply list_elem_of_bind in Hin as (x' & Hin & Hx).
    apply list_elem_of_bind in Hin as (y' & Hin & Hy).
    apply list_elem_of_bind in Hin as (z' & Hin & Hz).
    apply list_elem_of_singleton in Hin as [= -> -> ->].
    apply elem_of_seqZ in Hx, Hy, Hz. lia.
  - intros (Hx & Hy & Hz).
    apply list_elem_of_bind. exists x. split; [|apply elem_of_seqZ; lia].
    apply list_elem_of_bind. exists y. split; [|apply elem_of_seqZ; lia].
    apply list_elem_of_bind. exists z. split; [|apply elem_of_seqZ; lia].
    by apply list_elem_of_singleton.
Qed.

Lemma elem_of_desiredChunks currentChunk k :
  k ∈ desiredChunks currentChunk ↔
  Z.abs (k.1.1 - currentChunk.1.1) <= 3 ∧ Z.abs (k.1.2 - currentChunk.1.2) <= 3
  ∧ Z.abs (k.2 - currentChunk.2) <= 3
  ∧ Z.abs (k.1.1 - currentChunk.1.1) + Z.abs (k.1.2 - currentChunk.1.2)
    + Z.abs (k.2 - currentChunk.2) <= 4.
Proof.
  destruct k as [[kx ky] kz], currentChunk as [[cx cy] cz]. cbn [fst snd].
  unfold desiredChunks. rewrite list_elem_of_fmap. split.
  - intros ([[x y] z] & Hk & Hin). apply list_elem_of_filter in Hin as [Hrange Hin].
    apply outOfRange_false in Hrange. apply elem_of_renderOffsets in Hin.
    unfold offsetKey in Hk. cbn [fst snd] in Hk. injection Hk as -> -> ->. lia.
  - intros (Hx & Hy & Hz & Hsum). exists (kx - cx, ky - cy, kz - cz). split.
    + unfold offsetKey. cbn [fst snd]. f_equal; [f_equal|]; lia.
    + apply list_elem_of_filter. split.
      * apply outOfRange_false. lia.
      * apply elem_of_renderOffsets. lia.
Qed.

(** The frame callback when its pass runs. *)
Lemma streamingFrame_pass now camera w generator :
  terrainGenerator w = Some generator ->
  isInitialChunksLoaded w = true ->
  Qle_bool 250 (now - lastFrameTime w) = true ->
  getChunkCoords (v_x camera) (v_y camera) (v_z camera) ≠ playerChunkRef w ->
  let currentChunk := getChunkCoords (v_x camera) (v_y camera) (v_z camera) in
  let r := streamingPass generator (changes w) currentChunk (loadedChunks w) in
  let w' := streamingFrame now camera w in
  visibleChunks w' = r.1.1 ∧ loadedChunks w' = r.1.2
  ∧ playerChunkRef w' = currentChunk ∧ lastFrameTime w' = now.
Proof.
  intros Hgen Hinit Htime Hmoved. cbn zeta. unfold streamingFrame.
  rewrite Hgen, Hinit, Htime. cbn [negb].
  cbn [changes loadedChunks visibleChunks playerChunkRef chunks pendingChanges
       terrainGenerator isInitialChunksLoaded lastFrameTime].
  rewrite bool_decide_eq_false_2 by done.
  by destruct (streamingPass _ _ _ _) as [[vis loaded] toLoad].
Qed.

Lemma streamingFrame_chunks now camera w c :
  c ∈ chunks (streamingFrame now camera w) ->
  c ∈ chunks w ∨ chunkKeyOf c ∉ dom (loadedChunks w).
Proof.
  unfold streamingFrame. destruct (terrainGenerator w) as [generator|]; [|by left].
  destruct (negb (isInitialChunksLoaded w)); [by left|].
  destruct (negb (Qle_bool 250 (now - lastFrameTime w))); [by left|].
  cbn [changes loadedChunks visibleChunks playerChunkRef chunks pendingChanges
       terrainGenerator isInitialChunksLoaded lastFrameTime].
  destruct (bool_decide _); [by left|].
  pose proof (streamingPass_visible generator (changes w)
                (getChunkCoords (v_x camera) (v_y camera) (v_z camera)) (loadedChunks w))
    as (_ & _ & _ & Hnew).
  destruct (streamingPass _ _ _ _) as [[vis loaded] toLoad].
  cbn [fst snd] in Hnew. cbn [chunks].
  destruct (_ || _); [|by left].
  intros Hin. apply elem_of_app in Hin as [Hin|Hin].
  - left. by apply list_elem_of_filter in Hin as [_ ?].
  - right. rewrite Forall_forall in Hnew. by apply Hnew.
Qed.

Lemma changesEffect_refs w :
  lastFrameTime (changesEffect w) = lastFrameTime w
  ∧ playerChunkRef (changesEffect w) = playerChunkRef w.
Proof.
  unfold changesEffect. destruct (_ || _); [done|].
  by destruct (foldl _ _ _) as [[loaded visible] need].
Qed.

Lemma generateInitialChunks_refs gen w :
  isInitialChunksLoaded w = false ->
  lastFrameTime (generateInitialChunks gen w) = lastFrameTime w
  ∧ playerChunkRef (generateInitialChunks gen w) = (0, 1, 0).
Proof.
  intros Hinit. unfold generateInitialChunks. rewrite Hinit.
  destruct (foldl _ _ _) as [[initial loaded] visible].
  by destruct (bool_decide _).
Qed.

Lemma mount_refs gen initialChanges :
  lastFrameTime (mount gen initialChanges) = 0%Q
  ∧ playerChunkRef (mount gen initialChanges) = (0, 1, 0).
Proof.
  unfold mount.
  destruct (changesEffect_refs (generateInitialChunks gen
    (mkState (chunks (initialState initialChanges)) (changes (initialState initialChanges))
       (pendingChanges (initialState initialChanges)) (Some gen)
       (isInitialChunksLoaded (initialState initialChanges))
       (loadedChunks (initialState initialChanges))
       (visibleChunks (initialState initialChanges))
       (lastFrameTime (initialState initialChanges))
       (playerChunkRef (initialState initialChanges))))) as [Htime Href].
  cbn zeta. rewrite Htime, Href.
  by apply generateInitialChunks_refs.
Qed.

(** The visible set after a frame whose pass runs. *)
Lemma streamingFrame_visible now camera w generator k :
  terrainGenerator w = Some generator ->
  isInitialChunksLoaded w = true ->
  Qle_bool 250 (now - lastFrameTime w) = true ->
  getChunkCoords (v_x camera) (v_y camera) (v_z camera) ≠ playerChunkRef w ->
  k ∈ visibleChunks (streamingFrame now camera w)
  ↔ k ∈ desiredChunks (getChunkCoords (v_x camera) (v_y camera) (v_z camera)).
Proof.
  intros Hgen Hinit Htime Hmoved.
  destruct (streamingFrame_pass now camera w generator Hgen Hinit Htime Hmoved)
    as (-> & _).
  destruct (streamingPass_visible generator (changes w)
              (getChunkCoords (v_x camera) (v_y camera) (v_z camera)) (loadedChunks w))
    as (-> & _).
  apply elem_of_list_to_set.
Qed.
End VisibleSetFacts.

(** X5: when the streaming frame runs its pass (generator set, initial
    chunks loaded, 250 ms since the last pass, viewpoint in a new chunk), the
    visible set becomes exactly the chunk keys whose offsets from the
    viewpoint's chunk are within 3 on each axis and within 4 in Manhattan
    length, every one of them is in the store, and the viewpoint's chunk is
    recorded. *)
Theorem streaming_frame_visible_set (now : Q) (camera : Vector3) (w : World.State)
    (generator : Noise.TerrainGenerator) :
  World.terrainGenerator w = Some generator ->
  World.isInitialChunksLoaded w = true ->
  Qle_bool 250 (now - World.lastFrameTime w) = true ->
  World.getChunkCoords (v_x camera) (v_y camera) (v_z camera) ≠ World.playerChunkRef w ->
  let currentChunk := World.getChunkCoords (v_x camera) (v_y camera) (v_z camera) in
  let w' := World.streamingFrame now camera w in
  World.playerChunkRef w' = currentChunk
  ∧ ∀ k, (k ∈ World.visibleChunks w' ↔
          Z.abs (k.1.1 - currentChunk.1.1) <= 3 ∧ Z.abs (k.1.2 - currentChunk.1.2) <= 3
          ∧ Z.abs (k.2 - currentChunk.2) <= 3
          ∧ Z.abs (k.1.1 - currentChunk.1.1) + Z.abs (k.1.2 - currentChunk.1.2)
            + Z.abs (k.2 - currentChunk.2) <= 4)
         ∧ (k ∈ World.visibleChunks w' -> is_Some (World.loadedChunks w' !! k)).
Proof.
  intros Hgen Hinit Htime Hmoved. cbn zeta.
  destruct (streamingFrame_pass now camera w generator Hgen Hinit Htime Hmoved)
    as (Hvis & Hloaded & Href & _).
  destruct (streamingPass_visible generator (World.changes w)
              (World.getChunkCoords (v_x camera) (v_y camera) (v_z camera))
              (World.loadedChunks w)) as (Hset & _ & Hsub & _).
  split; [done|]. intros k. rewrite Hvis, Hloaded, Hset. split.
  - rewrite elem_of_list_to_set. apply elem_of_desiredChunks.
  - intros Hk. apply (proj1 (elem_of_dom _ _)). by apply Hsub.
Qed.

Lemma streaming_frame_visible_set_witness :
  let w := World.mount flatGenerator [] in
  let camera := mkVector3 1000 20 0 in
  let w' := World.streamingFrame 1000 camera w in
  World.playerChunkRef w' = (62, 1, 0)
  ∧ (65, 1, 0) ∈ World.visibleChunks w'
  ∧ ((66, 1, 0) ∉ World.visibleChunks w')
  ∧ (64, 2, 1) ∈ World.visibleChunks w'
  ∧ ((64, 3, 1) ∉ World.visibleChunks w')
  ∧ is_Some (World.loadedChunks w' !! (65, 1, 0)).
Proof.
  cbn zeta.
  assert (World.terrainGenerator (World.mount flatGenerator []) = Some flatGenerator
          ∧ World.isInitialChunksLoaded (World.mount flatGenerator []) = true) as [Hgen Hinit].
  { destruct (mount_invariant flatGenerator []) as (? & ? & _). done. }
  assert (World.lastFrameTime (World.mount flatGenerator []) = 0%Q
          ∧ World.playerChunkRef (World.mount flatGenerator []) = (0, 1, 0)) as [Htime Href].
  { split; vm_compute; reflexivity. }
  destruct (streaming_frame_visible_set 1000 (mkVector3 1000 20 0)
              (World.mount flatGenerator []) flatGenerator Hgen Hinit)
    as (Hchunk & Hvis).
  { rewrite Htime. reflexivity. }
  { rewrite Href. vm_compute. discriminate. }
  assert (World.getChunkCoords 1000 20 0 = (62, 1, 0)) as Hcur by (vm_compute; reflexivity).
  cbn [v_x v_y v_z] in Hchunk, Hvis. rewrite Hcur in Hchunk, Hvis.
  split_and!.
  - exact Hchunk.
  - apply (Hvis (65, 1, 0)). cbn [fst snd]. lia.
  - intros Hin. apply (proj1 (proj1 (Hvis (66, 1, 0)))) in Hin. cbn [fst snd] in Hin. lia.
  - apply (Hvis (64, 2, 1)). cbn [fst snd]. lia.
  - intros Hin. apply (proj1 (proj1 (Hvis (64, 3, 1)))) in Hin. cbn [fst snd] in Hin. lia.
  - apply (Hvis (65, 1, 0)). apply (Hvis (65, 1, 0)). cbn [fst snd]. lia.
Defined.

(** X6: the streaming frame never puts a chunk that is already in the store
    back into the render list [chunks]: a stored chunk that is not rendered
    (it left the visible set earlier) stays unrendered when the viewpoint
    comes back. *)
Theorem stored_chunk_is_not_rendered_again (now : Q) (camera : Vector3) (w : World.State)
    (k : Z * Z * Z) :
  k ∈ dom (World.loadedChunks w) ->
  k ∉ World.chunkKeyOf <$> World.chunks w ->
  k ∉ World.chunkKeyOf <$> World.chunks (World.streamingFrame now camera w).
Proof.
  intros Hloaded Hhidden Hin. apply list_elem_of_fmap in Hin as (c & -> & Hin).
  apply streamingFrame_chunks in Hin as [Hin|Hnew].
  - apply Hhidden. apply list_elem_of_fmap. by exists c.
  - done.
Qed.

Lemma stored_chunk_is_not_rendered_again_witness :
  let w0 := World.mount flatGenerator [] in
  let w1 := World.streamingFrame 1000 (mkVector3 1000 20 0) w0 in
  let w2 := World.streamingFrame 2000 (mkVector3 0 20 0) w1 in
  (0, 1, 0) ∈ World.chunkKeyOf <$> World.chunks w0
  ∧ (0, 1, 0) ∈ dom (World.loadedChunks w1)
  ∧ ((0, 1, 0) ∉ World.chunkKeyOf <$> World.chunks w1)
  ∧ (0, 1, 0) ∈ World.visibleChunks w2
  ∧ ((0, 1, 0) ∉ World.chunkKeyOf <$> World.chunks w2).
Proof.
  cbn zeta.
  set (w0 := World.mount flatGenerator []).
  set (w1 := World.streamingFrame 1000 (mkVector3 1000 20 0) w0).
  assert ((0, 1, 0) ∈ World.chunkKeyOf <$> World.chunks w0) as Hrendered.
  { apply (bool_decide_unpack _). vm_compute. exact I. }
  assert (reachable flatGenerator [] w0) as Hreach0 by apply reach_mount.
  assert (reachable flatGenerator [] w1) as Hreach1 by (by apply reach_frame).
  destruct (reachable_invariant _ _ _ Hreach0) as (Hgen0 & Hinit0 & _).
  destruct (reachable_invariant _ _ _ Hreach1) as (Hgen1 & Hinit1 & _).
  destruct (mount_refs flatGenerator []) as [Htime0 Href0]. fold w0 in Htime0, Href0.
  assert (World.getChunkCoords 1000 20 0 = (62, 1, 0)) as Hcur1 by (vm_compute; reflexivity).
  assert (World.getChunkCoords 0 20 0 = (0, 1, 0)) as Hcur2 by (vm_compute; reflexivity).
  assert (Qle_bool 250 (1000 - World.lastFrameTime w0) = true) as Hwait0
    by (by rewrite Htime0).
  assert (World.getChunkCoords (v_x (mkVector3 1000 20 0)) (v_y (mkVector3 1000 20 0))
            (v_z (mkVector3 1000 20 0)) ≠ World.playerChunkRef w0) as Hmoved0.
  { cbn [v_x v_y v_z]. by rewrite Hcur1, Href0. }
  destruct (streamingFrame_pass 1000 (mkVector3 1000 20 0) w0 flatGenerator
              Hgen0 Hinit0 Hwait0 Hmoved0) as (_ & _ & Href1 & Htime1).
  fold w1 in Href1, Htime1. cbn [v_x v_y v_z] in Href1. rewrite Hcur1 in Href1.
  assert ((0, 1, 0) ∈ dom (World.loadedChunks w1)) as Hstored.
  { apply (proj1 (streamingFrame_dom 1000 (mkVector3 1000 20 0) w0)).
    destruct (reachable_render _ _ _ Hreach0) as [_ Hall].
    apply list_elem_of_fmap in Hrendered as (c & Hkey & Hc).
    destruct (Hall c Hc) as [Hlook _]. rewrite <- Hkey in Hlook. by eapply elem_of_dom_2. }
  assert ((0, 1, 0) ∉ World.chunkKeyOf <$> World.chunks w1) as Hhidden.
  { intros Hin. apply list_elem_of_fmap in Hin as (c & Hkey & Hc).
    destruct (reachable_render _ _ _ Hreach1) as [_ Hall].
    destruct (Hall c Hc) as [_ Hvis]. rewrite <- Hkey in Hvis.
    apply (streamingFrame_visible 1000 (mkVector3 1000 20 0) w0 flatGenerator
             (0, 1, 0) Hgen0 Hinit0 Hwait0 Hmoved0) in Hvis.
    cbn [v_x v_y v_z] in Hvis. rewrite Hcur1 in Hvis.
    apply elem_of_desiredChunks in Hvis. cbn [fst snd] in Hvis. lia. }
  split_and!; [exact Hrendered|exact Hstored|exact Hhidden| |].
  - apply (streamingFrame_visible 2000 (mkVector3 0 20 0) w1 flatGenerator
             (0, 1, 0) Hgen1 Hinit1).
    + by rewrite Htime1.
    + cbn [v_x v_y v_z]. by rewrite Hcur2, Href1.
    + cbn [v_x v_y v_z]. rewrite Hcur2. apply elem_of_desiredChunks. cbn [fst snd]. lia.
  - exact (stored_chunk_is_not_rendered_again 2000 (mkVector3 0 20 0) w1 (0, 1, 0)
             Hstored Hhidden).
Defined.

(** ** A click, end to end: the store after a break and after a place *)

Section ClickEndToEnd.
Import Noise World.
Variable gen : TerrainGenerator.

Lemma chunkOf_bounds x y z cx cy cz :
  cx * 16 <= x < cx * 16 + 16 -> cy * 16 <= y < cy * 16 + 16 ->
  cz * 16 <= z < cz * 16 + 16 -> chunkOf (x, y, z) = (cx, cy, cz).
Proof.
  intros Hx Hy Hz. unfold chunkOf.
  rewrite <- (Z.div_unique_pos x 16 cx (x - cx * 16)) by lia.
  rewrite <- (Z.div_unique_pos y 16 cy (y - cy * 16)) by lia.
  by rewrite <- (Z.div_unique_pos z 16 cz (z - cz * 16)) by lia.
Qed.

Lemma generated_block_chunk x y z b :
  b ∈ blocks (generateChunk gen x y z 16) -> chunkOf (block_pos b) = (x, y, z).
Proof.
  intros Hb. apply generateChunk_elem in Hb as (Hx & Hz & Hy & _).
  unfold block_pos. apply chunkOf_bounds; lia.
Qed.

(** A materialized chunk holds nothing outside its own footprint. *)
Lemma materialized_outside k log p : chunkOf p ≠ k -> materialized gen k log p = None.
Proof.
  intros Hp. rewrite materialized_eq. rewrite replay_untouched.
  - apply blockAt_None. intros Hin. apply list_elem_of_fmap in Hin as (b & -> & Hb).
    apply Hp. destruct k as [[x y] z]. by apply generated_block_chunk in Hb.
  - intros c Hc. unfold changesInFootprint in Hc. apply list_elem_of_filter in Hc as [Hc _].
    congruence.
Qed.

(** The last change of the log at a coordinate decides what its chunk holds there. *)
Lemma materialized_snoc log c :
  materialized gen (chunkOf (change_pos c)) (log ++ [c]) (change_pos c)
  = match c_action c with place => Some (c_type c) | remove => None end.
Proof.
  rewrite materialized_eq, changesInFootprint_app.
  assert (changesInFootprint (chunkOf (change_pos c)) [c] = [c]) as ->.
  { unfold changesInFootprint. cbn [filter list_filter]. by rewrite decide_True. }
  rewrite replay_snoc. unfold replayChange. by rewrite decide_True.
Qed.

Lemma store_block_at log loaded p :
  storeConsistent gen log loaded ->
  blockExistsAt loaded p
  = bool_decide (is_Some (loaded !! chunkOf p) ∧ is_Some (materialized gen (chunkOf p) log p)).
Proof.
  intros Hstore. unfold blockExistsAt. apply bool_decide_ext.
  rewrite Exists_exists. split.
  - intros ([k chunk] & Hin & Hex). apply elem_of_map_to_list in Hin.
    apply Exists_exists in Hex as (b & Hb & Hpos). cbn [snd] in Hb.
    destruct (Hstore k chunk Hin) as [_ [_ Hset]]. apply Hset in Hb. rewrite Hpos in Hb.
    destruct (decide (chunkOf p = k)) as [->|Hne].
    + split; [by exists chunk|by eexists].
    + by rewrite materialized_outside in Hb.
  - intros [[chunk Hchunk] [t Ht]]. exists (chunkOf p, chunk). split.
    + by apply elem_of_map_to_list.
    + cbn [snd]. destruct (Hstore _ chunk Hchunk) as [_ [_ Hset]].
      apply Exists_exists.
      exists (mkBlock p.1.1 p.1.2 p.2 t). destruct p as [[x y] z]. split; [|done].
      apply Hset. exact Ht.
Qed.

Lemma afterClick_append w c :
  afterClick w (appendChange c w) = changesEffect (appendChange c w).
Proof.
  unfold afterClick. rewrite bool_decide_eq_false_2; [done|].
  cbn [changes appendChange]. intros Heq. apply (f_equal length) in Heq.
  rewrite length_app in Heq. simpl in Heq. lia.
Qed.

Lemma break_click_result initialChanges w camera block face :
  reachable gen initialChanges w ->
  distance_gt camera (blockCenter block) MAX_BREAK_DISTANCE = false ->
  let c := mkChange (b_x block) (b_y block) (b_z block) (b_type block) remove in
  let w' := afterClick w (handleBlockClick camera block face w) in
  changes w' = changes w ++ [c]
  ∧ blockExistsAt (loadedChunks w') (block_pos block) = false.
Proof.
  intros Hreach Hnear. cbn zeta.
  pose proof (reach_break gen initialChanges w camera block face Hreach) as Hreach'.
  apply reachable_invariant in Hreach' as (_ & _ & Hstore). revert Hstore.
  unfold handleBlockClick. rewrite Hnear, afterClick_append.
  set (c := mkChange _ _ _ _ remove). rewrite changesEffect_changes.
  cbn [changes appendChange]. intros Hstore. split; [done|].
  rewrite (store_block_at _ _ _ Hstore). apply bool_decide_eq_false.
  intros [_ [t Ht]]. change (block_pos block) with (change_pos c) in Ht.
  by rewrite materialized_snoc in Ht.
Qed.

Lemma place_click_result initialChanges w selectedBlock camera block face :
  reachable gen initialChanges w ->
  let p := placePosition block face in
  let w1 := handleBlockRightClick selectedBlock camera block face w in
  let w' := afterClick w w1 in
  changes w1 ≠ changes w ->
  changes w' = changes w ++ [mkChange p.1.1 p.1.2 p.2 selectedBlock place]
  ∧ ∀ chunk, loadedChunks w' !! chunkOf p = Some chunk ->
      blockAt (blocks chunk) p = Some selectedBlock.
Proof.
  intros Hreach. cbn zeta.
  pose proof (reach_place gen initialChanges w selectedBlock camera block face Hreach)
    as Hreach'.
  apply reachable_invariant in Hreach' as (_ & _ & Hstore). revert Hstore.
  unfold placePosition.
  destruct (faceDirection_clampFace face) as ([[dx dy] dz] & Hdir & _).
  rewrite Hdir, (handleBlockRightClick_spec _ _ _ _ _ _ _ _ Hdir). cbn zeta.
  destruct (_ && _); [|done]. cbn [fst snd].
  set (c := mkChange _ _ _ selectedBlock place).
  rewrite afterClick_append, changesEffect_changes. cbn [changes appendChange].
  intros Hstore _. split; [done|]. intros chunk Hchunk.
  destruct (Hstore _ chunk Hchunk) as [_ Hset].
  rewrite (isBlockSet_to_blockAt _ _ _ Hset).
  change (b_x block + dx, b_y block + dy, b_z block + dz) with (change_pos c).
  by rewrite materialized_snoc.
Qed.
End ClickEndToEnd.

(** X7: breaking works end to end.  In every state the mounted component
    reaches, a left click on a block within reach appends one remove change
    for that block, and after the change effect no chunk of the store holds a
    block at that coordinate. *)
Theorem break_click_clears_the_coordinate (gen : Noise.TerrainGenerator)
    (initialChanges : list BlockChange) (w : World.State) (camera : Vector3) (block : Block)
    (face : Z) :
  reachable gen initialChanges w ->
  distance_gt camera (blockCenter block) World.MAX_BREAK_DISTANCE = false ->
  let w' := afterClick w (World.handleBlockClick camera block face w) in
  World.changes w'
  = World.changes w ++ [mkChange (b_x block) (b_y block) (b_z block) (b_type block) remove]
  ∧ World.blockExistsAt (World.loadedChunks w') (block_pos block) = false.
Proof. apply break_click_result. Qed.

Lemma break_click_clears_the_coordinate_witness :
  let w := World.mount flatGenerator [] in
  let camera := mkVector3 0 20 0 in
  let block := mkBlock 0 17 0 grass in
  let w' := afterClick w (World.handleBlockClick camera block 2 w) in
  World.blockExistsAt (World.loadedChunks w) (0, 17, 0) = true
  ∧ World.changes w' = [mkChange 0 17 0 grass remove]
  ∧ World.blockExistsAt (World.loadedChunks w') (0, 17, 0) = false.
Proof.
  cbn zeta. split; [vm_compute; reflexivity|].
  exact (break_click_clears_the_coordinate flatGenerator [] (World.mount flatGenerator [])
           (mkVector3 0 20 0) (mkBlock 0 17 0 grass) 2
           (reach_mount flatGenerator []) eq_refl).
Defined.

(** X8: placing works end to end.  In every state the mounted component
    reaches, a right click that is accepted appends one place change at the
    placement coordinate, and after the change effect the chunk of that
    coordinate, when it is in the store, holds a block of the selected type
    there. *)
Theorem place_click_fills_the_coordinate (gen : Noise.TerrainGenerator)
    (initialChanges : list BlockChange) (w : World.State) (selectedBlock : BlockType)
    (camera : Vector3) (block : Block) (face : Z) :
  reachable gen initialChanges w ->
  let p := placePosition block face in
  let w1 := World.handleBlockRightClick selectedBlock camera block face w in
  let w' := afterClick w w1 in
  World.changes w1 ≠ World.changes w ->
  World.changes w' = World.changes w ++ [mkChange p.1.1 p.1.2 p.2 selectedBlock place]
  ∧ ∀ chunk, World.loadedChunks w' !! chunkOf p = Some chunk ->
      blockAt (blocks chunk) p = Some selectedBlock.
Proof. apply place_click_result. Qed.

Lemma place_click_fills_the_coordinate_witness :
  let w := World.mount flatGenerator [] in
  let camera := mkVector3 0 20 0 in
  let block := mkBlock 1 17 0 grass in
  let w' := afterClick w (World.handleBlockRightClick brick camera block 2 w) in
  placePosition block 2 = (1, 18, 0)
  ∧ World.changes w' = [mkChange 1 18 0 brick place]
  ∧ ∀ chunk, World.loadedChunks w' !! (0, 1, 0) = Some chunk ->
      blockAt (blocks chunk) (1, 18, 0) = Some brick.
Proof.
  cbn zeta. split; [reflexivity|].
  refine (place_click_fills_the_coordinate flatGenerator [] (World.mount flatGenerator [])
            brick (mkVector3 0 20 0) (mkBlock 1 17 0 grass) 2
            (reach_mount flatGenerator []) _).
  vm_compute. discriminate.
Defined.

(** ** The groups of the change effect *)

(** X9: the change effect groups the log by chunk key; the group stored under
    a key is exactly the changes of the log inside that chunk's bounds, in
    log order, no group is empty and no key occurs twice. *)
Theorem change_groups_partition_the_log (log : list BlockChange) :
  NoDup (World.groupByChunk log).*1
  ∧ ∀ k g, (k, g) ∈ World.groupByChunk log ↔
           g = filter (World.inChunkBounds k) log ∧ g ≠ [].
Proof.
  split; [apply groupByChunk_NoDup|]. intros k g.
  rewrite <- (jsmap_get_Some _ _ _ (groupByChunk_NoDup log)).
  rewrite groupByChunk_get, filter_inChunkBounds.
  destruct (changesInFootprint k log) as [|c rest].
  - split; [done|]. by intros [-> ?].
  - split; [by intros [= <-]|]. by intros [-> _].
Qed.

(** X10: patching a chunk with its own group of the log gives the same chunk
    as patching it with the whole log (a chunk without a group is returned
    as it is). *)
Theorem patching_with_the_group_is_enough (chunk : ChunkData) (log : list BlockChange) :
  World.applyChangesToChunk chunk
    (default [] (jsmap_get (position chunk) (World.groupByChunk log)))
  = World.applyChangesToChunk chunk log.
Proof.
  assert (default [] (jsmap_get (position chunk) (World.groupByChunk log))
          = changesInFootprint (position chunk) log) as ->.
  { rewrite groupByChunk_get. by destruct (changesInFootprint (position chunk) log). }
  unfold World.applyChangesToChunk.
  by rewrite !filter_inChunkBounds, changesInFootprint_idemp.
Qed.

(** ** The seed hash *)

Section SeedFacts.
Import Seed.

Lemma toInt32_range n : - 2 ^ 31 <= toInt32 n < 2 ^ 31.
Proof. unfold toInt32. pose proof (Z.mod_pos_bound (n + 2 ^ 31) (2 ^ 32)). lia. Qed.

Lemma toInt32_congr a b : (a - b) mod 2 ^ 32 = 0 -> toInt32 a = toInt32 b.
Proof.
  intros Hmod. unfold toInt32. f_equal.
  apply Z.mod_divide in Hmod as [k Hk]; [|lia].
  replace (a + 2 ^ 31) with (b + 2 ^ 31 + k * 2 ^ 32) by lia.
  by rewrite Z.mod_add by lia.
Qed.

Lemma toInt32_spec n : (toInt32 n - n) mod 2 ^ 32 = 0.
Proof.
  unfold toInt32. apply Z.mod_divide; [lia|].
  exists (- ((n + 2 ^ 31) / 2 ^ 32)).
  pose proof (Z.div_mod (n + 2 ^ 31) (2 ^ 32)). lia.
Qed.

Lemma toInt32_idemp n : toInt32 (toInt32 n) = toInt32 n.
Proof. apply toInt32_congr, toInt32_spec. Qed.

Lemma hashStep_eq hash char : hashStep hash char = toInt32 (31 * hash + char).
Proof.
  unfold hashStep, and32, shl32. cbn zeta. rewrite Z.land_diag, toInt32_idemp.
  apply toInt32_congr. rewrite Z.shiftl_mul_pow2 by lia.
  pose proof (toInt32_spec (toInt32 hash * 2 ^ 5)) as H1.
  pose proof (toInt32_spec hash) as H2.
  apply Z.mod_divide in H1 as [k1 Hk1]; [|lia]. apply Z.mod_divide in H2 as [k2 Hk2]; [|lia].
  apply Z.mod_divide; [lia|]. exists (k1 + 32 * k2). lia.
Qed.

Lemma hashLoop_snoc seed char :
  hashLoop (seed ++ [char]) = hashStep (hashLoop seed) char.
Proof. unfold hashLoop. by rewrite foldl_app. Qed.

Lemma hashLoop_eq seed : hashLoop seed = toInt32 (foldl (λ h c, 31 * h + c) 0 seed).
Proof.
  induction seed as [|c seed IH] using rev_ind; [done|].
  rewrite hashLoop_snoc, foldl_app, hashStep_eq, IH. cbn [foldl].
  apply toInt32_congr.
  pose proof (toInt32_spec (foldl (λ h c0, 31 * h + c0) 0 seed)) as Hm.
  apply Z.mod_divide in Hm as [k Hk]; [|lia]. apply Z.mod_divide; [lia|].
  exists (31 * k). lia.
Qed.
End SeedFacts.

(** X11: [hashSeed] is the polynomial string hash of base 31 (Java's
    [String.hashCode]) wrapped to a signed 32-bit integer: the loop yields
    [ToInt32] of the sum of [c_i * 31^(n-1-i)] over the code units. *)
Theorem hashSeed_is_base31_hash (seed : list Z) :
  Seed.hashLoop seed = Seed.toInt32 (foldl (λ h c, 31 * h + c) 0 seed)
  ∧ Seed.hashSeed seed
    = (inject_Z (Z.abs (Seed.toInt32 (foldl (λ h c, 31 * h + c)%Z 0%Z seed))) / 2147483647)%Q.
Proof.
  split; [apply hashLoop_eq|]. unfold Seed.hashSeed. by rewrite hashLoop_eq.
Qed.

(** X12: the value [hashSeed] hands to the noise library lies between 0 and
    2147483648/2147483647; the upper bound, which is above 1, is reached (by
    the seed "polygenelubricants", whose hash is -2^31). *)
Theorem hashSeed_range :
  (∀ seed, (0 <= Seed.hashSeed seed <= 2147483648 # 2147483647)%Q)
  ∧ Seed.hashLoop Seed.polygenelubricants = - 2 ^ 31
  ∧ (Seed.hashSeed Seed.polygenelubricants == 2147483648 # 2147483647)%Q
  ∧ (1 < Seed.hashSeed Seed.polygenelubricants)%Q.
Proof.
  split_and!.
  - intros seed. unfold Seed.hashSeed.
    assert (0 <= Z.abs (Seed.hashLoop seed) <= 2147483648) as Habs.
    { rewrite hashLoop_eq.
      pose proof (toInt32_range (foldl (λ h c, 31 * h + c) 0 seed)). lia. }
    revert Habs. generalize (Z.abs (Seed.hashLoop seed)). intros n Hn.
    unfold Qle, Qdiv, Qmult, Qinv. cbn [Qnum Qden inject_Z]. lia.
  - vm_compute. reflexivity.
  - vm_compute. reflexivity.
  - vm_compute. reflexivity.
Qed.

(** ** What the terrain generator puts into a chunk *)

Section TerrainFacts.
Import Noise.
Variable this : TerrainGenerator.

Lemma getBlockType_ground x y z :
  y <= getHeight this x z ->
  ∃ t, getBlockType this x y z = Some t ∧ t ∈ groundTypes.
Proof.
  intros Hy. unfold getBlockType, groundTypes. cbn zeta.
  rewrite bool_decide_eq_false_2 by lia.
  repeat case_bool_decide; repeat destruct (Qgtb _ _);
    eexists; (split; [reflexivity|]); set_solver.
Qed.

Lemma generateChunk_blockAt chunkX chunkY chunkZ p t :
  blockAt (blocks (generateChunk this chunkX chunkY chunkZ 16)) p = Some t ↔
  chunkOf p = (chunkX, chunkY, chunkZ) ∧ p.1.2 <= getHeight this p.1.1 p.2
  ∧ getBlockType this p.1.1 p.1.2 p.2 = Some t.
Proof.
  destruct p as [[x y] z]. cbn [fst snd].
  pose proof (blockAt_elem _ (mkBlock x y z t)
                (generateChunk_NoDup this chunkX chunkY chunkZ 16)) as Helem.
  cbn [block_pos b_x b_y b_z b_type] in Helem. rewrite <- Helem, generateChunk_elem.
  cbn [b_x b_y b_z b_type]. unfold chunkOf. split.
  - intros (Hx & Hz & Hy & Hh & Ht). split_and!; [|lia|done].
    by apply chunkOf_bounds.
  - intros (Hk & Hh & Ht). injection Hk as <- <- <-.
    pose proof (Z.div_mod x 16). pose proof (Z.mod_pos_bound x 16).
    pose proof (Z.div_mod y 16). pose proof (Z.mod_pos_bound y 16).
    pose proof (Z.div_mod z 16). pose proof (Z.mod_pos_bound z 16).
    split_and!; [lia..|done].
Qed.

Lemma bind_singletons {A B} (f : A -> list B) (g : A -> B) (l : list A) :
  (∀ x, x ∈ l -> f x = [g x]) -> l ≫= f = g <$> l.
Proof.
  induction l as [|a l IH]; intros Hf; [done|]. cbn [mbind list_bind fmap list_fmap].
  rewrite (Hf a) by apply list_elem_of_here. cbn [app]. f_equal.
  apply IH. intros x Hx. apply Hf. by apply list_elem_of_further.
Qed.

Lemma length_bind_const {A B} (f : A -> list B) (n : nat) (l : list A) :
  (∀ x, x ∈ l -> length (f x) = n) -> length (l ≫= f) = (length l * n)%nat.
Proof.
  induction l as [|a l IH]; intros Hf; [done|]. cbn [mbind list_bind length].
  rewrite length_app, (Hf a) by apply list_elem_of_here. cbn [Nat.mul]. f_equal.
  apply IH. intros x Hx. apply Hf. by apply list_elem_of_further.
Qed.

Hypothesis noise_range : ∀ a b, (-1 <= noise2D this a b <= 1)%Q.

Lemma getHeight_bounds x z : 8 <= getHeight this x z <= 25.
Proof.
  unfold getHeight. cbn zeta.
  pose proof (noise_range (inject_Z x * scale1) (inject_Z z * scale1)) as H1.
  pose proof (noise_range (inject_Z x * scale2) (inject_Z z * scale2)) as H2.
  pose proof (noise_range (inject_Z x * scale3) (inject_Z z * scale3)) as H3.
  revert H1 H2 H3.
  generalize (noise2D this (inject_Z x * scale1) (inject_Z z * scale1)).
  generalize (noise2D this (inject_Z x * scale2) (inject_Z z * scale2)).
  generalize (noise2D this (inject_Z x * scale3) (inject_Z z * scale3)).
  intros n3 n2 n1 H1 H2 H3.
  set (elevation := ((n1 * (7 # 10) + (7 # 10)) * 10 + n2 * (3 # 10) * 5
                     + n3 * (1 # 10) * 2)%Q).
  assert (-2 <= elevation)%Q as Hlo by (unfold elevation; lra).
  assert (elevation < 16)%Q as Hhi by (unfold elevation; lra).
  apply Qfloor_resp_le in Hlo. change (Qfloor (-2)) with (-2) in Hlo.
  pose proof (Qfloor_le elevation) as Hfl.
  assert (inject_Z (Qfloor elevation) < inject_Z 16)%Q as Hlt.
  { eapply Qle_lt_trans; [exact Hfl|exact Hhi]. }
  rewrite <- Zlt_Qlt in Hlt. lia.
Qed.

Lemma generateChunk_above chunkX chunkY chunkZ :
  2 <= chunkY -> blocks (generateChunk this chunkX chunkY chunkZ 16) = [].
Proof.
  intros Hy. apply elem_of_nil_inv. intros b Hb.
  apply generateChunk_elem in Hb as (_ & _ & Hby & Hh & _).
  pose proof (getHeight_bounds (b_x b) (b_z b)). lia.
Qed.

Lemma generateColumn_deep startY worldX worldZ :
  startY + 16 <= 0 ->
  generateColumn this startY 16 worldX worldZ
  = (λ y, mkBlock worldX (startY + y) worldZ stone) <$> seqZ 0 16.
Proof.
  intros Hdeep. unfold generateColumn. cbn zeta. apply bind_singletons.
  intros y Hy. apply elem_of_seqZ in Hy.
  pose proof (getHeight_bounds worldX worldZ) as Hh.
  rewrite bool_decide_eq_true_2 by lia.
  unfold getBlockType. cbn zeta.
  rewrite bool_decide_eq_false_2 by lia. rewrite bool_decide_eq_false_2 by lia.
  by rewrite bool_decide_eq_true_2 by lia.
Qed.

Lemma generateChunk_below chunkX chunkY chunkZ :
  chunkY <= -1 ->
  length (blocks (generateChunk this chunkX chunkY chunkZ 16)) = 4096%nat
  ∧ Forall (λ b, b_type b = stone) (blocks (generateChunk this chunkX chunkY chunkZ 16)).
Proof.
  intros Hy. split.
  - unfold generateChunk. cbn [blocks].
    rewrite (length_bind_const _ 256%nat); [by rewrite length_seqZ|].
    intros x _. rewrite (length_bind_const _ 16%nat); [by rewrite length_seqZ|].
    intros z _. rewrite generateColumn_deep by lia. by rewrite length_fmap, length_seqZ.
  - apply Forall_forall. intros b Hb. unfold generateChunk in Hb. cbn [blocks] in Hb.
    apply list_elem_of_bind in Hb as (x & Hb & _).
    apply list_elem_of_bind in Hb as (z & Hb & _).
    rewrite generateColumn_deep in Hb by lia.
    by apply list_elem_of_fmap in Hb as (y & -> & _).
Qed.
End TerrainFacts.

(** X13: a generated chunk holds only ground.  Every block [generateChunk]
    emits lies at or below the terrain height of its column and has one of
    the types stone, dirt, grass, sand: the water branch of [getBlockType]
    (cells above the terrain) is never reached, so no water block is ever
    generated. *)
Theorem generated_chunk_holds_only_ground (gen : Noise.TerrainGenerator)
    (chunkX chunkY chunkZ chunkSize : Z) :
  Forall (λ b, b_y b <= Noise.getHeight gen (b_x b) (b_z b)
               ∧ b_type b ∈ groundTypes ∧ b_type b ≠ water)
    (blocks (Noise.generateChunk gen chunkX chunkY chunkZ chunkSize)).
Proof.
  apply Forall_forall. intros b Hb.
  apply generateChunk_elem in Hb as (_ & _ & _ & Hh & Ht).
  assert (b_y b <= Noise.getHeight gen (b_x b) (b_z b)) as Hy by lia.
  destruct (getBlockType_ground gen _ _ _ Hy) as (t & Ht' & Hin).
  rewrite Ht in Ht'. injection Ht' as <-. split_and!; [done..|].
  intros Hw. rewrite Hw in Hin. revert Hin. apply (bool_decide_unpack _). reflexivity.
Qed.

(** X14: a generated chunk is solid below the surface.  In the chunk generated
    for a chunk coordinate, the cell at a coordinate holds a block exactly
    when the coordinate lies in the chunk's 16x16x16 footprint and at or
    below the terrain height of its column; its type is the one
    [getBlockType] gives. *)
Theorem generated_chunk_is_solid (gen : Noise.TerrainGenerator) (chunkX chunkY chunkZ : Z)
    (p : Z * Z * Z) :
  (is_Some (blockAt (blocks (Noise.generateChunk gen chunkX chunkY chunkZ 16)) p) ↔
   chunkOf p = (chunkX, chunkY, chunkZ) ∧ p.1.2 <= Noise.getHeight gen p.1.1 p.2)
  ∧ ∀ t, blockAt (blocks (Noise.generateChunk gen chunkX chunkY chunkZ 16)) p = Some t ↔
         chunkOf p = (chunkX, chunkY, chunkZ) ∧ p.1.2 <= Noise.getHeight gen p.1.1 p.2
         ∧ Noise.getBlockType gen p.1.1 p.1.2 p.2 = Some t.
Proof.
  split; [|intros t; apply generateChunk_blockAt]. split.
  - intros [t Ht]. apply generateChunk_blockAt in Ht as (? & ? & _). done.
  - intros [Hk Hh]. destruct (getBlockType_ground gen _ _ _ Hh) as (t & Ht & _).
    exists t. by apply generateChunk_blockAt.
Qed.

(** X15: when the 2D noise stays within [-1, 1] (as simplex noise does), the
    terrain height of every column lies between 8 and 25. *)
Theorem terrain_height_range (gen : Noise.TerrainGenerator) :
  (∀ a b, (-1 <= Noise.noise2D gen a b <= 1)%Q) ->
  ∀ x z, 8 <= Noise.getHeight gen x z <= 25.
Proof. apply getHeight_bounds. Qed.

Lemma terrain_height_range_witness :
  (∀ a b : Q, (-1 <= Noise.noise2D flatGenerator a b <= 1)%Q)
  ∧ Noise.getHeight flatGenerator 3 (-4) = 17
  ∧ ∀ x z, 8 <= Noise.getHeight flatGenerator x z <= 25.
Proof.
  assert (∀ a b : Q, (-1 <= Noise.noise2D flatGenerator a b <= 1)%Q) as Hnoise.
  { intros a b. cbn [Noise.noise2D flatGenerator]. split; discriminate. }
  split_and!; [exact Hnoise|reflexivity|exact (terrain_height_range flatGenerator Hnoise)].
Defined.

(** X16: when the 2D noise stays within [-1, 1], a chunk whose vertical chunk
    coordinate is 2 or more is generated empty, and a chunk whose vertical
    chunk coordinate is negative is generated full: 4096 blocks, all stone. *)
Theorem chunks_far_from_the_surface (gen : Noise.TerrainGenerator) :
  (∀ a b, (-1 <= Noise.noise2D gen a b <= 1)%Q) ->
  ∀ chunkX chunkY chunkZ,
    (2 <= chunkY -> blocks (Noise.generateChunk gen chunkX chunkY chunkZ 16) = [])
    ∧ (chunkY <= -1 ->
       length (blocks (Noise.generateChunk gen chunkX chunkY chunkZ 16)) = 4096%nat
       ∧ Forall (λ b, b_type b = stone)
           (blocks (Noise.generateChunk gen chunkX chunkY chunkZ 16))).
Proof.
  intros Hnoise chunkX chunkY chunkZ. split.
  - by apply generateChunk_above.
  - by apply generateChunk_below.
Qed.

Lemma chunks_far_from_the_surface_witness :
  (∀ a b : Q, (-1 <= Noise.noise2D flatGenerator a b <= 1)%Q)
  ∧ blocks (Noise.generateChunk flatGenerator 0 2 0 16) = []
  ∧ length (blocks (Noise.generateChunk flatGenerator 0 (-1) 0 16)) = 4096%nat.
Proof.
  assert (∀ a b : Q, (-1 <= Noise.noise2D flatGenerator a b <= 1)%Q) as Hnoise.
  { intros a b. cbn [Noise.noise2D flatGenerator]. split; discriminate. }
  split_and!; [exact Hnoise| |].
  - apply (chunks_far_from_the_surface flatGenerator Hnoise 0 2 0). lia.
  - apply (chunks_far_from_the_surface flatGenerator Hnoise 0 (-1) 0). lia.
Defined.

(** ** The chunk component: grouping, change detection, instances *)

Section ChunkComponentFacts.
Import Chunk.

Lemma blocksByType_snoc pos bs b :
  blocksByType (mkChunk pos (bs ++ [b])) = groupStep (blocksByType (mkChunk pos bs)) b.
Proof. unfold blocksByType. cbn [blocks]. by rewrite foldl_app. Qed.

Lemma blocksByType_NoDup chunk : NoDup (blocksByType chunk).*1.
Proof.
  destruct chunk as [pos bs]. induction bs as [|b bs IH] using rev_ind.
  - apply NoDup_nil_2.
  - rewrite blocksByType_snoc. unfold groupStep. cbn zeta. by apply jsmap_set_NoDup.
Qed.

Lemma blocksByType_get chunk t :
  jsmap_get t (blocksByType chunk)
  = match filter (λ b, b_type b = t) (blocks chunk) with
    | [] => None
    | g => Some g
    end.
Proof.
  destruct chunk as [pos bs]. cbn [blocks]. induction bs as [|b bs IH] using rev_ind.
  - done.
  - rewrite blocksByType_snoc, filter_app. unfold groupStep. cbn zeta.
    rewrite jsmap_get_set. cbn [filter list_filter].
    destruct (decide (b_type b = t)) as [->|Hne].
    + rewrite IH. by destruct (filter _ bs).
    + by rewrite IH, app_nil_r.
Qed.

Lemma groupStep_concat result b :
  concat (groupStep result b).*2 ≡ₚ b :: concat result.*2.
Proof.
  unfold groupStep. cbn zeta. induction result as [|[k v] result IH].
  - done.
  - cbn [jsmap_get jsmap_set]. destruct (decide (k = b_type b)) as [->|Hne].
    + cbn [default from_option id fmap list_fmap snd concat].
      rewrite <- app_assoc. cbn [app].
      by rewrite <- Permutation_middle.
    + cbn [fmap list_fmap snd concat]. rewrite IH. by rewrite <- Permutation_middle.
Qed.

Lemma blocksByType_concat chunk : concat (blocksByType chunk).*2 ≡ₚ blocks chunk.
Proof.
  destruct chunk as [pos bs]. cbn [blocks]. induction bs as [|b bs IH] using rev_ind.
  - done.
  - rewrite blocksByType_snoc, groupStep_concat, IH. apply Permutation_cons_append.
Qed.

Lemma differsAt_false blocks prevBlocks i b :
  blocks !! i = Some b ->
  differsAt blocks prevBlocks i = false ↔ prevBlocks !! i = Some b.
Proof.
  intros Hb. unfold differsAt. rewrite Hb. destruct (prevBlocks !! i) as [p|]; [|done].
  rewrite !orb_false_iff, !negb_false_iff, !bool_decide_eq_true. split.
  - intros (((Hx & Hy) & Hz) & Ht). f_equal. symmetry. apply block_pos_type_inj; [|done].
    unfold block_pos. congruence.
  - by intros [= ->].
Qed.

Lemma hasChanged_false prevBlocks blocks :
  hasChanged prevBlocks blocks = false ↔ prevBlocks = blocks.
Proof.
  unfold hasChanged. split.
  - case_bool_decide as Hlen; [|done]. cbn [negb]. intros Hex.
    apply list_eq_same_length with (length blocks); [done..|].
    intros i p b Hi Hp Hb.
    assert (differsAt blocks prevBlocks i = false) as Hsame.
    { destruct (differsAt blocks prevBlocks i) eqn:Hd; [|done].
      assert (existsb (differsAt blocks prevBlocks) (seq 0 (length blocks)) = true) as Hex'.
      { apply existsb_exists. exists i. split; [|done]. apply in_seq. lia. }
      congruence. }
    apply (differsAt_false _ _ _ _ Hb) in Hsame. congruence.
  - intros ->. rewrite bool_decide_eq_true_2 by done. cbn [negb].
    apply not_true_is_false. intros Hex. apply existsb_exists in Hex as (i & Hi & Hd).
    apply in_seq in Hi. destruct (lookup_lt_is_Some_2 blocks i) as [b Hb]; [lia|].
    assert (differsAt blocks blocks i = false) as Hsame
      by (by apply (differsAt_false _ _ _ _ Hb)).
    congruence.
Qed.

Lemma registerInstances_lookup blocks i :
  registerInstances blocks !! i
  = if bool_decide (0 <= i < Z.of_nat (length blocks)) then Some i else None.
Proof.
  unfold registerInstances. generalize (length blocks). intros n.
  induction n as [|n IH].
  - cbn [seq foldl]. rewrite lookup_empty. by rewrite bool_decide_eq_false_2 by lia.
  - rewrite seq_S, foldl_app. cbn [foldl Nat.add].
    destruct (decide (i = Z.of_nat n)) as [->|Hne].
    + rewrite lookup_insert_eq. by rewrite bool_decide_eq_true_2 by lia.
    + rewrite lookup_insert_ne by done. rewrite IH.
      apply (f_equal (λ c : bool, if c then Some i else None)).
      apply bool_decide_ext. lia.
Qed.

Lemma drawnCoordinate_eq c : c / 16 * 16 + Z.rem c 16 = drawnCoordinate c.
Proof.
  unfold drawnCoordinate.
  pose proof (Z.div_mod c 16). pose proof (Z.mod_pos_bound c 16).
  pose proof (Z.quot_rem' c 16) as Hqr.
  destruct (decide (0 <= c)) as [Hpos|Hneg].
  - rewrite bool_decide_eq_true_2 by (by left).
    rewrite Z.rem_mod_nonneg by lia. lia.
  - pose proof (Z.rem_opp_l' (- c) 16) as Hopp. rewrite Z.opp_involutive in Hopp.
    rewrite (Z.rem_mod_nonneg (- c) 16) in Hopp by lia.
    pose proof (Z.div_mod (- c) 16). pose proof (Z.mod_pos_bound (- c) 16).
    case_bool_decide as Hcase.
    + destruct Hcase as [?|Hmod]; [lia|]. rewrite Hopp.
      assert (- c mod 16 = 0) as ->; [|lia].
      apply Z.mod_divide; [lia|]. apply Z.mod_divide in Hmod as [k Hk]; [|lia].
      exists (- k). lia.
    + rewrite Hopp.
      assert (- c mod 16 = 16 - c mod 16); [|lia].
      symmetry. apply Z.mod_unique_pos with (- (c / 16) - 1); lia.
Qed.
End ChunkComponentFacts.

(** X17: [blocksByType] partitions the blocks of a chunk by type: no type key
    occurs twice, the group stored under a type is exactly the blocks of that
    type in their order in the chunk, no group is empty, and the groups
    together hold every block of the chunk exactly once (so the instanced
    meshes of a chunk have as many instances as the chunk has blocks). *)
Theorem blocks_by_type_partition (chunk : ChunkData) :
  NoDup (Chunk.blocksByType chunk).*1
  ∧ (∀ t g, (t, g) ∈ Chunk.blocksByType chunk ↔
            g = filter (λ b, b_type b = t) (blocks chunk) ∧ g ≠ [])
  ∧ concat (Chunk.blocksByType chunk).*2 ≡ₚ blocks chunk.
Proof.
  split_and!; [apply blocksByType_NoDup| |apply blocksByType_concat].
  intros t g. rewrite <- (jsmap_get_Some _ _ _ (blocksByType_NoDup chunk)).
  rewrite blocksByType_get. destruct (filter _ (blocks chunk)) as [|b rest].
  - split; [done|]. by intros [-> ?].
  - split; [by intros [= <-]|]. by intros [-> _].
Qed.

(** X18: the change detection of an instanced mesh is exact: comparing the
    new block array with the remembered one (lengths, then x, y, z and type
    index by index) reports a change exactly when the two arrays differ; an
    unchanged array leaves the component state as it is, a changed one is
    remembered and marks the instances dirty. *)
Theorem block_change_detection_is_exact (blocks : list Block) (s : Chunk.State) :
  Chunk.hasChanged (Chunk.prevBlocks s) blocks = negb (bool_decide (Chunk.prevBlocks s = blocks))
  ∧ Chunk.blocksEffect blocks s
    = if bool_decide (Chunk.prevBlocks s = blocks) then s
      else Chunk.mkState blocks true (Chunk.nextUpdate s) (Chunk.instanceToBlockMap s)
             (Chunk.instanceMatrices s) (Chunk.meshBlocks s).
Proof.
  assert (Chunk.hasChanged (Chunk.prevBlocks s) blocks
          = negb (bool_decide (Chunk.prevBlocks s = blocks))) as Hdetect.
  { case_bool_decide as Heq.
    - by apply hasChanged_false.
    - apply not_false_is_true. intros Hfalse. by apply hasChanged_false in Hfalse. }
  split; [done|]. unfold Chunk.blocksEffect. rewrite Hdetect. by case_bool_decide.
Qed.

(** X19: where a block is drawn.  For a block inside the bounds of its chunk,
    the instance is drawn at the block's coordinate on every axis where the
    coordinate is non-negative or a multiple of 16, and 16 lower on every
    other axis: [block.x % 16] is negative for a negative coordinate, while
    the group of the chunk already sits at the chunk's lower corner. *)
Theorem instance_is_drawn_at (chunk : ChunkData) (block : Block) :
  blockInChunk (position chunk) block ->
  Chunk.instanceWorldPosition chunk block
  = (drawnCoordinate (b_x block), drawnCoordinate (b_y block), drawnCoordinate (b_z block)).
Proof.
  unfold blockInChunk, Chunk.instanceWorldPosition, Chunk.groupPosition, Chunk.instancePosition.
  destruct (position chunk) as [[cx cy] cz]. unfold chunkOf, block_pos.
  intros [= <- <- <-]. by rewrite !drawnCoordinate_eq.
Qed.

Lemma instance_is_drawn_at_witness :
  let chunk := mkChunk (-1, 1, 0) [mkBlock (-1) 17 3 grass; mkBlock (-16) 17 3 grass] in
  blockInChunk (position chunk) (mkBlock (-1) 17 3 grass)
  ∧ Chunk.instanceWorldPosition chunk (mkBlock (-1) 17 3 grass) = (-17, 17, 3)
  ∧ Chunk.instanceWorldPosition chunk (mkBlock (-16) 17 3 grass) = (-16, 17, 3).
Proof.
  cbn zeta. split; [reflexivity|]. split.
  - exact (instance_is_drawn_at (mkChunk (-1, 1, 0) _) (mkBlock (-1) 17 3 grass) eq_refl).
  - reflexivity.
Defined.

(** X20: the instance map round trip.  After the frame callback has updated a
    dirty mesh, a click on instance [i] hands the callback the block
    [blocks[i]] and the face number [floor(faceIndex / 2)] (0 without a face
    index) for every [i] from 0 to [blocks.length - 1], and nothing for any
    other instance id or without one; the instance is drawn at the position
    computed from that block. *)
Theorem click_after_frame_finds_the_block (now : Z) (blocks : list Block) (s : Chunk.State)
    (instanceId : Z) (faceIndex : option Z) :
  Chunk.blocksDirty s = true ->
  Chunk.nextUpdate s <= now ->
  let s' := Chunk.frame true now blocks s in
  Chunk.clickedBlock true blocks s' (Some instanceId) faceIndex
  = (if bool_decide (0 <= instanceId) then
       (λ b, (b, match faceIndex with Some f => halfFloor f | None => 0 end))
         <$> blocks !! Z.to_nat instanceId
     else None)
  ∧ Chunk.clickedBlock true blocks s' None faceIndex = None
  ∧ Chunk.instanceMatrices s' !! Z.to_nat instanceId
    = Chunk.instancePosition <$> blocks !! Z.to_nat instanceId
  ∧ Chunk.meshBlocks s' = Some blocks.
Proof.
  intros Hdirty Htime. cbn zeta. unfold Chunk.frame. rewrite Hdirty. cbn [negb orb].
  rewrite bool_decide_eq_false_2 by lia.
  split_and!; [|done|apply list_lookup_fmap|done].
  unfold Chunk.clickedBlock. cbn [negb Chunk.instanceToBlockMap].
  rewrite registerInstances_lookup.
  case_bool_decide as Hrange.
  - rewrite bool_decide_eq_false_2 by lia. rewrite bool_decide_eq_false_2 by lia.
    cbn [orb]. rewrite bool_decide_eq_true_2 by lia.
    by destruct (blocks !! Z.to_nat instanceId).
  - case_bool_decide as Hpos; [|done].
    rewrite lookup_ge_None_2; [done|]. lia.
Qed.

Lemma click_after_frame_finds_the_block_witness :
  let blocks := [mkBlock 1 17 3 grass; mkBlock 2 17 3 grass] in
  let s' := Chunk.frame true 1000 blocks Chunk.initialState in
  Chunk.clickedBlock true blocks s' (Some 1) (Some 5) = Some (mkBlock 2 17 3 grass, 2)
  ∧ Chunk.clickedBlock true blocks s' (Some 2) (Some 5) = None
  ∧ Chunk.clickedBlock true blocks s' (Some (-1)) (Some 5) = None.
Proof.
  cbn zeta.
  pose proof (λ i, click_after_frame_finds_the_block 1000
                [mkBlock 1 17 3 grass; mkBlock 2 17 3 grass] Chunk.initialState i (Some 5)
                eq_refl ltac:(cbn; lia)) as Hclick.
  split_and!.
  - exact (proj1 (Hclick 1)).
  - exact (proj1 (Hclick 2)).
  - exact (proj1 (Hclick (-1))).
Defined.

(** ** Interaction timing and targeting, composed *)

Section InteractionFacts.
Import BlockInteraction.
Context {W : Type}.
Variable onBreakBlock : Z -> Z -> Z -> W -> W.
Variable onPlaceBlock : Z -> Z -> Z -> Z -> W -> W.

Lemma handleInteraction_accepted type pointerLocked now camera s w :
  (handleInteraction onBreakBlock onPlaceBlock type pointerLocked now camera s w).1.1 = true ->
  lastInteraction
    (handleInteraction onBreakBlock onPlaceBlock type pointerLocked now camera s w).1.2 = now
  ∧ INTERACTION_COOLDOWN <= now - lastInteraction s.
Proof.
  unfold handleInteraction. destruct (negb pointerLocked); [done|].
  destruct (targetedBlock s) as [[block face]|]; [|done].
  case_bool_decide as Hcool; [done|].
  destruct (distance_gt _ _ _); [done|].
  cbn [targetedBlock lastInteraction lastActionKey lastFailureReason].
  destruct type.
  - destruct (_ && _); [done|]. cbn [fst snd lastInteraction]. intros _. split; [done|lia].
  - destruct (faceDirection _) as [[[dx dy] dz]|]; [|done].
    destruct (_ && _); [done|]. cbn [fst snd lastInteraction]. intros _. split; [done|lia].
Qed.

Lemma clampFace_idemp face : clampFace (clampFace face) = clampFace face.
Proof. unfold clampFace. lia. Qed.

Lemma frameTarget_in_reach camera intersects block face :
  frameTarget camera intersects = Some (block, face) ->
  distance_gt camera (blockCenter block) MAX_INTERACTION_DISTANCE = false
  ∧ clampFace face = face.
Proof.
  intros Htarget. apply frameTarget_Some in Htarget as (i & _ & (_ & _ & Hreach) & -> & _).
  split; [|apply clampFace_idemp].
  unfold distance_gt. unfold distance_le in Hreach. by rewrite Hreach.
Qed.

Lemma handleInteraction_outcome type pointerLocked now camera s w :
  (∀ block face, targetedBlock s = Some (block, face) ->
     distance_gt camera (blockCenter block) MAX_INTERACTION_DISTANCE = false) ->
  let r := handleInteraction onBreakBlock onPlaceBlock type pointerLocked now camera s w in
  r.1.1 = true
  ∨ (r.1.1 = false ∧ r.2 = w
     ∧ (lastFailureReason r.1.2
          ∈ [Some NoBlockTargeted; Some InteractionOnCooldown;
             Some SameBlockBrokenTooQuickly; Some SameBlockPlacedTooQuickly]
        ∨ (pointerLocked = false ∧ r.1.2 = s))).
Proof.
  intros Hreach. cbn zeta. unfold handleInteraction.
  destruct pointerLocked; cbn [negb]; [|right; split_and!; [done..|by right]].
  destruct (targetedBlock s) as [[block face]|] eqn:Htarget.
  2:{ right. split_and!; [done..|]. left. cbn. set_solver. }
  rewrite (Hreach block face eq_refl).
  case_bool_decide.
  { right. split_and!; [done..|]. left. cbn. set_solver. }
  destruct type.
  - destruct (_ && _).
    + right. split_and!; [done..|]. left. cbn. set_solver.
    + by left.
  - destruct (faceDirection_clampFace face) as ([[dx dy] dz] & -> & _).
    destruct (_ && _).
    + right. split_and!; [done..|]. left. cbn. set_solver.
    + by left.
Qed.
End InteractionFacts.

(** X21: accepted interactions are at least 250 ms apart.  When
    [handleInteraction] accepts an action at time [now1] and, after a frame
    has retargeted, accepts another one at time [now2], then
    [now2 - now1 >= 250]; the first acceptance itself needs 250 ms since the
    last interaction. *)
Theorem accepted_interactions_are_spaced {W : Type} (onBreakBlock : Z -> Z -> Z -> W -> W)
    (onPlaceBlock : Z -> Z -> Z -> Z -> W -> W)
    (type1 type2 : BlockInteraction.InteractionType) (locked1 locked2 : bool) (now1 now2 : Z)
    (camera1 camera camera2 : Vector3) (intersects : list Intersection)
    (s : BlockInteraction.State) (w : W) :
  let r1 := BlockInteraction.handleInteraction onBreakBlock onPlaceBlock type1 locked1 now1
              camera1 s w in
  let s1 := BlockInteraction.frame camera intersects r1.1.2 in
  let r2 := BlockInteraction.handleInteraction onBreakBlock onPlaceBlock type2 locked2 now2
              camera2 s1 r1.2 in
  r1.1.1 = true -> r2.1.1 = true ->
  250 <= now1 - BlockInteraction.lastInteraction s ∧ 250 <= now2 - now1.
Proof.
  cbn zeta. intros Hfirst Hsecond.
  apply handleInteraction_accepted in Hfirst as [Hnow Hcool1].
  apply handleInteraction_accepted in Hsecond as [_ Hcool2].
  unfold BlockInteraction.frame in Hcool2. cbn [BlockInteraction.lastInteraction] in Hcool2.
  rewrite Hnow in Hcool2. done.
Qed.

Lemma accepted_interactions_are_spaced_witness :
  let onBreakBlock := λ (x y z : Z) (calls : list (Z * Z * Z)), calls ++ [(x, y, z)] in
  let onPlaceBlock := λ (x y z face : Z) (calls : list (Z * Z * Z)), calls ++ [(x, y, z)] in
  let camera := mkVector3 0 0 0 in
  let mesh := mkObject3D (Some (mkUserData None (Some [mkBlock 1 1 1 stone]))) None in
  let hit := mkIntersection 2 (Some 4) None mesh (Some 0) in
  let s0 := BlockInteraction.mkState (Some (mkBlock 1 1 1 stone, 2)) 0 None None in
  let r1 := BlockInteraction.handleInteraction onBreakBlock onPlaceBlock
              BlockInteraction.break true 1000 camera s0 [] in
  let s1 := BlockInteraction.frame camera [hit] r1.1.2 in
  let r2 := BlockInteraction.handleInteraction onBreakBlock onPlaceBlock
              BlockInteraction.place true 1250 camera s1 r1.2 in
  r1.1.1 = true ∧ r2.1.1 = true ∧ r2.2 = [(1, 1, 1); (1, 2, 1)]
  ∧ 250 <= 1000 - 0 ∧ 250 <= 1250 - 1000.
Proof.
  cbn zeta. do 3 (split; [reflexivity|]).
  exact (accepted_interactions_are_spaced
           (λ (x y z : Z) (calls : list (Z * Z * Z)), calls ++ [(x, y, z)])
           (λ (x y z face : Z) (calls : list (Z * Z * Z)), calls ++ [(x, y, z)])
           BlockInteraction.break BlockInteraction.place true true 1000 1250
           (mkVector3 0 0 0) (mkVector3 0 0 0) (mkVector3 0 0 0)
           [mkIntersection 2 (Some 4) None
              (mkObject3D (Some (mkUserData None (Some [mkBlock 1 1 1 stone]))) None) (Some 0)]
           (BlockInteraction.mkState (Some (mkBlock 1 1 1 stone, 2)) 0 None None) []
           eq_refl eq_refl).
Defined.

(** X22: on a target set by the frame callback, with the camera where it was
    in that frame, the reach test and the face test of [handleInteraction]
    never fail: the interaction is accepted, or it is rejected for one of the
    other reasons (no target, cooldown, same block again), or the pointer is
    not locked and nothing changes.  The failure "Invalid face direction" is
    thus never recorded. *)
Theorem frame_target_passes_reach_and_face {W : Type} (onBreakBlock : Z -> Z -> Z -> W -> W)
    (onPlaceBlock : Z -> Z -> Z -> Z -> W -> W) (type : BlockInteraction.InteractionType)
    (pointerLocked : bool) (now : Z) (camera : Vector3) (intersects : list Intersection)
    (s : BlockInteraction.State) (w : W) :
  let s1 := BlockInteraction.frame camera intersects s in
  let r := BlockInteraction.handleInteraction onBreakBlock onPlaceBlock type pointerLocked now
             camera s1 w in
  r.1.1 = true
  ∨ (r.1.1 = false ∧ r.2 = w
     ∧ (BlockInteraction.lastFailureReason r.1.2
          ∈ [Some BlockInteraction.NoBlockTargeted; Some BlockInteraction.InteractionOnCooldown;
             Some BlockInteraction.SameBlockBrokenTooQuickly;
             Some BlockInteraction.SameBlockPlacedTooQuickly]
        ∨ (pointerLocked = false ∧ r.1.2 = s1))).
Proof.
  apply handleInteraction_outcome. intros block face Htarget.
  by apply (frameTarget_in_reach camera intersects block face).
Qed.

(** X23: the placement highlight shows where the block goes.  When the frame
    callback shows the placement highlight at a coordinate and
    [handleInteraction('place')] is then accepted on that target,
    [onPlaceBlock] is called with exactly that coordinate and the target's
    face. *)
Theorem highlight_is_the_place_coordinate {W : Type} (onBreakBlock : Z -> Z -> Z -> W -> W)
    (onPlaceBlock : Z -> Z -> Z -> Z -> W -> W) (pointerLocked : bool) (now : Z)
    (camera camera' : Vector3) (intersects : list Intersection)
    (s : BlockInteraction.State) (w : W) (p : Z * Z * Z) :
  let s1 := BlockInteraction.frame camera intersects s in
  let r := BlockInteraction.handleInteraction onBreakBlock onPlaceBlock BlockInteraction.place
             pointerLocked now camera' s1 w in
  BlockInteraction.framePlacePosition camera (BlockInteraction.targetedBlock s1) = Some p ->
  r.1.1 = true ->
  ∃ block face, BlockInteraction.targetedBlock s1 = Some (block, face)
    ∧ r.2 = onPlaceBlock p.1.1 p.1.2 p.2 face w.
Proof.
  cbn zeta. set (s1 := BlockInteraction.frame camera intersects s).
  assert (BlockInteraction.targetedBlock s1 = BlockInteraction.frameTarget camera intersects)
    as Hs1 by done.
  clearbody s1. unfold BlockInteraction.handleInteraction, BlockInteraction.framePlacePosition.
  rewrite Hs1.
  destruct (BlockInteraction.frameTarget camera intersects) as [[block face]|] eqn:Htarget;
    [|done].
  destruct (frameTarget_in_reach _ _ _ _ Htarget) as [_ Hface]. rewrite Hface.
  destruct (faceDirection face) as [[[dx dy] dz]|]; [|done].
  destruct (distance_le _ _ _); [|done]. intros [= <-].
  destruct (negb pointerLocked); [done|].
  case_bool_decide; [done|]. destruct (distance_gt _ _ _); [done|].
  destruct (_ && _); [done|]. intros _. by exists block, face.
Qed.

Lemma highlight_is_the_place_coordinate_witness :
  let onBreakBlock := λ (x y z : Z) (calls : list (Z * Z * Z * Z)), calls in
  let onPlaceBlock := λ (x y z face : Z) (calls : list (Z * Z * Z * Z)),
                        calls ++ [(x, y, z, face)] in
  let camera := mkVector3 0 0 0 in
  let mesh := mkObject3D (Some (mkUserData None (Some [mkBlock 1 1 1 stone]))) None in
  let hit := mkIntersection 2 (Some 4) None mesh (Some 0) in
  let s1 := BlockInteraction.frame camera [hit] BlockInteraction.initialState in
  let r := BlockInteraction.handleInteraction onBreakBlock onPlaceBlock BlockInteraction.place
             true 1000 camera s1 [] in
  BlockInteraction.framePlacePosition camera (BlockInteraction.targetedBlock s1)
  = Some (1, 2, 1)
  ∧ r.1.1 = true
  ∧ r.2 = [(1, 2, 1, 2)]
  ∧ ∃ block face, BlockInteraction.targetedBlock s1 = Some (block, face)
      ∧ r.2 = onPlaceBlock 1 2 1 face [].
Proof.
  cbn zeta. do 3 (split; [reflexivity|]).
  exact (highlight_is_the_place_coordinate
           (λ (x y z : Z) (calls : list (Z * Z * Z * Z)), calls)
           (λ (x y z face : Z) (calls : list (Z * Z * Z * Z)), calls ++ [(x, y, z, face)])
           true 1000 (mkVector3 0 0 0) (mkVector3 0 0 0)
           [mkIntersection 2 (Some 4) None
              (mkObject3D (Some (mkUserData None (Some [mkBlock 1 1 1 stone]))) None) (Some 0)]
           BlockInteraction.initialState [] (1, 2, 1) eq_refl eq_refl).
Defined.

(** ** The raycaster utility: result, state and timing *)

Section RaycasterFacts.
Import Raycaster.

Lemma findValidIntersection_Some intersects i :
  findValidIntersection intersects = Some i ->
  i ∈ intersects ∧ is_Some (i_faceIndex i).
Proof.
  unfold findValidIntersection. intros Hhead.
  apply sortByDistance_head in Hhead as [Hin _].
  apply list_elem_of_filter in Hin as [[Hface _] Hin]. done.
Qed.

Lemma faceDirection_in_table i :
  0 <= i <= 5 -> ∃ dir, faceDirection i = Some dir ∧ dir ∈ faceDirections.
Proof.
  intros Hi. assert (i = 0 ∨ i = 1 ∨ i = 2 ∨ i = 3 ∨ i = 4 ∨ i = 5) as Hcases by lia.
  unfold faceDirection, faceDirections.
  destruct Hcases as [->|[->|[->|[->|[->| ->]]]]]; eexists; (split; [reflexivity|]);
    apply (bool_decide_unpack _); reflexivity.
Qed.

Lemma halfFloor_range f : 0 <= f <= 11 -> 0 <= halfFloor f <= 5.
Proof.
  unfold halfFloor. intros Hf. pose proof (Z.div_mod f 2). pose proof (Z.mod_pos_bound f 2).
  lia.
Qed.

Lemma tryInteract_accepted {W : Type} (callback : Block -> Z -> W -> W) now s w :
  (tryInteract callback now s w).1.1 = true ->
  lastInteractionTime (tryInteract callback now s w).1.2 = now
  ∧ INTERACTION_COOLDOWN < now - lastInteractionTime s.
Proof.
  unfold tryInteract. destruct (targetedBlock s); [|done].
  case_bool_decide; [|done]. cbn [fst snd lastInteractionTime]. intros _. split; [done|lia].
Qed.

Lemma updateRaycast_time camera intersects s :
  lastInteractionTime (updateRaycast camera intersects s).2 = lastInteractionTime s.
Proof.
  unfold updateRaycast. cbn zeta. destruct (findValidIntersection intersects); [|done].
  destruct (getBlockFromIntersection _ _); [|done].
  destruct (distance_le _ _ _); [|done]. by destruct (faceDirection _) as [[[??]?]|].
Qed.
End RaycasterFacts.

(** X24: the result of [updateRaycast] and the module state agree, and the
    call cannot throw on box geometry.  When every face index of the
    intersections lies between 0 and 11 (the twelve triangles of a box),
    [updateRaycast] returns without throwing; with no target the module's
    [targetedBlock] is null; with a target, [targetedBlock] holds the block
    whose coordinate is returned, the returned face lies between 0 and 5, the
    returned distance is the distance to the block centre and is at most 5,
    and the place position is the block moved by the normal of that face.
    The time of the last interaction is never touched. *)
Theorem raycast_result_matches_state (camera : Vector3) (intersects : list Intersection)
    (s : Raycaster.State) :
  (∀ i f, i ∈ intersects -> i_faceIndex i = Some f -> 0 <= f <= 11) ->
  let r := Raycaster.updateRaycast camera intersects s in
  Raycaster.lastInteractionTime r.2 = Raycaster.lastInteractionTime s
  ∧ match r.1 with
    | Raycaster.NoTarget => Raycaster.targetedBlock r.2 = None
    | Raycaster.HasTarget pos face placePos dsq =>
        ∃ block dir,
          Raycaster.targetedBlock r.2 = Some (Raycaster.mkTargeted block face dsq)
          ∧ pos = block_pos block
          ∧ 0 <= face <= 5
          ∧ faceDirections !! Z.to_nat face = Some dir
          ∧ placePos = (b_x block + dir.1.1, b_y block + dir.1.2, b_z block + dir.2)
          ∧ dsq = distanceSq camera (blockCenter block)
          ∧ (dsq <= 5 * 5)%Q
    | Raycaster.Throws => False
    end.
Proof.
  intros Hfaces. cbn zeta. split; [apply updateRaycast_time|].
  unfold Raycaster.updateRaycast. cbn zeta.
  destruct (Raycaster.findValidIntersection intersects) as [i|] eqn:Hfind; [|done].
  apply findValidIntersection_Some in Hfind as [Hin [f Hf]]. rewrite Hf.
  destruct (Raycaster.getBlockFromIntersection _ _) as [block|]; [|done].
  destruct (distance_le camera (blockCenter block) Raycaster.MAX_DISTANCE) eqn:Hreach; [|done].
  pose proof (halfFloor_range f (Hfaces i f Hin Hf)) as Hrange.
  destruct (faceDirection_in_table _ Hrange) as ([[dx dy] dz] & Hdir & _). rewrite Hdir.
  cbn [fst snd Raycaster.targetedBlock]. exists block, (dx, dy, dz).
  split; [done|]. split; [done|]. split; [exact Hrange|]. split.
  { unfold faceDirection in Hdir. by rewrite bool_decide_eq_true_2 in Hdir by lia. }
  split; [done|]. split; [done|].
  unfold distance_le in Hreach. by apply Qle_bool_iff in Hreach.
Qed.

Lemma raycast_result_matches_state_witness :
  let camera := mkVector3 0 0 0 in
  let mesh := mkObject3D (Some (mkUserData None (Some [mkBlock 1 1 1 stone]))) None in
  let hit := mkIntersection 2 (Some 4) None mesh (Some 0) in
  let odd := mkIntersection 2 (Some 12) None mesh (Some 0) in
  let s := Raycaster.mkState None 0 in
  (∀ i f, i ∈ [hit] -> i_faceIndex i = Some f -> 0 <= f <= 11)
  ∧ match (Raycaster.updateRaycast camera [hit] s).1 with
    | Raycaster.HasTarget pos face placePos dsq =>
        pos = (1, 1, 1) ∧ face = 2 ∧ placePos = (1, 2, 1) ∧ (dsq == 27 # 4)%Q
    | _ => False
    end
  ∧ (Raycaster.updateRaycast camera [odd] s).1 = Raycaster.Throws
  ∧ Raycaster.t_face <$> Raycaster.targetedBlock (Raycaster.updateRaycast camera [odd] s).2
    = Some 6
  ∧ match (Raycaster.updateRaycast camera [hit] s).1 with
    | Raycaster.HasTarget pos face placePos dsq => 0 <= face <= 5 ∧ (dsq <= 5 * 5)%Q
    | _ => False
    end.
Proof.
  cbn zeta.
  assert (∀ i f,
            i ∈ [mkIntersection 2 (Some 4) None
                   (mkObject3D (Some (mkUserData None (Some [mkBlock 1 1 1 stone]))) None)
                   (Some 0)] ->
            i_faceIndex i = Some f -> 0 <= f <= 11) as Hfaces.
  { intros i f Hi Hf. apply list_elem_of_singleton in Hi. subst i. injection Hf as <-. lia. }
  split; [exact Hfaces|]. split; [vm_compute; by repeat split|].
  do 2 (split; [reflexivity|]).
  pose proof (raycast_result_matches_state (mkVector3 0 0 0) _ (Raycaster.mkState None 0)
                Hfaces) as [_ Hresult].
  revert Hresult.
  destruct (Raycaster.updateRaycast _ _ _).1 as [|pos face placePos dsq|]; [done| |done].
  intros (block & dir & _ & _ & Hface & _ & _ & _ & Hd). done.
Defined.

(** X25: the raycaster utility spaces its interactions.  When [tryBreakBlock]
    succeeds at time [now1] and, after a raycast update, [tryPlaceBlock]
    succeeds at time [now2], then more than 250 ms lie between them (and more
    than 250 ms lay between [now1] and the interaction before it). *)
Theorem raycaster_interactions_are_spaced {W : Type}
    (onBlockBreak onBlockPlace : Block -> Z -> W -> W) (now1 now2 : Z) (camera : Vector3)
    (intersects : list Intersection) (s : Raycaster.State) (w : W) :
  let r1 := Raycaster.tryBreakBlock onBlockBreak now1 s w in
  let s1 := (Raycaster.updateRaycast camera intersects r1.1.2).2 in
  let r2 := Raycaster.tryPlaceBlock onBlockPlace now2 s1 r1.2 in
  r1.1.1 = true -> r2.1.1 = true ->
  250 < now1 - Raycaster.lastInteractionTime s ∧ 250 < now2 - now1.
Proof.
  cbn zeta. unfold Raycaster.tryBreakBlock, Raycaster.tryPlaceBlock.
  intros Hfirst Hsecond.
  apply tryInteract_accepted in Hfirst as [Hnow Hcool1].
  apply tryInteract_accepted in Hsecond as [_ Hcool2].
  rewrite updateRaycast_time, Hnow in Hcool2. done.
Qed.

Lemma raycaster_interactions_are_spaced_witness :
  let onBlockBreak := λ (b : Block) (face : Z) (calls : list (Block * Z)), calls ++ [(b, face)] in
  let camera := mkVector3 0 0 0 in
  let mesh := mkObject3D (Some (mkUserData None (Some [mkBlock 1 1 1 stone]))) None in
  let hit := mkIntersection 2 (Some 4) None mesh (Some 0) in
  let s := (Raycaster.updateRaycast camera [hit] (Raycaster.mkState None 0)).2 in
  let r1 := Raycaster.tryBreakBlock onBlockBreak 1000 s [] in
  let s1 := (Raycaster.updateRaycast camera [hit] r1.1.2).2 in
  let r2 := Raycaster.tryPlaceBlock onBlockBreak 1251 s1 r1.2 in
  let r2' := Raycaster.tryPlaceBlock onBlockBreak 1250 s1 r1.2 in
  r1.1.1 = true ∧ r2.1.1 = true ∧ r2'.1.1 = false
  ∧ r2.2 = [(mkBlock 1 1 1 stone, 2); (mkBlock 1 1 1 stone, 2)]
  ∧ 250 < 1000 - 0 ∧ 250 < 1251 - 1000.
Proof.
  cbn zeta. do 4 (split; [reflexivity|]).
  exact (raycaster_interactions_are_spaced
           (λ (b : Block) (face : Z) (calls : list (Block * Z)), calls ++ [(b, face)])
           (λ (b : Block) (face : Z) (calls : list (Block * Z)), calls ++ [(b, face)])
           1000 1251 (mkVector3 0 0 0)
           [mkIntersection 2 (Some 4) None
              (mkObject3D (Some (mkUserData None (Some [mkBlock 1 1 1 stone]))) None) (Some 0)]
           (Raycaster.updateRaycast (mkVector3 0 0 0)
              [mkIntersection 2 (Some 4) None
                 (mkObject3D (Some (mkUserData None (Some [mkBlock 1 1 1 stone]))) None)
                 (Some 0)] (Raycaster.mkState None 0)).2
           [] eq_refl eq_refl).
Defined.

(** ** Jumping and walking into higher ground *)

Section JumpFacts.
Import Player.
Variable normalize : Z -> Z -> Q * Q.
Variable controlsMove : Vector3 -> Q -> Q -> Q * Q.
Variable h : Q.

(** The vertical part of the frame that starts a jump. *)
Lemma lockedFrame_jump delta s :
  jump s = true -> isGrounded s = true ->
  let s' := lockedFrame (flatTerrain h) normalize controlsMove delta s in
  jump s' = false ∧ isGrounded s' = false
  ∧ v_y (velocity s') = (JUMP_FORCE * capDelta delta)%Q
  ∧ v_y (camera s')
    = ((if Qltb (h + PLAYER_HEIGHT) (v_y (camera s)) then v_y (camera s)
        else h + PLAYER_HEIGHT) + JUMP_FORCE * capDelta delta)%Q.
Proof.
  intros Hjump Hground. unfold lockedFrame, flatTerrain. rewrite Hjump, Hground.
  cbn [andb from_option id].
  destruct (normalize _ _) as [dirX dirZ].
  destruct (Qltb (h + PLAYER_HEIGHT) (v_y (camera s))); cbn beta iota zeta.
  - destruct (controlsMove _ _ _) as [newX newZ]. by destruct (Qltb _ _).
  - destruct (controlsMove _ _ _) as [newX newZ]. by destruct (Qltb _ _).
Qed.

Lemma capDelta_le delta : (capDelta delta <= 1 # 10)%Q.
Proof.
  unfold capDelta. destruct (Qltb (1 # 10) delta) eqn:Hcap; [apply Qle_refl|].
  by apply Qltb_false in Hcap.
Qed.

Lemma jump_frames delta s0 :
  (0 < delta)%Q -> atRest h s0 ->
  let frame := lockedFrame (flatTerrain h) normalize controlsMove delta in
  let s1 := frame (keyDownSpace s0) in
  let s2 := frame s1 in
  let s3 := frame s2 in
  (v_y (camera s1) == h + PLAYER_HEIGHT + JUMP_FORCE * capDelta delta)%Q
  ∧ isGrounded s1 = false
  ∧ (v_y (camera s2) == h + PLAYER_HEIGHT - JUMP_FORCE * capDelta delta)%Q
  ∧ isGrounded s2 = false
  ∧ atRest h s3.
Proof.
  intros Hdelta (Hy & Hground & Hjump). cbn zeta.
  pose proof (capDelta_pos delta Hdelta) as Hcap.
  assert (jump (keyDownSpace s0) = true ∧ isGrounded (keyDownSpace s0) = true
          ∧ camera (keyDownSpace s0) = camera s0) as (Hj0 & Hg0 & Hc0).
  { unfold keyDownSpace. by rewrite Hground. }
  destruct (lockedFrame_jump delta _ Hj0 Hg0) as (Hj1 & Hg1 & Hv1 & Hc1).
  rewrite Hc0 in Hc1.
  rewrite (proj2 (Qltb_false (h + PLAYER_HEIGHT) (v_y (camera s0)))) in Hc1
    by (rewrite Hy; apply Qle_refl).
  set (s1 := lockedFrame (flatTerrain h) normalize controlsMove delta (keyDownSpace s0)) in *.
  destruct (lockedFrame_vertical normalize controlsMove h delta s1 Hj1) as (Hj2 & Hvert).
  rewrite (proj2 (Qltb_true (h + PLAYER_HEIGHT) (v_y (camera s1)))) in Hvert
    by (rewrite Hc1; unfold JUMP_FORCE; lra).
  destruct Hvert as (Hv2 & Hc2 & Hg2).
  set (s2 := lockedFrame (flatTerrain h) normalize controlsMove delta s1) in *.
  split_and!; [by rewrite Hc1|done| |done|].
  - rewrite Hc2, Hv1, Hc1. unfold JUMP_FORCE, GRAVITY. ring.
  - apply lockedFrame_ground; [done|].
    rewrite Hc2, Hv1, Hc1. unfold JUMP_FORCE, GRAVITY. lra.
Qed.
End JumpFacts.

(** X26: a jump lasts two frames and its height depends on the frame time.
    From rest on flat terrain, with Space pressed and a constant positive
    frame delta, the first frame lifts the viewpoint by [JUMP_FORCE * delta]
    (the delta capped at 0.1, so by at most one block), the second frame ends
    the same distance below the resting height, and the third frame puts the
    viewpoint back at rest on the ground. *)
Theorem jump_lasts_two_frames (normalize : Z -> Z -> Q * Q)
    (controlsMove : Vector3 -> Q -> Q -> Q * Q) (h delta : Q) (s0 : Player.State) :
  (0 < delta)%Q -> atRest h s0 ->
  let frame := Player.lockedFrame (flatTerrain h) normalize controlsMove delta in
  let rise := (Player.JUMP_FORCE * Player.capDelta delta)%Q in
  let s1 := frame (Player.keyDownSpace s0) in
  let s2 := frame s1 in
  let s3 := frame s2 in
  (0 < rise <= 1)%Q
  ∧ (v_y (Player.camera s1) == h + Player.PLAYER_HEIGHT + rise)%Q
  ∧ Player.isGrounded s1 = false
  ∧ (v_y (Player.camera s2) == h + Player.PLAYER_HEIGHT - rise)%Q
  ∧ Player.isGrounded s2 = false
  ∧ atRest h s3.
Proof.
  intros Hdelta Hrest. cbn zeta. split; [|by apply jump_frames].
  pose proof (capDelta_pos delta Hdelta). pose proof (capDelta_le delta).
  unfold Player.JUMP_FORCE. lra.
Qed.

Lemma jump_lasts_two_frames_witness :
  let normalize := λ (_ _ : Z), (0%Q, 0%Q) in
  let controlsMove := λ (c : Vector3) (_ _ : Q), (v_x c, v_z c) in
  let s0 :=
    Player.mkState (mkVector3 0 (118 # 10) 0) (mkVector3 0 0 0) false false false false false
      true in
  let frame := Player.lockedFrame (flatTerrain 10) normalize controlsMove (1 # 60) in
  let s1 := frame (Player.keyDownSpace s0) in
  let s2 := frame s1 in
  (0 < 1 # 60)%Q ∧ atRest 10 s0
  ∧ (v_y (Player.camera s1) == (118 # 10) + (1 # 6))%Q
  ∧ (v_y (Player.camera s2) == (118 # 10) - (1 # 6))%Q
  ∧ atRest 10 (frame s2).
Proof.
  cbn zeta.
  assert (atRest 10 (Player.mkState (mkVector3 0 (118 # 10) 0) (mkVector3 0 0 0)
                       false false false false false true)) as Hrest.
  { split_and!; reflexivity. }
  pose proof (jump_lasts_two_frames (λ _ _ : Z, (0%Q, 0%Q))
                (λ (c : Vector3) (_ _ : Q), (v_x c, v_z c)) 10 (1 # 60) _ eq_refl Hrest)
    as (_ & H1 & _ & H2 & _ & H3).
  split; [reflexivity|]. split; [exact Hrest|].
  split; [rewrite H1; reflexivity|]. split; [rewrite H2; reflexivity|]. exact H3.
Defined.

Section StepFacts.
Import Player.
Variable terrain : TerrainCheck.
Variable normalize : Z -> Z -> Q * Q.
Variable controlsMove : Vector3 -> Q -> Q -> Q * Q.

Lemma lockedFrame_step delta s hcur hnew :
  isGrounded s = true ->
  terrain (Qfloor (v_x (camera s))) (Qfloor (v_z (camera s))) = Some hcur ->
  (v_y (camera s) <= hcur + PLAYER_HEIGHT)%Q ->
  let s' := lockedFrame (Some terrain) normalize controlsMove delta s in
  terrain (Qfloor (v_x (camera s'))) (Qfloor (v_z (camera s'))) = Some hnew ->
  (hnew <= hcur + (1 # 2))%Q.
Proof.
  intros Hground Hcur Hy. cbn zeta. unfold lockedFrame. rewrite Hground, Hcur.
  cbn [from_option id andb].
  destruct (normalize _ _) as [dirX dirZ].
  rewrite (proj2 (Qltb_false _ _) Hy). cbn beta iota zeta.
  destruct (jump s); cbn [andb]; cbn beta iota zeta.
  - destruct (controlsMove _ _ _) as [newX newZ].
    destruct (terrain (Qfloor newX) (Qfloor newZ)) as [h'|] eqn:Hnew.
    + destruct (Qltb _ _) eqn:Hstep; cbn [camera v_x v_z].
      * rewrite Hcur. intros [= <-]. lra.
      * rewrite Hnew. intros [= <-]. apply Qltb_false in Hstep. lra.
    + cbn [camera v_x v_z]. rewrite Hnew. done.
  - destruct (controlsMove _ _ _) as [newX newZ].
    destruct (terrain (Qfloor newX) (Qfloor newZ)) as [h'|] eqn:Hnew.
    + destruct (Qltb _ _) eqn:Hstep; cbn [camera v_x v_z].
      * rewrite Hcur. intros [= <-]. lra.
      * rewrite Hnew. intros [= <-]. apply Qltb_false in Hstep. lra.
    + cbn [camera v_x v_z]. rewrite Hnew. done.
Qed.
End StepFacts.

(** X27: a walking player is stopped by higher ground.  When a grounded player
    stands on a column of height [hcur] (at or below the standing height), the
    column on which the frame leaves them is at most 0.5 higher: a horizontal
    move onto a column more than 0.5 higher is reverted. *)
Theorem grounded_player_cannot_climb (terrain : Player.TerrainCheck)
    (normalize : Z -> Z -> Q * Q) (controlsMove : Vector3 -> Q -> Q -> Q * Q) (delta : Q)
    (s : Player.State) (hcur hnew : Q) :
  Player.isGrounded s = true ->
  terrain (Qfloor (v_x (Player.camera s))) (Qfloor (v_z (Player.camera s))) = Some hcur ->
  (v_y (Player.camera s) <= hcur + Player.PLAYER_HEIGHT)%Q ->
  let s' := Player.lockedFrame (Some terrain) normalize controlsMove delta s in
  terrain (Qfloor (v_x (Player.camera s'))) (Qfloor (v_z (Player.camera s'))) = Some hnew ->
  (hnew <= hcur + (1 # 2))%Q.
Proof. apply lockedFrame_step. Qed.

Lemma grounded_player_cannot_climb_witness :
  let terrain : Player.TerrainCheck := λ x _, Some (if bool_decide (1 <= x)%Z then 11%Q else 10%Q) in
  let normalize := λ (dx dz : Z), (inject_Z dx, inject_Z dz) in
  let controlsMove := λ (c : Vector3) (vx vz : Q), ((v_x c + vx)%Q, (v_z c - vz)%Q) in
  let s :=
    Player.mkState (mkVector3 (95 # 100) (118 # 10) 0) (mkVector3 0 0 0) false false false true
      false true in
  let s' := Player.lockedFrame (Some terrain) normalize controlsMove (1 # 10) s in
  Player.isGrounded s = true
  ∧ terrain (Qfloor (v_x (Player.camera s))) (Qfloor (v_z (Player.camera s))) = Some 10%Q
  ∧ (v_x (Player.camera s') == 95 # 100)%Q
  ∧ (10 <= 10 + (1 # 2))%Q.
Proof.
  cbn zeta. split; [reflexivity|]. split; [reflexivity|]. split; [reflexivity|].
  exact (grounded_player_cannot_climb
           (λ x _, Some (if bool_decide (1 <= x)%Z then 11%Q else 10%Q))
           (λ (dx dz : Z), (inject_Z dx, inject_Z dz))
           (λ (c : Vector3) (vx vz : Q), ((v_x c + vx)%Q, (v_z c - vz)%Q)) (1 # 10)
           (Player.mkState (mkVector3 (95 # 100) (118 # 10) 0) (mkVector3 0 0 0)
              false false false true false true)
           10 10 eq_refl eq_refl ltac:(vm_compute; discriminate) eq_refl).
Defined.

(** ** The change effect of the capped variant *)

Section CappedEffectFacts.
Import WorldCappedEffect.

Lemma groupStep_keyed m c :
  groupStep m c
  = let cc := default (mkChunkChange [] ∅) (jsmap_get (chunkOf (change_pos c)) m) in
    jsmap_set (chunkOf (change_pos c))
      (match c_action c with
       | remove => mkChunkChange (cc_add cc) ({[change_pos c]} ∪ cc_remove cc)
       | place =>
           mkChunkChange (cc_add cc ++ [mkBlock (c_x c) (c_y c) (c_z c) (c_type c)])
             (cc_remove cc)
       end) m.
Proof.
  unfold groupStep, WorldCapped.getChunkKey, chunkOf, change_pos. cbn zeta.
  by rewrite !Qfloor_div_16.
Qed.

Lemma groupChanges_snoc log c : groupChanges (log ++ [c]) = groupStep (groupChanges log) c.
Proof. unfold groupChanges. by rewrite foldl_app. Qed.

Lemma groupChanges_NoDup log : NoDup (groupChanges log).*1.
Proof.
  induction log as [|c log IH] using rev_ind; [apply NoDup_nil_2|].
  rewrite groupChanges_snoc, groupStep_keyed. cbn zeta. by apply jsmap_set_NoDup.
Qed.

Lemma groupChanges_get log k :
  jsmap_get k (groupChanges log)
  = match changesInFootprint k log with
    | [] => None
    | _ => Some (mkChunkChange (placedIn k log) (removedIn k log))
    end.
Proof.
  induction log as [|c log IH] using rev_ind; [done|].
  rewrite groupChanges_snoc, groupStep_keyed. cbn zeta. rewrite jsmap_get_set.
  unfold placedIn, removedIn in *. rewrite changesInFootprint_app.
  unfold changesInFootprint at 2 4 6. cbn [filter list_filter].
  destruct (decide (chunkOf (change_pos c) = k)) as [Hk|Hne].
  - rewrite Hk.
    assert (default (mkChunkChange [] ∅) (jsmap_get k (groupChanges log))
            = mkChunkChange
                ((λ c, mkBlock (c_x c) (c_y c) (c_z c) (c_type c))
                   <$> filter (λ c, c_action c = place) (changesInFootprint k log))
                (list_to_set
                   (change_pos <$> filter (λ c, c_action c = remove)
                                     (changesInFootprint k log))))
      as ->.
    { rewrite IH. by destruct (changesInFootprint _ log). }
    cbn [cc_add cc_remove]. rewrite !filter_app. cbn [filter list_filter].
    destruct (changesInFootprint k log ++ [c]) eqn:Happ.
    { by apply app_nil in Happ as [_ ?]. }
    destruct (c_action c) eqn:Hact.
    + rewrite decide_True, decide_False by done.
      by rewrite fmap_app, !app_nil_r.
    + rewrite decide_False, decide_True by done.
      rewrite !app_nil_r, fmap_app, list_to_set_app_L. cbn [fmap list_fmap list_to_set].
      rewrite (right_id_L ∅ (∪)). by rewrite (comm_L (∪)).
  - by rewrite IH, !app_nil_r.
Qed.

Lemma applyChunkChange_position chunk cc : position (applyChunkChange chunk cc) = position chunk.
Proof. done. Qed.

Lemma effectStep_fmap chunks k cc :
  NoDup (position <$> chunks) ->
  effectStep chunks (k, cc)
  = (λ c, if decide (position c = k) then applyChunkChange c cc else c) <$> chunks.
Proof.
  intros Hnodup. unfold effectStep.
  destruct (list_find (λ c, position c = k) chunks) as [[i chunk]|] eqn:Hfind.
  - apply list_find_Some in Hfind as (Hi & Hk & _).
    apply list_eq. intros j. rewrite list_lookup_fmap.
    destruct (decide (j = i)) as [->|Hne].
    + rewrite list_lookup_insert_eq by (by eapply lookup_lt_Some).
      rewrite Hi. cbn. by rewrite decide_True.
    + rewrite list_lookup_insert_ne by done.
      destruct (chunks !! j) as [c|] eqn:Hj; [|done]. cbn.
      rewrite decide_False; [done|]. intros Hc. apply Hne.
      apply (NoDup_lookup _ j i k Hnodup); rewrite list_lookup_fmap.
      * by rewrite Hj; cbn; rewrite Hc.
      * by rewrite Hi; cbn; rewrite Hk.
  - apply list_find_None in Hfind. rewrite Forall_forall in Hfind.
    apply list_eq. intros j. rewrite list_lookup_fmap.
    destruct (chunks !! j) as [c|] eqn:Hj; [|done]. cbn.
    rewrite decide_False; [done|]. apply Hfind. by eapply list_elem_of_lookup_2.
Qed.

Lemma effectFold_fmap groups chunks :
  NoDup groups.*1 -> NoDup (position <$> chunks) ->
  foldl effectStep chunks groups = patchChunk groups <$> chunks.
Proof.
  revert chunks. induction groups as [|[k cc] groups IH]; intros chunks Hgroups Hchunks.
  - unfold patchChunk. cbn [foldl jsmap_get]. by rewrite list_fmap_id.
  - cbn [foldl]. rewrite effectStep_fmap by done.
    cbn [fmap list_fmap fst] in Hgroups. apply NoDup_cons in Hgroups as [Hk Hgroups].
    rewrite IH; [|done|].
    + rewrite <- list_fmap_compose. apply list_fmap_ext. intros _ c _.
      unfold patchChunk, compose. cbn [jsmap_get].
      destruct (decide (position c = k)) as [Hc|Hc].
      * rewrite applyChunkChange_position, Hc. rewrite decide_True by done.
        by rewrite (proj2 (jsmap_get_None groups k) Hk).
      * by rewrite decide_False by done.
    + rewrite <- list_fmap_compose.
      erewrite list_fmap_ext; [exact Hchunks|]. intros _ c _. unfold compose.
      by destruct (decide _).
Qed.

Lemma changesEffect_fmap chunks log :
  NoDup (position <$> chunks) ->
  changesEffect chunks log = patchChunk (groupChanges log) <$> chunks.
Proof.
  intros Hchunks. unfold changesEffect. case_bool_decide as Hlen.
  - destruct log; [|done]. unfold patchChunk. cbn. by rewrite list_fmap_id.
  - apply effectFold_fmap; [apply groupChanges_NoDup|done].
Qed.
End CappedEffectFacts.

(** X28: the change effect of the capped variant ignores the order of the
    log.  For rendered chunks with distinct coordinates, the effect replaces
    each chunk that has changes in its footprint by the chunk with all
    removed coordinates of the log deleted first, and then every placed block
    of the log appended whose coordinate is free at that point; other chunks
    stay as they are.  So a coordinate that the log places holds a block
    afterwards even when a later entry of the log removes it. *)
Theorem capped_effect_applies_removes_before_places (chunks : list ChunkData)
    (log : list BlockChange) :
  NoDup (position <$> chunks) ->
  WorldCappedEffect.changesEffect chunks log
  = (λ chunk,
       match changesInFootprint (position chunk) log with
       | [] => chunk
       | _ =>
           WorldCappedEffect.applyChunkChange chunk
             (WorldCappedEffect.mkChunkChange (placedIn (position chunk) log)
                (removedIn (position chunk) log))
       end) <$> chunks
  ∧ ∀ chunk c, chunk ∈ chunks -> c ∈ log -> c_action c = place ->
      chunkOf (change_pos c) = position chunk ->
      ∃ chunk', chunk' ∈ WorldCappedEffect.changesEffect chunks log
        ∧ position chunk' = position chunk
        ∧ change_pos c ∈ block_pos <$> blocks chunk'.
Proof.
  intros Hchunks.
  assert (∀ chunk, patchChunk (WorldCappedEffect.groupChanges log) chunk
          = match changesInFootprint (position chunk) log with
            | [] => chunk
            | _ =>
                WorldCappedEffect.applyChunkChange chunk
                  (WorldCappedEffect.mkChunkChange (placedIn (position chunk) log)
                     (removedIn (position chunk) log))
            end) as Hpatch.
  { intros chunk. unfold patchChunk. rewrite groupChanges_get.
    by destruct (changesInFootprint (position chunk) log). }
  rewrite changesEffect_fmap by done. split.
  - apply list_fmap_ext. intros _ chunk _. apply Hpatch.
  - intros chunk c Hchunk Hc Hplace Hk.
    exists (patchChunk (WorldCappedEffect.groupChanges log) chunk). split_and!.
    + apply list_elem_of_fmap. by exists chunk.
    + rewrite Hpatch. by destruct (changesInFootprint (position chunk) log).
    + rewrite Hpatch.
      assert (c ∈ changesInFootprint (position chunk) log) as Hfp.
      { unfold changesInFootprint. by apply list_elem_of_filter. }
      destruct (changesInFootprint (position chunk) log) as [|c0 rest] eqn:Hfoot;
        [by apply not_elem_of_nil in Hfp|].
      rewrite <- Hfoot in Hfp.
      unfold WorldCappedEffect.applyChunkChange.
      cbn [blocks WorldCappedEffect.cc_add WorldCappedEffect.cc_remove].
      set (blocks1 := if bool_decide _ then _ else blocks chunk).
      assert (mkBlock (c_x c) (c_y c) (c_z c) (c_type c) ∈ placedIn (position chunk) log)
        as Hplaced.
      { unfold placedIn. apply list_elem_of_fmap. exists c. split; [done|].
        by apply list_elem_of_filter. }
      rewrite bool_decide_eq_true_2.
      2:{ destruct (placedIn (position chunk) log); [by apply not_elem_of_nil in Hplaced|].
          cbn. lia. }
      rewrite fmap_app. apply elem_of_app.
      destruct (decide (change_pos c ∈ block_pos <$> blocks1)) as [Hin|Hout]; [by left|].
      right. apply list_elem_of_fmap.
      exists (mkBlock (c_x c) (c_y c) (c_z c) (c_type c)). split; [done|].
      apply list_elem_of_filter. split; [|done].
      rewrite elem_of_list_to_set. exact Hout.
Qed.

Lemma capped_effect_applies_removes_before_places_witness :
  let chunks := [mkChunk (0, 0, 0) []] in
  let log := [mkChange 5 5 5 stone place; mkChange 5 5 5 stone remove] in
  NoDup (position <$> chunks)
  ∧ WorldCappedEffect.changesEffect chunks log = [mkChunk (0, 0, 0) [mkBlock 5 5 5 stone]]
  ∧ blocks (World.applyChangesToChunk (mkChunk (0, 0, 0) []) log) = []
  ∧ ∃ chunk', chunk' ∈ WorldCappedEffect.changesEffect chunks log
      ∧ position chunk' = (0, 0, 0)
      ∧ (5, 5, 5) ∈ block_pos <$> blocks chunk'.
Proof.
  cbn zeta.
  assert (NoDup (position <$> [mkChunk (0, 0, 0) []])) as Hnodup.
  { cbn. apply NoDup_singleton. }
  split; [exact Hnodup|]. split; [reflexivity|]. split; [reflexivity|].
  refine (proj2 (capped_effect_applies_removes_before_places [mkChunk (0, 0, 0) []]
                   [mkChange 5 5 5 stone place; mkChange 5 5 5 stone remove] Hnodup)
            (mkChunk (0, 0, 0) []) (mkChange 5 5 5 stone place) _ _ eq_refl eq_refl).
  - apply list_elem_of_here.
  - apply list_elem_of_here.
Defined.

(** ** Frames of the capped variant after a pass *)

Section CappedIdleFacts.
Import WorldCapped.

Lemma cappedFrame_near playerPos w :
  Qle_bool (10 * 10) (distanceSq playerPos (lastCheckedPosition w)) = false ->
  streamingFrame playerPos w = w.
Proof.
  intros Hnear. unfold streamingFrame. rewrite Hnear.
  destruct (terrainGenerator w); [|done]. by destruct (negb _).
Qed.

Lemma cappedFrame_pass gen playerPos w :
  terrainGenerator w = Some gen ->
  isInitialChunksLoaded w = true ->
  Qle_bool (10 * 10) (distanceSq playerPos (lastCheckedPosition w)) = true ->
  let w' := streamingFrame playerPos w in
  lastCheckedPosition w' = playerPos
  ∧ (length (chunks w') <= length (chunks w) + MAX_CHUNKS_PER_FRAME)%nat.
Proof.
  intros Hgen Hinit Hfar. cbn zeta. unfold streamingFrame. rewrite Hgen, Hinit, Hfar.
  cbn [negb].
  pose proof (cappedPass_invariant gen
                (getChunkCoords (v_x playerPos) (v_y playerPos) (v_z playerPos))
                (loadedChunks w)) as (Hcount & Hcap & _).
  destruct (cappedPass _ _ _) as [[loaded newChunks] n]. cbn [fst snd] in *.
  cbn [lastCheckedPosition chunks]. rewrite length_app. split; [done|lia].
Qed.
End CappedIdleFacts.

(** X29: in the capped variant the work a pass defers is not resumed while
    the viewpoint stays near.  A pass (it runs when the viewpoint is 10 units
    or more from the last checked position) adds at most 3 chunks and records
    the viewpoint; every later frame with the viewpoint less than 10 units
    from that position leaves the state as it is, so no further chunk is
    generated until the viewpoint has moved 10 units. *)
Theorem capped_frames_rest_after_a_pass (gen : Noise.TerrainGenerator) (w : WorldCapped.State)
    (playerPos : Vector3) (later : list Vector3) :
  WorldCapped.terrainGenerator w = Some gen ->
  WorldCapped.isInitialChunksLoaded w = true ->
  Qle_bool (10 * 10) (distanceSq playerPos (WorldCapped.lastCheckedPosition w)) = true ->
  Forall (λ p, Qle_bool (10 * 10) (distanceSq p playerPos) = false) later ->
  let w1 := WorldCapped.streamingFrame playerPos w in
  (length (WorldCapped.chunks w1) <= length (WorldCapped.chunks w) + 3)%nat
  ∧ foldl (λ w p, WorldCapped.streamingFrame p w) w1 later = w1.
Proof.
  intros Hgen Hinit Hfar Hlater. cbn zeta.
  destruct (cappedFrame_pass gen playerPos w Hgen Hinit Hfar) as [Hpos Hlen].
  split; [exact Hlen|].
  induction Hlater as [|p later Hp _ IH]; [done|].
  cbn [foldl]. rewrite cappedFrame_near; [exact IH|]. by rewrite Hpos.
Qed.

Lemma capped_frames_rest_after_a_pass_witness :
  let w := WorldCapped.mkState [] (Some flatGenerator) true ∅ (mkVector3 0 0 0) in
  let w1 := WorldCapped.streamingFrame (mkVector3 1000 20 0) w in
  let w2 := WorldCapped.streamingFrame (mkVector3 1005 20 0) w1 in
  length (WorldCapped.chunks w1) = 3%nat
  ∧ (length (WorldCapped.chunks w1) <= 0 + 3)%nat
  ∧ foldl (λ w p, WorldCapped.streamingFrame p w) w1
      [mkVector3 1005 20 0; mkVector3 1009 21 1] = w1.
Proof.
  cbn zeta. split; [vm_compute; reflexivity|].
  refine (capped_frames_rest_after_a_pass flatGenerator
            (WorldCapped.mkState [] (Some flatGenerator) true ∅ (mkVector3 0 0 0))
            (mkVector3 1000 20 0) [mkVector3 1005 20 0; mkVector3 1009 21 1]
            eq_refl eq_refl eq_refl _).
  repeat constructor.
Defined.

(** ** Culling in the culling variant of the chunk component *)

Section CullingFacts.
Import ChunkCulled.

Lemma square_nonneg (x : Q) : (0 <= x * x)%Q.
Proof. nra. Qed.

Lemma component_bound (d e : Q) :
  (-8 <= e <= 7)%Q -> ((d - e) * (d - e) <= (3 # 2) * (d * d) + 192)%Q.
Proof.
  intros He. pose proof (square_nonneg (d + 2 * e)) as Hsq.
  assert (0 <= (e + 8) * (8 - e))%Q by (apply Qmult_le_0_compat; lra). lra.
Qed.

Lemma coordinate_offset (x k : Z) :
  x / 16 = k ->
  (-8 <= inject_Z x - (inject_Z k * CHUNK_SIZE + CHUNK_SIZE / 2) <= 7)%Q.
Proof.
  intros <-. pose proof (Z.div_mod x 16). pose proof (Z.mod_pos_bound x 16).
  assert (inject_Z (x / 16) * 16 <= inject_Z x)%Q as Hlo.
  { change 16%Q with (inject_Z 16). rewrite <- inject_Z_mult, <- Zle_Qle. lia. }
  assert (inject_Z x <= inject_Z (x / 16) * 16 + 15)%Q as Hhi.
  { change 16%Q with (inject_Z 16). change 15%Q with (inject_Z 15).
    rewrite <- inject_Z_mult, <- inject_Z_plus, <- Zle_Qle. lia. }
  unfold CHUNK_SIZE. assert (16 / 2 == 8)%Q as -> by reflexivity. lra.
Qed.

Lemma visible_chunk_block_kept camera chunk block :
  isChunkVisible camera chunk = true ->
  blockInChunk (position chunk) block ->
  blockCulled camera block = false.
Proof.
  unfold isChunkVisible, blockInChunk, blockCulled, chunkOf, block_pos.
  destruct (position chunk) as [[kx ky] kz]. cbn zeta.
  rewrite negb_true_iff, negb_false_iff, Qle_bool_iff. intros Hvisible [= Hx Hy Hz].
  assert (distanceSquared camera (inject_Z kx * CHUNK_SIZE + CHUNK_SIZE / 2)
            (inject_Z ky * CHUNK_SIZE + CHUNK_SIZE / 2)
            (inject_Z kz * CHUNK_SIZE + CHUNK_SIZE / 2)
          < MAX_VISIBLE_DISTANCE * MAX_VISIBLE_DISTANCE)%Q as Hnear.
  { apply Qnot_le_lt. intros Hle. apply Qle_bool_iff in Hle. congruence. }
  clear Hvisible. apply coordinate_offset in Hx, Hy, Hz.
  revert Hnear Hx Hy Hz. unfold distanceSquared, MAX_VISIBLE_DISTANCE, BLOCK_CULL_DISTANCE.
  generalize (inject_Z kx * CHUNK_SIZE + CHUNK_SIZE / 2)%Q.
  generalize (inject_Z ky * CHUNK_SIZE + CHUNK_SIZE / 2)%Q.
  generalize (inject_Z kz * CHUNK_SIZE + CHUNK_SIZE / 2)%Q.
  generalize (inject_Z (b_x block)) (inject_Z (b_y block)) (inject_Z (b_z block)).
  intros bx by' bz cz cy cx Hnear Hx Hy Hz.
  pose proof (component_bound (v_x camera - cx) (bx - cx) Hx) as Hbx.
  pose proof (component_bound (v_y camera - cy) (by' - cy) Hy) as Hby.
  pose proof (component_bound (v_z camera - cz) (bz - cz) Hz) as Hbz.
  lra.
Qed.

Lemma culled_fold camera bs acc :
  Forall (λ b, blockCulled camera b = false) bs ->
  foldl (groupStep camera) acc bs = foldl Chunk.groupStep acc bs.
Proof.
  revert acc. induction bs as [|b bs IH]; intros acc Hall; [done|].
  apply Forall_cons in Hall as [Hb Hall]. cbn [foldl].
  unfold groupStep at 2. rewrite Hb. by apply IH.
Qed.
End CullingFacts.

(** X30: in the culling variant of the chunk component, the block-level
    distance test removes blocks only from a chunk that is far from the
    camera it is computed with.  The component holds two memoized values:
    the chunk's visibility, computed with one camera position, and the
    rendered groups, computed with a possibly later one.  Whenever the centre
    of the chunk is closer than 32 to the camera position the groups are
    computed with, every block inside the chunk's bounds is within 48 of it,
    so no block is culled and the groups are exactly the blocks of the chunk
    by type; the component then renders them all, or nothing when its
    remembered visibility says the chunk is not visible. *)
Theorem block_culling_only_culls_far_chunks (visibilityCamera camera : Vector3)
    (chunk : ChunkData) :
  Forall (blockInChunk (position chunk)) (blocks chunk) ->
  ChunkCulled.isChunkVisible camera chunk = true ->
  Forall (λ b, ChunkCulled.blockCulled camera b = false) (blocks chunk)
  ∧ ChunkCulled.renderedGroups camera chunk = Chunk.blocksByType chunk
  ∧ ChunkCulled.renderedContent visibilityCamera camera chunk
    = if ChunkCulled.isChunkVisible visibilityCamera chunk
      then Some (Chunk.blocksByType chunk) else None.
Proof.
  intros Hbounds Hnear.
  assert (Forall (λ b, ChunkCulled.blockCulled camera b = false) (blocks chunk)) as Hkept.
  { eapply Forall_impl; [exact Hbounds|]. intros b Hb.
    by apply (visible_chunk_block_kept camera chunk b). }
  assert (ChunkCulled.renderedGroups camera chunk = Chunk.blocksByType chunk) as Hgroups.
  { unfold ChunkCulled.renderedGroups. by rewrite culled_fold. }
  split; [exact Hkept|]. split; [exact Hgroups|].
  unfold ChunkCulled.renderedContent. rewrite Hgroups.
  by destruct (ChunkCulled.isChunkVisible visibilityCamera chunk).
Qed.

(** The chunk (0, 0, 0) with two blocks: computed with the camera at
    (30, 30, 8) both blocks are rendered, whatever camera the visibility was
    computed with, as long as it says visible; with the visibility computed
    at (8, 8, 8) and the groups at (100, 8, 8), the chunk is rendered with
    every block culled. *)
Lemma block_culling_only_culls_far_chunks_witness :
  let chunk := mkChunk (0, 0, 0) [mkBlock 0 0 0 stone; mkBlock 15 15 15 dirt] in
  Forall (blockInChunk (position chunk)) (blocks chunk)
  ∧ ChunkCulled.isChunkVisible (mkVector3 30 30 8) chunk = true
  ∧ ChunkCulled.renderedContent (mkVector3 8 8 8) (mkVector3 30 30 8) chunk
    = Some [(stone, [mkBlock 0 0 0 stone]); (dirt, [mkBlock 15 15 15 dirt])]
  ∧ ChunkCulled.isChunkVisible (mkVector3 100 8 8) chunk = false
  ∧ ChunkCulled.renderedContent (mkVector3 8 8 8) (mkVector3 100 8 8) chunk = Some [].
Proof.
  cbn zeta.
  assert (Forall (blockInChunk (0, 0, 0)) [mkBlock 0 0 0 stone; mkBlock 15 15 15 dirt])
    as Hbounds by (repeat constructor).
  split; [exact Hbounds|]. split; [reflexivity|].
  split; [|split; reflexivity].
  exact (proj2 (proj2 (block_culling_only_culls_far_chunks (mkVector3 8 8 8)
                         (mkVector3 30 30 8)
                         (mkChunk (0, 0, 0) [mkBlock 0 0 0 stone; mkBlock 15 15 15 dirt])
                         Hbounds eq_refl))).
Defined.
